(** * Command resolution, flag groups and completion hooks of the cobra fork

    A shallow embedding of the parts of [flag_groups.go], [command.go] and
    [completions.go] that resolve a command, validate flag groups and keep
    the per-flag completion hooks, with the properties the design document
    states about them. *)

From Stdlib Require Import ZArith Ascii String List Sorting.Sorted Permutation.
From stdpp Require Import base option list gmap strings sorting fin_maps.

#[local] Set Warnings "-clear-no-such-hyp,-register-all".

Local Open Scope string_scope.
Local Open Scope Z_scope.

(** ** Go's [strings] package, on byte strings *)

Module GoStrings.

(** [strings.HasPrefix(s, prefix)]. *)
Fixpoint HasPrefix (s prefix : string) {struct prefix} : bool :=
  match prefix, s with
  | EmptyString, _ => true
  | String _ _, EmptyString => false
  | String p prefix', String a s' =>
      if Ascii.eqb a p then HasPrefix s' prefix' else false
  end.

(** [strings.Contains(s, substr)]. *)
Fixpoint Contains (s substr : string) : bool :=
  HasPrefix s substr ||
  match s with
  | EmptyString => false
  | String _ s' => Contains s' substr
  end.

(** [strings.Split(s, " ")]: the fields between single spaces; the empty
    string has the single empty field. *)
Fixpoint Split (s : string) : list string :=
  match s with
  | EmptyString => [EmptyString]
  | String a s' =>
      if Ascii.eqb a " "%char then EmptyString :: Split s'
      else match Split s' with
           | [] => [String a EmptyString]
           | w :: ws => String a w :: ws
           end
  end.

(** [strings.Join(elems, " ")]. *)
Fixpoint Join (elems : list string) : string :=
  match elems with
  | [] => EmptyString
  | [x] => x
  | x :: rest => x ++ " " ++ Join rest
  end.

(** [name[:i]] for [i := strings.Index(name, " ")], the whole of [name]
    when it holds no space: what [Command.Name] keeps of [Use]. *)
Fixpoint untilSpace (name : string) : string :=
  match name with
  | EmptyString => EmptyString
  | String a s' =>
      if Ascii.eqb a " "%char then EmptyString else String a (untilSpace s')
  end.

(** [unicode.ToLower] on the ASCII letters; other bytes are kept. *)
Definition lowerByte (a : ascii) : ascii :=
  let n := N_of_ascii a in
  if ((65 <=? n) && (n <=? 90))%N then ascii_of_N (n + 32) else a.

(** [strings.ToLower(s)], byte by byte. *)
Fixpoint ToLower (s : string) : string :=
  match s with
  | EmptyString => EmptyString
  | String a s' => String (lowerByte a) (ToLower s')
  end.

(** [strings.EqualFold(s, t)]: equality under case folding. *)
Definition EqualFold (s t : string) : bool :=
  String.eqb (ToLower s) (ToLower t).

(** The order of [sort.Strings]: bytewise lexicographic. *)
Definition str_le (a b : string) : Prop := String.leb a b = true.

#[global] Instance str_le_dec : RelDecision str_le.
Proof. intros a b. unfold str_le. apply _. Defined.

#[global] Instance str_le_total : Total str_le.
Proof. intros a b. apply String.leb_total. Qed.

(** [sort.Strings(l)]. *)
Definition sortStrings (l : list string) : list string :=
  merge_sort str_le l.

End GoStrings.
Import GoStrings.

(** ** The flag set collaborator (pflag) *)

(** A flag of a flag set.  [addr] stands for the address of the [*pflag.Flag]:
    the completion registry is keyed by it.  The name of a flag is the key it
    is stored under in its flag set. *)
Record Flag : Type := mkFlag {
  addr : positive;
  Shorthand : string;
  Changed : bool;
  NoOptDefVal : string;
  Hidden : bool;
  Annotations : gmap string (list string)
}.

(** [pflag.FlagSet]: its [formal] map, from flag name to flag. *)
Abbreviation FlagSet := (gmap string Flag).

Module pflag.

(** [fs.Lookup(name)]; [None] is Go's nil. *)
Definition Lookup (fs : FlagSet) (name : string) : option Flag := fs !! name.

(** The order of [sortFlags]: by flag name. *)
Definition name_le (x y : string * Flag) : Prop := str_le x.1 y.1.

#[global] Instance name_le_dec : RelDecision name_le.
Proof. intros x y. unfold name_le. apply _. Defined.

(** The flags in the order [fs.VisitAll] calls its callback: sorted by name. *)
Definition sortedFormal (fs : FlagSet) : list (string * Flag) :=
  merge_sort name_le (map_to_list fs).

(** [fs.VisitAll(fn)], [fn] threading the state it closes over. *)
Definition VisitAll {S : Type} (fs : FlagSet)
    (fn : string -> Flag -> S -> S) (s : S) : S :=
  foldl (fun acc p => fn p.1 p.2 acc) s (sortedFormal fs).

(** [fs.ShorthandLookup(name)] for a one-byte [name]: the first flag, in
    name order, that has this shorthand. *)
Definition ShorthandLookup (fs : FlagSet) (name : string) : option Flag :=
  snd <$> List.find (fun p => String.eqb (Shorthand p.2) name) (sortedFormal fs).

Definition withAnnotation (key : string) (values : list string) (f : Flag) : Flag :=
  mkFlag (addr f) (Shorthand f) (Changed f) (NoOptDefVal f) (Hidden f)
         (<[key := values]> (Annotations f)).

Definition withHidden (h : bool) (f : Flag) : Flag :=
  mkFlag (addr f) (Shorthand f) (Changed f) (NoOptDefVal f) h (Annotations f).

Definition withChanged (b : bool) (f : Flag) : Flag :=
  mkFlag (addr f) (Shorthand f) b (NoOptDefVal f) (Hidden f) (Annotations f).

(** [fs.SetAnnotation(name, key, values)]: [None] is the error for a flag
    that does not exist. *)
Definition SetAnnotation (fs : FlagSet) (name key : string)
    (values : list string) : option FlagSet :=
  match fs !! name with
  | None => None
  | Some f => Some (<[name := withAnnotation key values f]> fs)
  end.

End pflag.

(** ** Flag groups ([flag_groups.go]) *)

Module FlagGroups.

Definition requiredAsGroupAnnotation : string := "cobra_annotation_required_if_others_set".
Definition oneRequiredAnnotation : string := "cobra_annotation_one_required".
Definition mutuallyExclusiveAnnotation : string := "cobra_annotation_mutually_exclusive".

(** [f.Annotations[annotation]], nil read as the empty slice. *)
Definition annotationOf (annotation : string) (f : Flag) : list string :=
  default [] (Annotations f !! annotation).

(** The loop shared by [MarkFlagsRequiredTogether], [MarkFlagsOneRequired]
    and [MarkFlagsMutuallyExclusive] over the merged flag set; [None] is the
    panic on a flag that is not there. *)
Fixpoint markLoop (annotation : string) (flagNames : list string)
    (vs : list string) (fs : FlagSet) : option FlagSet :=
  match vs with
  | [] => Some fs
  | v :: vs' =>
      match pflag.Lookup fs v with
      | None => None
      | Some f =>
          match pflag.SetAnnotation fs v annotation
                  (annotationOf annotation f ++ [Join flagNames]) with
          | None => None
          | Some fs' => markLoop annotation flagNames vs' fs'
          end
      end
  end.

Definition MarkFlagsRequiredTogether (flagNames : list string) (fs : FlagSet) :=
  markLoop requiredAsGroupAnnotation flagNames flagNames fs.
Definition MarkFlagsOneRequired (flagNames : list string) (fs : FlagSet) :=
  markLoop oneRequiredAnnotation flagNames flagNames fs.
Definition MarkFlagsMutuallyExclusive (flagNames : list string) (fs : FlagSet) :=
  markLoop mutuallyExclusiveAnnotation flagNames flagNames fs.

(** [hasAllFlags(fs, flagnames...)]. *)
Fixpoint hasAllFlags (fs : FlagSet) (flagnames : list string) : bool :=
  match flagnames with
  | [] => true
  | fname :: rest =>
      match pflag.Lookup fs fname with
      | None => false
      | Some _ => hasAllFlags fs rest
      end
  end.

(** A status table: group signature to (flag name to changed). *)
Abbreviation Status := (gmap string (gmap string bool)).

(** The fresh entry of a group: every name of the signature, not changed. *)
Definition freshGroup (flagnames : list string) : gmap string bool :=
  foldl (fun m name => <[name := false]> m) ∅ flagnames.

(** One turn of the loop over [groupInfo] in [processFlagGroupAnnotation]. *)
Definition processGroup (flags : FlagSet) (name : string) (pflag : Flag)
    (groupStatus : Status) (group : string) : Status :=
  match groupStatus !! group with
  | None =>
      let flagnames := Split group in
      if negb (hasAllFlags flags flagnames) then groupStatus
      else <[group := <[name := Changed pflag]> (freshGroup flagnames)]> groupStatus
  | Some m => <[group := <[name := Changed pflag]> m]> groupStatus
  end.

(** [processFlagGroupAnnotation(flags, pflag, annotation, groupStatus)],
    which [enforceFlagGroupsForCompletion] calls
    [processFlagForGroupAnnotation]. *)
Definition processFlagGroupAnnotation (flags : FlagSet) (name : string)
    (pflag : Flag) (annotation : string) (groupStatus : Status) : Status :=
  match Annotations pflag !! annotation with
  | Some groupInfo => foldl (processGroup flags name pflag) groupStatus groupInfo
  | None => groupStatus
  end.

(** The status table one annotation kind ends with after [VisitAll]. *)
Definition statusTable (annotation : string) (flags : FlagSet) : Status :=
  pflag.VisitAll flags
    (fun name pflag gs => processFlagGroupAnnotation flags name pflag annotation gs) ∅.

(** [sortedKeys(m)]. *)
Definition sortedKeys (m : Status) : list string :=
  sortStrings (map_to_list m).*1.

(** The names of a group entry whose status is [b], as ranging over the
    entry collects them. *)
Definition namesWith (b : bool) (flagnameAndStatus : gmap string bool) : list string :=
  (filter (fun p => p.2 = b) (map_to_list flagnameAndStatus)).*1.

Inductive error : Type :=
| ErrRequiredTogether (flagList : string) (unset : list string)
| ErrOneRequired (flagList : string)
| ErrMutuallyExclusive (flagList : string) (set : list string).

(** [%v] of a slice of strings. *)
Definition fmtSlice (l : list string) : string := "[" ++ Join l ++ "]".

(** The text of the error, as [fmt.Errorf] builds it. *)
Definition Error (e : error) : string :=
  match e with
  | ErrRequiredTogether flagList unset =>
      "if any flags in the group [" ++ flagList
        ++ "] are set they must all be set; missing " ++ fmtSlice unset
  | ErrOneRequired flagList =>
      "at least one of the flags in the group [" ++ flagList ++ "] is required"
  | ErrMutuallyExclusive flagList set =>
      "if any flags in the group [" ++ flagList
        ++ "] are set none of the others can be; " ++ fmtSlice set ++ " were all set"
  end.

(** The body of the loop of [validateRequireFlagGroups] for one group. *)
Definition checkRequire (flagList : string) (flagnameAndStatus : gmap string bool)
    : option error :=
  let unset := namesWith false flagnameAndStatus in
  if (length unset =? size flagnameAndStatus)%nat || (length unset =? 0)%nat
  then None
  else Some (ErrRequiredTogether flagList (sortStrings unset)).

Definition checkOneRequired (flagList : string) (flagnameAndStatus : gmap string bool)
    : option error :=
  let set := namesWith true flagnameAndStatus in
  if (1 <=? length set)%nat then None
  else Some (ErrOneRequired flagList).

Definition checkExclusive (flagList : string) (flagnameAndStatus : gmap string bool)
    : option error :=
  let set := namesWith true flagnameAndStatus in
  if (length set =? 0)%nat || (length set =? 1)%nat then None
  else Some (ErrMutuallyExclusive flagList (sortStrings set)).

(** The loop over the sorted keys, returning at the first error. *)
Fixpoint validateLoop (check : string -> gmap string bool -> option error)
    (data : Status) (keys : list string) : option error :=
  match keys with
  | [] => None
  | flagList :: rest =>
      match check flagList (default ∅ (data !! flagList)) with
      | Some e => Some e
      | None => validateLoop check data rest
      end
  end.

Definition validateRequireFlagGroups (data : Status) : option error :=
  validateLoop checkRequire data (sortedKeys data).
Definition validateOneRequiredFlagGroups (data : Status) : option error :=
  validateLoop checkOneRequired data (sortedKeys data).
Definition validateExclusiveFlagGroups (data : Status) : option error :=
  validateLoop checkExclusive data (sortedKeys data).

(** The three status tables the visit of the flags builds, in the order
    required-together, one-required, mutually exclusive.  The visit is that
    of [flags], which the source spells [flag.VisitAll] in
    [ValidateFlagGroups]. *)
Definition groupTables (flags : FlagSet) : Status * Status * Status :=
  pflag.VisitAll flags
    (fun name pflag tables =>
       let '(groupStatus, oneRequiredGroupStatus, mutuallyExclusiveGroupStatus) := tables in
       (processFlagGroupAnnotation flags name pflag requiredAsGroupAnnotation groupStatus,
        processFlagGroupAnnotation flags name pflag oneRequiredAnnotation
          oneRequiredGroupStatus,
        processFlagGroupAnnotation flags name pflag mutuallyExclusiveAnnotation
          mutuallyExclusiveGroupStatus))
    (∅, ∅, ∅).

(** [ValidateFlagGroups] of a command whose [DisableFlagParsing] and merged
    flag set [c.Flags()] are given; [None] is the nil error. *)
Definition ValidateFlagGroups (DisableFlagParsing : bool) (flags : FlagSet)
    : option error :=
  if DisableFlagParsing then None
  else
    let '(groupStatus, oneRequiredGroupStatus, mutuallyExclusiveGroupStatus) :=
      groupTables flags in
    match validateRequireFlagGroups groupStatus with
    | Some err => Some err
    | None =>
        match validateOneRequiredFlagGroups oneRequiredGroupStatus with
        | Some err => Some err
        | None => validateExclusiveFlagGroups mutuallyExclusiveGroupStatus
        end
    end.

End FlagGroups.

(** ** The completion-time pass over the flag groups ([flag_groups.go]) *)

Module FlagGroupsCompletion.
Import FlagGroups.

Section Enforce.

(** The annotation key of a required flag, a constant of
    [bash_completions.go]. *)
Variable BashCompOneRequiredFlag : string.

(** [MarkFlagRequired(flags, name)]. *)
Definition MarkFlagRequired (flags : FlagSet) (name : string) : option FlagSet :=
  pflag.SetAnnotation flags name BashCompOneRequiredFlag ["true"].

(** [_ = c.MarkFlagRequired(fName)]: the error is dropped. *)
Definition markRequired (flags : FlagSet) (fName : string) : FlagSet :=
  default flags (MarkFlagRequired flags fName).

(** [for _, fName := range strings.Split(flagList, " ") { _ = c.MarkFlagRequired(fName) }]. *)
Definition markGroupRequired (flagList : string) (flags : FlagSet) : FlagSet :=
  foldl markRequired flags (Split flagList).

(** The first loop, over the required-together groups. *)
Definition enforceRequiredTogether (groupStatus : Status) (flags : FlagSet) : FlagSet :=
  foldl (fun fs entry =>
           foldl (fun fs' (member : string * bool) =>
                    if member.2 then markGroupRequired entry.1 fs' else fs')
                 fs (map_to_list entry.2))
        flags (map_to_list groupStatus).

(** [for _, isSet = range flagnameAndStatus { if isSet { break } }], from
    the value [isSet] has before the loop. *)
Fixpoint rangeUntilSet (members : list (string * bool)) (isSet : bool) : bool :=
  match members with
  | [] => isSet
  | member :: rest => if member.2 then true else rangeUntilSet rest member.2
  end.

(** The second loop, over the one-required groups. *)
Definition enforceOneRequired (oneRequiredGroupStatus : Status) (flags : FlagSet)
    : FlagSet :=
  foldl (fun fs entry =>
           let isSet := rangeUntilSet (map_to_list entry.2) false in
           if negb isSet then markGroupRequired entry.1 fs else fs)
        flags (map_to_list oneRequiredGroupStatus).

(** A loop that stops at the first panic. *)
Fixpoint foldlM {A : Type} (step : FlagSet -> A -> option FlagSet)
    (flags : FlagSet) (l : list A) : option FlagSet :=
  match l with
  | [] => Some flags
  | a :: rest =>
      match step flags a with
      | None => None
      | Some flags' => foldlM step flags' rest
      end
  end.

(** [flag := c.Flags().Lookup(fName); flag.Hidden = true]: [None] is the
    nil dereference. *)
Definition hideFlag (flags : FlagSet) (fName : string) : option FlagSet :=
  match pflag.Lookup flags fName with
  | None => None
  | Some flag => Some (<[fName := pflag.withHidden true flag]> flags)
  end.

(** The third loop, over the mutually exclusive groups. *)
Definition enforceExclusive (mutuallyExclusiveGroupStatus : Status) (flags : FlagSet)
    : option FlagSet :=
  foldlM (fun fs entry =>
            foldlM (fun fs' (member : string * bool) =>
                      if member.2 then
                        foldlM (fun fs'' fName =>
                                  if negb (String.eqb fName member.1)
                                  then hideFlag fs'' fName else Some fs'')
                               fs' (Split entry.1)
                      else Some fs')
                   fs (map_to_list entry.2))
         flags (map_to_list mutuallyExclusiveGroupStatus).

(** [enforceFlagGroupsForCompletion] on the flag set of the command: the
    flag set it leaves, [None] when it panics. *)
Definition enforceFlagGroupsForCompletion (DisableFlagParsing : bool)
    (flags : FlagSet) : option FlagSet :=
  if DisableFlagParsing then Some flags
  else
    let '(groupStatus, oneRequiredGroupStatus, mutuallyExclusiveGroupStatus) :=
      groupTables flags in
    enforceExclusive mutuallyExclusiveGroupStatus
      (enforceOneRequired oneRequiredGroupStatus
         (enforceRequiredTogether groupStatus flags)).

(** The flag [n] is marked required. *)
Definition isRequired (f : Flag) : Prop :=
  Annotations f !! BashCompOneRequiredFlag = Some ["true"].

End Enforce.

End FlagGroupsCompletion.

(** ** Completion directives and the registry of completion hooks
       ([completions.go]) *)

Module Completions.

(** The constant block of [ShellCompDirective]: each name of the [iota]
    run gets [1 << iota]. *)
Definition iotaBlock : list string :=
  [ "ShellCompDirectiveError";
    "ShellCompDirectiveNoSpace";
    "ShellCompDirectiveNoFileComp";
    "ShellCompDirectiveFilterExt";
    "ShellCompDirectiveKeepOrder";
    "shellCompDirectiveMaxValue" ].

Definition iotaValues (names : list string) : list (string * Z) :=
  imap (fun iota name => (name, Z.shiftl 1 (Z.of_nat iota))) names.

(** Every constant the block declares, with its value. *)
Definition directiveConstants : list (string * Z) :=
  (iotaValues iotaBlock ++ [("ShellCompDirectiveDefault", 0)])%list.

(** The value of a declared constant; [None] for an undeclared name. *)
Definition directiveConstant (name : string) : option Z :=
  snd <$> List.find (fun p => String.eqb p.1 name) directiveConstants.

(** The bit flags of the block: its exported [iota] constants. *)
Definition directiveFlags : list (string * Z) :=
  List.filter (fun p => negb (String.eqb p.1 "shellCompDirectiveMaxValue"))
              (iotaValues iotaBlock).

(** The constants [ShellCompDirective.string] tests, in its order. *)
Definition directivesOfString : list string :=
  [ "ShellCompDirectiveError";
    "ShellCompDirectiveNoSpace";
    "ShellCompDirectiveNoFileComp";
    "ShellCompDirectiveFilterFileExt";
    "ShellCompDirectiveFilterDirs";
    "ShellCompDirectiveKeepOrder" ].

(** [sync.RWMutex], as the state a single thread of control sees. *)
Inductive RWMutex : Type :=
| Unlocked
| WriteLocked
| ReadLocked (readers : positive).

(** [None]: the caller blocks. *)
Definition Lock (m : RWMutex) : option RWMutex :=
  match m with Unlocked => Some WriteLocked | _ => None end.
Definition RLock (m : RWMutex) : option RWMutex :=
  match m with
  | Unlocked => Some (ReadLocked 1)
  | ReadLocked n => Some (ReadLocked (Pos.succ n))
  | WriteLocked => None
  end.
Definition Unlock (m : RWMutex) : RWMutex := Unlocked.
Definition RUnlock (m : RWMutex) : RWMutex :=
  match m with
  | ReadLocked n => if Pos.eqb n 1 then Unlocked else ReadLocked (Pos.pred n)
  | _ => m
  end.

Section Registry.

(** The type of a completion hook,
    [func(cmd *Command, args []string, toComplete string) ([]string, ShellCompDirective)]. *)
Variable CompletionFunc : Type.

(** The package-level state: [flagCompletionFunctions], keyed by the
    address of the flag, and [flagCompletionMutex]. *)
Record State : Type := mkState {
  flagCompletionFunctions : gmap positive CompletionFunc;
  flagCompletionMutex : RWMutex
}.

Inductive error : Type :=
| ErrFlagDoesNotExist (flagName : string)
| ErrAlreadyRegistered (flagName : string).

(** [fmt.Errorf] of the two errors. *)
Definition Error (e : error) : string :=
  match e with
  | ErrFlagDoesNotExist flagName =>
      "RegisterFlagCompletionFunc: flag '" ++ flagName ++ "' does not exist"
  | ErrAlreadyRegistered flagName =>
      "RegisterFlagCompletionFunc: flag '" ++ flagName ++ "' already registered"
  end.

(** Modelled from the spec: [Command.Flag(name)], a method of [command.go]
    outside the part covered here, looks the name up on the flag view of the
    command; [None] is nil. *)
Definition Command_Flag (flags : FlagSet) (name : string) : option Flag :=
  pflag.Lookup flags name.

(** [c.RegisterFlagCompletionFunc(flagName, f)] on the flag view of [c]:
    [None] when the call blocks on the mutex, else the error (or nil) and
    the state it leaves. *)
Definition RegisterFlagCompletionFunc (flags : FlagSet) (flagName : string)
    (f : CompletionFunc) (st : State) : option (option error * State) :=
  match Command_Flag flags flagName with
  | None => Some (Some (ErrFlagDoesNotExist flagName), st)
  | Some flag =>
      match Lock (flagCompletionMutex st) with
      | None => None
      | Some locked =>
          match flagCompletionFunctions st !! addr flag with
          | Some _ =>
              Some (Some (ErrAlreadyRegistered flagName),
                    mkState (flagCompletionFunctions st) (Unlock locked))
          | None =>
              Some (None,
                    mkState (<[addr flag := f]> (flagCompletionFunctions st))
                            (Unlock locked))
          end
      end
  end.

(** [c.GetFlagCompletionFunc(flagName)]: the hook (nil as [None]) and
    whether it exists. *)
Definition GetFlagCompletionFunc (flags : FlagSet) (flagName : string)
    (st : State) : option ((option CompletionFunc * bool) * State) :=
  match Command_Flag flags flagName with
  | None => Some ((None, false), st)
  | Some flag =>
      match RLock (flagCompletionMutex st) with
      | None => None
      | Some locked =>
          let completionFunc := flagCompletionFunctions st !! addr flag in
          Some ((completionFunc, bool_decide (is_Some completionFunc)),
                mkState (flagCompletionFunctions st) (RUnlock locked))
      end
  end.

End Registry.

Arguments mkState {CompletionFunc} _ _.
Arguments flagCompletionFunctions {CompletionFunc} _.
Arguments flagCompletionMutex {CompletionFunc} _.
Arguments RegisterFlagCompletionFunc {CompletionFunc} _ _ _ _.
Arguments GetFlagCompletionFunc {CompletionFunc} _ _ _.

End Completions.

(** ** The command tree and its resolvers ([command.go], [args.go]) *)

Module Commands.

(** A command with its subtree.  [ptr] stands for the address of the
    [*Command]; [runnable] for [c.Run != nil || c.RunE != nil]; [args] is nil
    as [None]; [flags] is the flag set [c.Flags()] returns; [helpCommand] is
    the address of the help command.  The parent of a command is passed along
    where the code follows [c.parent]. *)
Inductive Command : Type := mkCommand {
  ptr : positive;
  Use : string;
  Aliases : list string;
  SuggestFor : list string;
  Deprecated : string;
  Hidden : bool;
  runnable : bool;
  args : option (list string);
  flags : FlagSet;
  helpCommand : option positive;
  commands : list Command;
  DisableSuggestions : bool;
  SuggestionsMinimumDistance : Z
}.

(** [c.SuggestionsMinimumDistance = d]. *)
Definition withSuggestionsMinimumDistance (d : Z) (c : Command) : Command :=
  mkCommand (ptr c) (Use c) (Aliases c) (SuggestFor c) (Deprecated c) (Hidden c)
            (runnable c) (args c) (flags c) (helpCommand c) (commands c)
            (DisableSuggestions c) d.

(** The field [commandCalledAs.name] of every command, by address. *)
Abbreviation CalledAs := (gmap positive string).

(** [s[n:]]. *)
Fixpoint sliceFrom (n : nat) (s : string) : string :=
  match n, s with
  | O, _ => s
  | S n', String _ s' => sliceFrom n' s'
  | S _, EmptyString => EmptyString
  end.

(** [s[:n]]. *)
Fixpoint sliceTo (n : nat) (s : string) : string :=
  match n, s with
  | S n', String a s' => String a (sliceTo n' s')
  | _, _ => EmptyString
  end.

(** [c.Name()]. *)
Definition Name (c : Command) : string := untilSpace (Use c).

(** Modelled from the spec: [commandNameMatches], a function of [cobra.go]
    outside the part covered here, is the exact match of a name; [cobra.go]
    fixes [defaultCaseInsensitive = false]. *)
Definition commandNameMatches (s t : string) : bool := String.eqb s t.

(** [c.HasAlias(s)]. *)
Definition HasAlias (c : Command) (s : string) : bool :=
  existsb (fun a => commandNameMatches a s) (Aliases c).

(** The loop over the aliases in [HasNameOrAliasPrefix]. *)
Fixpoint aliasWithPrefix (aliases : list string) (prefix : string) : option string :=
  match aliases with
  | [] => None
  | alias :: rest =>
      if HasPrefix alias prefix then Some alias else aliasWithPrefix rest prefix
  end.

(** [c.HasNameOrAliasPrefix(prefix)], with the assignment it makes to
    [c.commandCalledAs.name]. *)
Definition HasNameOrAliasPrefix (c : Command) (prefix : string) (called : CalledAs)
    : bool * CalledAs :=
  if HasPrefix (Name c) prefix then (true, <[ptr c := Name c]> called)
  else match aliasWithPrefix (Aliases c) prefix with
       | Some alias => (true, <[ptr c := alias]> called)
       | None => (false, called)
       end.

(** [c.HasSubCommands()]. *)
Definition HasSubCommands (c : Command) : bool :=
  match commands c with [] => false | _ => true end.

(** [c.HasParent()], for the parent passed along. *)
Definition HasParent (parent : option Command) : bool :=
  match parent with Some _ => true | None => false end.

(** [c.IsAvailableCommand()], with [c.HasAvailableSubCommands()] in it. *)
Fixpoint IsAvailableCommand (parent : option Command) (c : Command) : bool :=
  if negb (String.eqb (Deprecated c) "") || Hidden c then false
  else if match parent with
          | Some p => bool_decide (helpCommand p = Some (ptr c))
          | None => false
          end then false
  else if runnable c || existsb (IsAvailableCommand (Some c)) (commands c) then true
  else false.

Definition HasAvailableSubCommands (c : Command) : bool :=
  existsb (IsAvailableCommand (Some c)) (commands c).

(** The Levenshtein distance of two byte strings. *)
Fixpoint levenshtein (s : string) : string -> nat :=
  match s with
  | EmptyString => fun t => String.length t
  | String a s' =>
      fix inner (t : string) : nat :=
        match t with
        | EmptyString => S (String.length s')
        | String b t' =>
            if Ascii.eqb a b then levenshtein s' t'
            else S (Nat.min (levenshtein s' t) (Nat.min (inner t') (levenshtein s' t')))
        end
  end.

(** Modelled from the spec: [ld], a function of [cobra.go] outside the part
    covered here, is the Levenshtein distance, case-insensitive when
    [ignoreCase] is set. *)
Definition ld (s t : string) (ignoreCase : bool) : Z :=
  if ignoreCase then Z.of_nat (levenshtein (ToLower s) (ToLower t))
  else Z.of_nat (levenshtein s t).

(** The body of the loop of [SuggestionsFor] for one child. *)
Definition suggestionsOfChild (c cmd : Command) (typedName : string) : list string :=
  if IsAvailableCommand (Some c) cmd then
    let levenshteinDistance := ld typedName (Name cmd) true in
    let suggestByLevenshtein := levenshteinDistance <=? SuggestionsMinimumDistance c in
    let suggestByPrefix := HasPrefix (ToLower (Name cmd)) (ToLower typedName) in
    ((if suggestByLevenshtein || suggestByPrefix then [Name cmd] else [])
     ++ flat_map (fun explicitSuggestion =>
                    if EqualFold typedName explicitSuggestion then [Name cmd] else [])
                 (SuggestFor cmd))%list
  else [].

(** [c.SuggestionsFor(typedName)]. *)
Definition SuggestionsFor (c : Command) (typedName : string) : list string :=
  flat_map (fun cmd => suggestionsOfChild c cmd typedName) (commands c).

(** [isFlagArg(arg)]. *)
Definition isFlagArg (arg : string) : bool :=
  ((3 <=? String.length arg)%nat && String.eqb (sliceTo 2 arg) "--")
  || ((2 <=? String.length arg)%nat
      && String.eqb (sliceTo 1 arg) "-"
      && negb (String.eqb (sliceTo 1 (sliceFrom 1 arg)) "-")).

(** [hasNoOptDefVal(name, fs)]. *)
Definition hasNoOptDefVal (name : string) (fs : FlagSet) : bool :=
  match pflag.Lookup fs name with
  | None => false
  | Some flag => negb (String.eqb (NoOptDefVal flag) "")
  end.

(** [shortHasNoOptDefVal(name, fs)]. *)
Definition shortNoOptDefVal (name : string) (fs : FlagSet) : bool :=
  if (String.length name =? 0)%nat then false
  else match pflag.ShorthandLookup fs (sliceTo 1 name) with
       | None => false
       | Some flag => negb (String.eqb (NoOptDefVal flag) "")
       end.

(** The two cases of a flag that takes the next argument as its value,
    shared by [stripFlag] and [argsMinusFirstX]. *)
Definition takesNextArg (s : string) (fs : FlagSet) : bool :=
  (HasPrefix s "--" && negb (Contains s "=") && negb (hasNoOptDefVal (sliceFrom 2 s) fs))
  || (HasPrefix s "-" && negb (Contains s "=") && (String.length s =? 2)%nat
      && negb (shortNoOptDefVal (sliceFrom 1 s) fs)).

(** The loop of [stripFlag] as the source has it: the statement
    [return commands] stands inside the loop, after the switch, and the
    function ends with [return args]. *)
Fixpoint stripFlagLoop (fs : FlagSet) (args : list string) (cmds : list string)
    : list string :=
  match args with
  | [] => args
  | s :: args' =>
      if String.eqb s "--" then args'
      else if takesNextArg s fs then
        match args' with
        | [] => args'
        | _ :: args'' => stripFlagLoop fs args'' cmds
        end
      else if negb (String.eqb s "") && negb (HasPrefix s "=") then (cmds ++ [s])%list
      else cmds
  end.

(** [stripFlag(args, c)]. *)
Definition stripFlag (args : list string) (c : Command) : list string :=
  match args with
  | [] => args
  | _ => stripFlagLoop (flags c) args []
  end.

(** The loop of [argsMinusFirstX]: [before] holds [args[:pos]] in reverse. *)
Fixpoint argsMinusFirstXLoop (fs : FlagSet) (all : list string) (before : list string)
    (rest : list string) (x : string) : list string :=
  match rest with
  | [] => all
  | s :: rest' =>
      if String.eqb s "--" then all
      else if takesNextArg s fs then
        match rest' with
        | [] => all
        | v :: rest'' => argsMinusFirstXLoop fs all (v :: s :: before) rest'' x
        end
      else if negb (HasPrefix s "-") && String.eqb s x then (rev before ++ rest')%list
      else argsMinusFirstXLoop fs all (s :: before) rest' x
  end.

(** [c.argsMinusFirstX(args, x)]. *)
Definition argsMinusFirstX (c : Command) (args : list string) (x : string) : list string :=
  argsMinusFirstXLoop (flags c) args [] args x.

Section Resolver.

(** The package variable [EnablePrefixMatching]. *)
Variable EnablePrefixMatching : bool.

(** The loop of [findNext] over the children, with the matches so far. *)
Fixpoint findNextLoop (cmds : list Command) (next : string) (matches : list Command)
    (called : CalledAs) : option Command * CalledAs :=
  match cmds with
  | [] =>
      match matches with
      | [m] => (Some m, called)
      | _ => (None, called)
      end
  | cmd :: rest =>
      if commandNameMatches (Name cmd) next || HasAlias cmd next
      then (Some cmd, <[ptr cmd := next]> called)
      else if EnablePrefixMatching then
        let '(isPrefix, called') := HasNameOrAliasPrefix cmd next called in
        findNextLoop rest next (if isPrefix then matches ++ [cmd] else matches)%list called'
      else findNextLoop rest next matches called
  end.

(** [c.findNext(next)]; [None] is nil. *)
Definition findNext (c : Command) (next : string) (called : CalledAs)
    : option Command * CalledAs :=
  findNextLoop (commands c) next [] called.

(** The closure [innerfind] of [Find]: the command found, its parent and
    the arguments left.  [fuel] bounds the descents; [None] when it runs out. *)
Fixpoint innerfind (fuel : nat) (parent : option Command) (c : Command)
    (innerArgs : list string) (called : CalledAs)
    : option (Command * option Command * list string * CalledAs) :=
  match fuel with
  | O => None
  | S fuel' =>
      match stripFlag innerArgs c with
      | [] => Some (c, parent, innerArgs, called)
      | nextSubCmd :: _ =>
          match findNext c nextSubCmd called with
          | (Some cmd, called') =>
              innerfind fuel' (Some c) cmd (argsMinusFirstX c innerArgs nextSubCmd) called'
          | (None, called') => Some (c, parent, innerArgs, called')
          end
      end
  end.

(** The height of the subtree of a command. *)
Fixpoint height (c : Command) : nat :=
  S (list_max (map height (commands c))).

Inductive error : Type :=
| ErrUnknownCommand (arg : string) (cmd : Command) (suggestions : string).

(** The [%#v] verb of [fmt] on a string. *)
Variable goSyntax : string -> string.

(** The suggestions [findSuggestion] computes, after it has set a minimum
    distance that is not positive to 2, and the command it leaves. *)
Definition findSuggestionList (c : Command) (arg : string) : list string * Command :=
  if DisableSuggestions c then ([], c)
  else
    let c' := if SuggestionsMinimumDistance c <=? 0
              then withSuggestionsMinimumDistance 2 c else c in
    (SuggestionsFor c' arg, c').

(** [c.findSuggestion(arg)]. *)
Definition findSuggestion (c : Command) (arg : string) : string * Command :=
  if DisableSuggestions c then (EmptyString, c)
  else
    let '(suggestions, c') := findSuggestionList c arg in
    (match suggestions with
     | [] => EmptyString
     | _ =>
         String "010" (String "010" " Did you mean this?")
           ++ String "010" EmptyString
           ++ String.concat EmptyString
                (map (fun s => String "009" (goSyntax s) ++ String "010" EmptyString)
                     suggestions)
     end, c').

(** [legacyArgs(cmd, args)], for the parent of [cmd] passed along. *)
Definition legacyArgs (parent : option Command) (cmd : Command) (args : list string)
    : option error * Command :=
  if negb (HasSubCommands cmd) then (None, cmd)
  else match args with
       | arg0 :: _ =>
           if negb (HasParent parent) then
             let '(suggestions, cmd') := findSuggestion cmd arg0 in
             (Some (ErrUnknownCommand arg0 cmd' suggestions), cmd')
           else (None, cmd)
       | [] => (None, cmd)
       end.

(** [c.Find(args)], for the parent of [c] passed along. *)
Definition Find (parent : option Command) (c : Command) (args : list string)
    (called : CalledAs) : option (Command * list string * option error * CalledAs) :=
  match innerfind (height c) parent c args called with
  | None => None
  | Some (commandFound, parentFound, a, called') =>
      match Commands.args commandFound with
      | None =>
          let '(err, commandFound') :=
            legacyArgs parentFound commandFound (stripFlag a commandFound) in
          Some (commandFound', a, err, called')
      | Some _ => Some (commandFound, a, None, called')
      end
  end.

(** The error type of the flag parser and [c.ParseFlags(flags)], a method
    of [command.go] outside the part covered here: the error it returns, nil
    as [None]. *)
Variable ParseError : Type.
Variable ParseFlags : Command -> list string -> option ParseError.

(** What the switch of [Traverse] does with an argument that it buffers:
    the value of [inFlag] after it; [None] for an argument that reaches the
    lookup of a child. *)
Definition buffered (c : Command) (inFlag : bool) (arg : string) : option bool :=
  if HasPrefix arg "--" && negb (Contains arg "=")
  then Some (negb (hasNoOptDefVal (sliceFrom 2 arg) (flags c)))
  else if HasPrefix arg "-" && negb (Contains arg "=") && (String.length arg =? 2)%nat
          && negb (shortNoOptDefVal (sliceFrom 1 arg) (flags c))
  then Some true
  else if inFlag then Some true
  else if isFlagArg arg then Some inFlag
  else None.

(** The loop of [Traverse] over [rest], the arguments of the call being
    [args]; the recursive call on the child starts the loop again on the
    arguments after the one that named it. *)
Fixpoint TraverseLoop (c : Command) (args : list string) (flagsSeen : list string)
    (inFlag : bool) (rest : list string) (called : CalledAs)
    : option Command * list string * option ParseError * CalledAs :=
  match rest with
  | [] => (Some c, args, None, called)
  | arg :: rest' =>
      match buffered c inFlag arg with
      | Some inFlag' => TraverseLoop c args (flagsSeen ++ [arg])%list inFlag' rest' called
      | None =>
          match findNext c arg called with
          | (None, called') => (Some c, args, None, called')
          | (Some cmd, called') =>
              match ParseFlags c flagsSeen with
              | Some err => (None, args, Some err, called')
              | None => TraverseLoop cmd rest' [] false rest' called'
              end
          end
      end
  end.

(** [c.Traverse(args)]. *)
Definition Traverse (c : Command) (args : list string) (called : CalledAs)
    : option Command * list string * option ParseError * CalledAs :=
  TraverseLoop c args [] false args called.

End Resolver.

End Commands.

(** ** Properties of the status tables *)

Module FlagGroupsFacts.
Import FlagGroups.

(** The visit builds each table on its own. *)
Lemma groupTables_spec flags :
  groupTables flags
  = (statusTable requiredAsGroupAnnotation flags,
     statusTable oneRequiredAnnotation flags,
     statusTable mutuallyExclusiveAnnotation flags).
Proof.
  unfold groupTables, statusTable, pflag.VisitAll.
  generalize (∅ : Status) at 1 4. generalize (∅ : Status) at 1 3.
  generalize (∅ : Status).
  induction (pflag.sortedFormal flags) as [|p l IH]; intros t3 t2 t1; cbn [foldl]; [done|].
  apply IH.
Qed.

Lemma ValidateFlagGroups_unfold d flags :
  ValidateFlagGroups d flags =
    if d then None
    else match validateRequireFlagGroups (statusTable requiredAsGroupAnnotation flags) with
         | Some err => Some err
         | None =>
             match validateOneRequiredFlagGroups
                     (statusTable oneRequiredAnnotation flags) with
             | Some err => Some err
             | None =>
                 validateExclusiveFlagGroups
                   (statusTable mutuallyExclusiveAnnotation flags)
             end
         end.
Proof. unfold ValidateFlagGroups. by rewrite groupTables_spec. Qed.

(** What one assignment [groupStatus[g][name] = changed], with the creation
    of the entry before it, does to the entry of [g]. *)
Definition touch (flags : FlagSet) (g name : string) (changed : bool)
    (o : option (gmap string bool)) : option (gmap string bool) :=
  match o with
  | None =>
      if hasAllFlags flags (Split g)
      then Some (<[name := changed]> (freshGroup (Split g)))
      else None
  | Some m => Some (<[name := changed]> m)
  end.

Lemma touch_idem flags g name changed o :
  touch flags g name changed (touch flags g name changed o)
  = touch flags g name changed o.
Proof.
  destruct o as [m|]; simpl.
  - by rewrite insert_insert_eq.
  - destruct (hasAllFlags flags (Split g)) eqn:E; simpl; rewrite ?E; [|done].
    by rewrite insert_insert_eq.
Qed.

Lemma processGroup_lookup flags name pf gs group g :
  processGroup flags name pf gs group !! g =
    if decide (g = group) then touch flags g name (Changed pf) (gs !! g)
    else gs !! g.
Proof.
  unfold processGroup, touch.
  destruct (decide (g = group)) as [->|Hne].
  - destruct (gs !! group) eqn:E.
    + by rewrite lookup_insert_eq.
    + destruct (hasAllFlags flags (Split group)); simpl; [|done].
      by rewrite lookup_insert_eq.
  - destruct (gs !! group) eqn:E.
    + by rewrite lookup_insert_ne by congruence.
    + destruct (hasAllFlags flags (Split group)); simpl; [|done].
      by rewrite lookup_insert_ne by congruence.
Qed.

Lemma foldl_processGroup_lookup flags name pf groupInfo gs g :
  foldl (processGroup flags name pf) gs groupInfo !! g =
    if decide (g ∈ groupInfo) then touch flags g name (Changed pf) (gs !! g)
    else gs !! g.
Proof.
  revert gs. induction groupInfo as [|group rest IH]; intros gs; cbn [foldl].
  - rewrite decide_False; [done|]. apply not_elem_of_nil.
  - rewrite IH, processGroup_lookup.
    destruct (decide (g = group)) as [->|Hne].
    + rewrite (decide_True (P := group ∈ group :: rest)) by apply list_elem_of_here.
      destruct (decide (group ∈ rest)); [apply touch_idem|done].
    + destruct (decide (g ∈ rest)) as [Hin|Hnin].
      * rewrite decide_True; [done|]. by apply list_elem_of_further.
      * rewrite decide_False; [done|].
        intros [?|?]%elem_of_cons; done.
Qed.

Lemma processFlagGroupAnnotation_lookup flags name pf annotation gs g :
  processFlagGroupAnnotation flags name pf annotation gs !! g =
    if decide (g ∈ annotationOf annotation pf)
    then touch flags g name (Changed pf) (gs !! g)
    else gs !! g.
Proof.
  unfold processFlagGroupAnnotation, annotationOf.
  destruct (Annotations pf !! annotation) as [groupInfo|].
  - apply foldl_processGroup_lookup.
  - rewrite decide_False; [done|]. apply not_elem_of_nil.
Qed.

(** The entry of [g] while the flags of [l] are visited. *)
Definition stepAt (annotation : string) (flags : FlagSet) (g : string)
    (o : option (gmap string bool)) (p : string * Flag) : option (gmap string bool) :=
  if decide (g ∈ annotationOf annotation p.2)
  then touch flags g p.1 (Changed p.2) o else o.

Lemma visit_lookup annotation flags g (l : list (string * Flag)) gs :
  foldl (fun acc p => processFlagGroupAnnotation flags p.1 p.2 annotation acc) gs l !! g
  = foldl (stepAt annotation flags g) (gs !! g) l.
Proof.
  revert gs. induction l as [|p l IH]; intros gs; cbn [foldl]; [done|].
  rewrite IH, processFlagGroupAnnotation_lookup. done.
Qed.

(** The assignments alone, once the entry exists. *)
Definition assign (annotation g : string) (m : gmap string bool)
    (p : string * Flag) : gmap string bool :=
  if decide (g ∈ annotationOf annotation p.2) then <[p.1 := Changed p.2]> m else m.

Lemma foldl_stepAt_Some annotation flags g l m :
  foldl (stepAt annotation flags g) (Some m) l
  = Some (foldl (assign annotation g) m l).
Proof.
  revert m. induction l as [|p l IH]; intros m; cbn [foldl]; [done|].
  unfold stepAt at 2, assign at 2.
  destruct (decide (g ∈ annotationOf annotation p.2)); simpl; apply IH.
Qed.

Lemma foldl_stepAt_absent annotation flags g l :
  hasAllFlags flags (Split g) = false ->
  foldl (stepAt annotation flags g) None l = None.
Proof.
  intros Hno. induction l as [|p l IH]; cbn [foldl]; [done|].
  unfold stepAt at 2, touch. rewrite Hno.
  by destruct (decide (g ∈ annotationOf annotation p.2)).
Qed.

Lemma foldl_stepAt_None annotation flags g l :
  hasAllFlags flags (Split g) = true ->
  foldl (stepAt annotation flags g) None l
  = if decide (Exists (fun p => g ∈ annotationOf annotation p.2) l)
    then Some (foldl (assign annotation g) (freshGroup (Split g)) l)
    else None.
Proof.
  intros Hall. induction l as [|p l IH]; cbn [foldl].
  - rewrite decide_False; [done|]. by intros ?%Exists_nil.
  - unfold stepAt at 2, assign at 2, touch. rewrite Hall.
    destruct (decide (g ∈ annotationOf annotation p.2)) as [Hin|Hnin].
    + rewrite foldl_stepAt_Some.
      rewrite decide_True; [done|]. by apply Exists_cons_hd.
    + rewrite IH.
      destruct (decide (Exists _ l)) as [He|Hne].
      * rewrite decide_True; [done|]. by apply Exists_cons_tl.
      * rewrite decide_False; [done|].
        intros [?|?]%Exists_cons; done.
Qed.

Lemma freshGroup_lookup flagnames n :
  freshGroup flagnames !! n = if decide (n ∈ flagnames) then Some false else None.
Proof.
  unfold freshGroup.
  assert (forall m : gmap string bool,
            foldl (fun m name => <[name := false]> m) m flagnames !! n
            = if decide (n ∈ flagnames) then Some false else m !! n) as H.
  { induction flagnames as [|a l IH]; intros m; cbn [foldl].
    - rewrite decide_False; [done|]. apply not_elem_of_nil.
    - rewrite IH. destruct (decide (n ∈ l)) as [Hin|Hnin].
      + rewrite decide_True; [done|]. by apply list_elem_of_further.
      + destruct (decide (n = a)) as [->|Hne].
        * rewrite decide_True by apply list_elem_of_here. by rewrite lookup_insert_eq.
        * rewrite decide_False by (intros [?|?]%elem_of_cons; done).
          by rewrite lookup_insert_ne. }
  rewrite H. by destruct (decide (n ∈ flagnames)).
Qed.

Lemma foldl_assign_other annotation g l m n :
  (forall f, (n, f) ∈ l -> g ∉ annotationOf annotation f) ->
  foldl (assign annotation g) m l !! n = m !! n.
Proof.
  revert m. induction l as [|[n' f'] l IH]; intros m Hno; cbn [foldl]; [done|].
  rewrite IH.
  - unfold assign; simpl. destruct (decide (g ∈ annotationOf annotation f')) as [Hin|]; [|done].
    rewrite lookup_insert_ne; [done|]. intros ->. eapply Hno; [apply list_elem_of_here|done].
  - intros f Hf. apply Hno. by apply list_elem_of_further.
Qed.

Lemma foldl_assign_carrier annotation g l m n f :
  NoDup l.*1 -> (n, f) ∈ l -> g ∈ annotationOf annotation f ->
  foldl (assign annotation g) m l !! n = Some (Changed f).
Proof.
  revert m. induction l as [|[n' f'] l IH]; intros m Hnd Hin Hg; cbn [foldl].
  - by apply elem_of_nil in Hin.
  - simpl in Hnd. apply NoDup_cons in Hnd as [Hn' Hnd].
    apply elem_of_cons in Hin as [Heq|Hin].
    + inversion Heq; subst n' f'. rewrite foldl_assign_other.
      * unfold assign; simpl. rewrite decide_True by done. by rewrite lookup_insert_eq.
      * intros f0 Hf0. exfalso. apply Hn'.
        apply list_elem_of_fmap. exists (n, f0). done.
    + by apply IH.
Qed.

(** The flags of [flags] that carry the signature [g] under [annotation]. *)
Definition carriers (annotation : string) (flags : FlagSet) (g : string) : FlagSet :=
  filter (fun p => g ∈ annotationOf annotation p.2) flags.

(** The entry a materialised group ends with: the names of the signature,
    not changed, overridden by the changed marker of every carrier. *)
Definition entryMap (annotation : string) (flags : FlagSet) (g : string)
    : gmap string bool :=
  (Changed <$> carriers annotation flags g) ∪ freshGroup (Split g).

Lemma entryMap_lookup annotation flags g n :
  entryMap annotation flags g !! n =
    match flags !! n with
    | Some f =>
        if decide (g ∈ annotationOf annotation f) then Some (Changed f)
        else if decide (n ∈ Split g) then Some false else None
    | None => if decide (n ∈ Split g) then Some false else None
    end.
Proof.
  unfold entryMap, carriers.
  rewrite lookup_union, lookup_fmap, map_lookup_filter, freshGroup_lookup.
  destruct (flags !! n) as [f|] eqn:E; simpl.
  - destruct (decide (g ∈ annotationOf annotation f)) as [Hin|Hnin].
    + rewrite option_guard_True by done. simpl.
      by destruct (decide (n ∈ Split g)).
    + rewrite option_guard_False by done. simpl.
      by destruct (decide (n ∈ Split g)).
  - by destruct (decide (n ∈ Split g)).
Qed.

Lemma sortedFormal_elem_of flags n f :
  (n, f) ∈ pflag.sortedFormal flags <-> flags !! n = Some f.
Proof.
  unfold pflag.sortedFormal. rewrite merge_sort_Permutation.
  apply elem_of_map_to_list.
Qed.

Lemma sortedFormal_NoDup flags : NoDup (pflag.sortedFormal flags).*1.
Proof.
  unfold pflag.sortedFormal. rewrite merge_sort_Permutation.
  apply NoDup_fst_map_to_list.
Qed.

Lemma carriers_nonempty annotation flags g :
  carriers annotation flags g <> ∅ <->
  Exists (fun p => g ∈ annotationOf annotation p.2) (pflag.sortedFormal flags).
Proof.
  rewrite Exists_exists. split.
  - intros (n & f & Hf)%map_choose.
    apply map_lookup_filter_Some in Hf as [Hf Hg].
    exists (n, f). split; [by apply sortedFormal_elem_of | done].
  - intros ([n f] & Hin & Hg) He.
    apply sortedFormal_elem_of in Hin.
    assert (carriers annotation flags g !! n = Some f) as Hc
      by (apply map_lookup_filter_Some; done).
    rewrite He, lookup_empty in Hc. done.
Qed.

(** The status table, entry by entry: a group is materialised exactly when
    every name of its signature is in the flag set and some flag carries it. *)
Lemma statusTable_lookup annotation flags g :
  statusTable annotation flags !! g =
    if hasAllFlags flags (Split g)
       && bool_decide (carriers annotation flags g <> ∅)
    then Some (entryMap annotation flags g)
    else None.
Proof.
  unfold statusTable, pflag.VisitAll.
  rewrite visit_lookup, lookup_empty.
  destruct (hasAllFlags flags (Split g)) eqn:Hall; simpl.
  - rewrite foldl_stepAt_None by done.
    destruct (decide (Exists _ _)) as [He|Hne].
    + rewrite bool_decide_eq_true_2 by (by apply carriers_nonempty).
      f_equal. apply map_eq. intros n. rewrite entryMap_lookup.
      destruct (flags !! n) as [f|] eqn:E.
      * destruct (decide (g ∈ annotationOf annotation f)) as [Hin|Hnin].
        -- eapply foldl_assign_carrier; eauto using sortedFormal_NoDup.
           by apply sortedFormal_elem_of.
        -- rewrite foldl_assign_other, freshGroup_lookup; [done|].
           intros f' Hf'%sortedFormal_elem_of. congruence.
      * rewrite foldl_assign_other, freshGroup_lookup; [done|].
        intros f' Hf'%sortedFormal_elem_of. congruence.
    + rewrite bool_decide_eq_false_2; [done|]. by rewrite carriers_nonempty.
  - by apply foldl_stepAt_absent.
Qed.

(** *** The validators *)

Lemma length_filter_all {A} (P : A -> Prop) `{forall x, Decision (P x)} (l : list A) :
  length (filter P l) = length l <-> Forall P l.
Proof.
  induction l as [|x l IH].
  - split; [constructor|done].
  - destruct (decide (P x)) as [Hx|Hx].
    + rewrite filter_cons_True by done. cbn [length].
      rewrite Forall_cons. split.
      * intros Hl. split; [done|]. apply IH. lia.
      * intros [_ Hl]. f_equal. by apply IH.
    + rewrite filter_cons_False by done. cbn [length]. split.
      * intros Hl. pose proof (length_filter P l). lia.
      * intros [? _]%Forall_cons. done.
Qed.

Lemma namesWith_elem_of b (S : gmap string bool) n :
  n ∈ namesWith b S <-> S !! n = Some b.
Proof.
  unfold namesWith. rewrite list_elem_of_fmap. split.
  - intros ([n' v] & -> & [Hv Hin]%list_elem_of_filter). simpl in *.
    apply elem_of_map_to_list in Hin. congruence.
  - intros Hn. exists (n, b). split; [done|].
    apply list_elem_of_filter. split; [done|]. by apply elem_of_map_to_list.
Qed.


Lemma namesWith_length_all b (S : gmap string bool) :
  length (namesWith b S) = size S <-> (forall n, S !! n <> Some (negb b)).
Proof.
  unfold namesWith. rewrite length_fmap, <- length_map_to_list, length_filter_all.
  rewrite Forall_forall. split.
  - intros Hall n Hn. apply elem_of_map_to_list in Hn.
    apply Hall in Hn. simpl in Hn. by destruct b.
  - intros Hno [n v] Hin. apply elem_of_map_to_list in Hin. simpl.
    destruct (decide (v = b)) as [|Hne]; [done|].
    exfalso. apply (Hno n). rewrite Hin. f_equal. by destruct v, b.
Qed.

Lemma namesWith_length_0 b (S : gmap string bool) :
  length (namesWith b S) = 0%nat <-> (forall n, S !! n <> Some b).
Proof.
  split.
  - intros Hl n Hn. apply namesWith_elem_of in Hn.
    destruct (namesWith b S); [by apply elem_of_nil in Hn | done].
  - intros Hno. destruct (namesWith b S) as [|n l] eqn:E; [done|].
    exfalso. apply (Hno n). apply namesWith_elem_of. rewrite E. apply list_elem_of_here.
Qed.

(** A group entry with a changed and an unchanged member. *)
Definition mixed (S : gmap string bool) : Prop :=
  (exists n, S !! n = Some true) /\ (exists n, S !! n = Some false).

Lemma not_all_none (S : gmap string bool) b :
  ~ (forall n, S !! n <> Some b) -> exists n, S !! n = Some b.
Proof.
  intros Hn. destruct (namesWith b S) as [|n l] eqn:E.
  - exfalso. apply Hn. apply namesWith_length_0. by rewrite E.
  - exists n. apply namesWith_elem_of. rewrite E. apply list_elem_of_here.
Qed.

Lemma checkRequire_cond (S : gmap string bool) :
  (length (namesWith false S) =? size S)%nat
    || (length (namesWith false S) =? 0)%nat = false <-> mixed S.
Proof.
  unfold mixed. rewrite orb_false_iff, !Nat.eqb_neq.
  rewrite namesWith_length_all, namesWith_length_0. simpl. split.
  - intros [H1 H2]. split; by apply not_all_none.
  - intros [[n1 H1] [n2 H2]]. split; intros Hno; [by apply (Hno n1)|by apply (Hno n2)].
Qed.

Lemma checkRequire_None g S : checkRequire g S = None <-> ~ mixed S.
Proof.
  rewrite <- checkRequire_cond. unfold checkRequire.
  destruct (_ || _); naive_solver.
Qed.

Lemma checkRequire_Some g S e :
  checkRequire g S = Some e <->
  mixed S /\ e = ErrRequiredTogether g (sortStrings (namesWith false S)).
Proof.
  rewrite <- checkRequire_cond. unfold checkRequire.
  destruct (_ || _); naive_solver.
Qed.


Lemma checkOneRequired_Some g S e :
  checkOneRequired g S = Some e -> e = ErrOneRequired g.
Proof. unfold checkOneRequired. destruct (_ <=? _)%nat; [done|]. congruence. Qed.

Lemma checkExclusive_Some g S e :
  checkExclusive g S = Some e -> e = ErrMutuallyExclusive g (sortStrings (namesWith true S)).
Proof. unfold checkExclusive. destruct (_ || _); [done|]. congruence. Qed.

(** Whether a group passes a check does not depend on its signature. *)
Lemma check_None_signature g g' S :
  (checkRequire g S = None <-> checkRequire g' S = None)
  /\ (checkOneRequired g S = None <-> checkOneRequired g' S = None)
  /\ (checkExclusive g S = None <-> checkExclusive g' S = None).
Proof.
  unfold checkRequire, checkOneRequired, checkExclusive.
  repeat split; repeat (destruct (_ || _) || destruct (_ <=? _)%nat); done.
Qed.

Lemma validateLoop_None check data keys :
  validateLoop check data keys = None <->
  (forall k, k ∈ keys -> check k (default ∅ (data !! k)) = None).
Proof.
  induction keys as [|k keys IH]; cbn [validateLoop].
  - split; [|done]. intros _ k Hk. by apply elem_of_nil in Hk.
  - destruct (check k (default ∅ (data !! k))) eqn:E.
    + split; [done|]. intros H. specialize (H k (list_elem_of_here _ _)). congruence.
    + rewrite IH. split.
      * intros H k' [->|Hk']%elem_of_cons; auto.
      * intros H k' Hk'. apply H. by apply list_elem_of_further.
Qed.

Lemma validateLoop_Some check data keys e :
  validateLoop check data keys = Some e ->
  exists k, k ∈ keys /\ check k (default ∅ (data !! k)) = Some e.
Proof.
  induction keys as [|k keys IH]; cbn [validateLoop]; [done|].
  destruct (check k (default ∅ (data !! k))) eqn:E.
  - intros [= ->]. exists k. split; [apply list_elem_of_here|done].
  - intros (k' & Hk' & He)%IH. exists k'. split; [by apply list_elem_of_further|done].
Qed.


Lemma sortedKeys_elem_of (data : Status) k :
  k ∈ sortedKeys data <-> is_Some (data !! k).
Proof.
  unfold sortedKeys, sortStrings. rewrite merge_sort_Permutation.
  rewrite list_elem_of_fmap. split.
  - intros ([k' S] & -> & Hin). apply elem_of_map_to_list in Hin. by exists S.
  - intros [S HS]. exists (k, S). split; [done|]. by apply elem_of_map_to_list.
Qed.

Lemma hasAllFlags_spec flags flagnames :
  hasAllFlags flags flagnames = true <->
  (forall n, n ∈ flagnames -> is_Some (flags !! n)).
Proof.
  induction flagnames as [|a l IH]; cbn [hasAllFlags]; unfold pflag.Lookup.
  - split; [|done]. intros _ n Hn. by apply elem_of_nil in Hn.
  - destruct (flags !! a) eqn:E.
    + rewrite IH. split.
      * intros H n [->|Hn]%elem_of_cons; [by eexists|auto].
      * intros H n Hn. apply H. by apply list_elem_of_further.
    + split; [done|]. intros H.
      destruct (H a (list_elem_of_here _ _)) as [? ?]. congruence.
Qed.

Lemma Split_nonempty s : Split s <> [].
Proof.
  destruct s as [|a s]; cbn [Split]; [done|].
  destruct (Ascii.eqb a " "); [done|]. by destruct (Split s).
Qed.

(** *** Groups declared through the marking functions *)

(** The signature [g] is carried by exactly the flags it names: what
    [MarkFlagsRequiredTogether] and its siblings establish. *)
Definition declared (annotation : string) (flags : FlagSet) (g : string) : Prop :=
  map_Forall (fun n f => g ∈ annotationOf annotation f <-> n ∈ Split g) flags.





(** [n] is a member of the group [g] whose changed marker is [b]. *)
Definition member (flags : FlagSet) (g n : string) (b : bool) : Prop :=
  n ∈ Split g /\ Changed <$> flags !! n = Some b.






Lemma sortStrings_NoDup l : NoDup l -> NoDup (sortStrings l).
Proof. unfold sortStrings. by rewrite merge_sort_Permutation. Qed.



(** The flags [a], [b], [c] with the given changed markers, declared
    required together. *)
Definition plainFlag (a : positive) (changed : bool) : Flag :=
  mkFlag a "" changed "" false ∅.

Definition abcFlags (a b c : bool) : FlagSet :=
  <["a" := plainFlag 1 a]> (<["b" := plainFlag 2 b]> (<["c" := plainFlag 3 c]> ∅)).

Definition abcTogether (a b c : bool) : FlagSet :=
  default ∅ (MarkFlagsRequiredTogether ["a"; "b"; "c"] (abcFlags a b c)).


(** With none or all of [a], [b], [c] set the validation succeeds. *)
Example required_together_none_or_all :
  ValidateFlagGroups false (abcTogether false false false) = None
  /\ ValidateFlagGroups false (abcTogether true true true) = None.
Proof. split; vm_compute; reflexivity. Qed.

(** The group an error is about. *)
Definition errorGroup (e : error) : string :=
  match e with
  | ErrRequiredTogether flagList _ => flagList
  | ErrOneRequired flagList => flagList
  | ErrMutuallyExclusive flagList _ => flagList
  end.

(** An error of a validation pass is about a group of its status table. *)
Lemma validateLoop_error_group check data e :
  (forall k S e', check k S = Some e' -> errorGroup e' = k) ->
  validateLoop check data (sortedKeys data) = Some e ->
  is_Some (data !! errorGroup e).
Proof.
  intros Hcheck (k & Hk & Hc)%validateLoop_Some.
  apply Hcheck in Hc as ->. by apply sortedKeys_elem_of.
Qed.

Lemma ValidateFlagGroups_error_group d flags e :
  ValidateFlagGroups d flags = Some e ->
  is_Some (statusTable requiredAsGroupAnnotation flags !! errorGroup e)
  \/ is_Some (statusTable oneRequiredAnnotation flags !! errorGroup e)
  \/ is_Some (statusTable mutuallyExclusiveAnnotation flags !! errorGroup e).
Proof.
  rewrite ValidateFlagGroups_unfold. destruct d; [done|].
  destruct (validateRequireFlagGroups _) as [e1|] eqn:E1.
  { intros [= ->]. left. eapply validateLoop_error_group; [|exact E1].
    intros k S e' [_ ->]%checkRequire_Some. done. }
  destruct (validateOneRequiredFlagGroups _) as [e2|] eqn:E2.
  { intros [= ->]. right; left. eapply validateLoop_error_group; [|exact E2].
    intros k S e' ->%checkOneRequired_Some. done. }
  intros E3. right; right. eapply validateLoop_error_group; [|exact E3].
  intros k S e' ->%checkExclusive_Some. done.
Qed.

(** C6.  A group signature that names a flag absent from the resolved flag
    view has no entry in the status table of any of the three passes, and
    no error of [ValidateFlagGroups] is about it. *)
Theorem absent_flag_group_skipped (flags : FlagSet) (g : string) :
  hasAllFlags flags (Split g) = false ->
  statusTable requiredAsGroupAnnotation flags !! g = None
  /\ statusTable oneRequiredAnnotation flags !! g = None
  /\ statusTable mutuallyExclusiveAnnotation flags !! g = None
  /\ (forall d e, ValidateFlagGroups d flags = Some e -> errorGroup e <> g).
Proof.
  intros Hno.
  assert (forall annotation, statusTable annotation flags !! g = None) as Hnone
    by (intros annotation; by rewrite statusTable_lookup, Hno).
  repeat split; try apply Hnone.
  intros d e He <-.
  apply ValidateFlagGroups_error_group in He.
  rewrite !Hnone in He. destruct He as [[? ?]|[[? ?]|[? ?]]]; done.
Qed.

(** The flags [a] (changed) and [b] carrying, under each of the three
    annotations, a signature that also names the absent flag [z]. *)
Definition danglingFlag (a : positive) (changed : bool) : Flag :=
  let groups := "a b z" :: nil in
  mkFlag a "" changed "" false
    (<[requiredAsGroupAnnotation := groups]>
       (<[oneRequiredAnnotation := groups]>
          (<[mutuallyExclusiveAnnotation := groups]> ∅))).

Definition danglingFlags : FlagSet :=
  <["a" := danglingFlag 1 true]> (<["b" := danglingFlag 2 false]> ∅).

Lemma absent_flag_group_skipped_witness :
  hasAllFlags danglingFlags (Split "a b z") = false
  /\ statusTable requiredAsGroupAnnotation danglingFlags !! "a b z" = None
  /\ ValidateFlagGroups false danglingFlags = None.
Proof.
  assert (hasAllFlags danglingFlags (Split "a b z") = false) as Hno
    by (vm_compute; reflexivity).
  destruct (absent_flag_group_skipped danglingFlags "a b z" Hno) as (H1 & _).
  assert (ValidateFlagGroups false danglingFlags = None) as Hv
    by (vm_compute; reflexivity).
  exact (conj Hno (conj H1 Hv)).
Defined.

(** *** Declaring a group *)

Lemma markLoop_spec annotation flagNames vs fs fs' :
  markLoop annotation flagNames vs fs = Some fs' ->
  (forall n, n ∈ vs -> is_Some (fs !! n))
  /\ (forall n, Changed <$> fs' !! n = Changed <$> fs !! n)
  /\ (forall n f f', fs !! n = Some f -> fs' !! n = Some f' ->
        forall annotation' g,
          g ∈ annotationOf annotation' f' <->
          g ∈ annotationOf annotation' f
          \/ (annotation' = annotation /\ g = Join flagNames /\ n ∈ vs)).
Proof.
  revert fs. induction vs as [|v vs IH]; intros fs; cbn [markLoop].
  - intros [= <-]. split; [intros n Hn; by apply elem_of_nil in Hn|].
    split; [done|]. intros n f f' Hf Hf' annotation' g.
    assert (f' = f) as -> by congruence.
    split; [by left|]. intros [?|(_ & _ & Hn)]; [done|]. by apply elem_of_nil in Hn.
  - unfold pflag.Lookup, pflag.SetAnnotation.
    destruct (fs !! v) as [fv|] eqn:Ev; [|done].
    intros Hrec. apply IH in Hrec as (Hdom & Hch & Hann).
    split; [|split].
    + intros n [->|Hn]%elem_of_cons; [by eexists|].
      destruct (Hdom n Hn) as [f Hf].
      destruct (decide (v = n)) as [->|Hne]; [by eexists|].
      rewrite lookup_insert_ne in Hf by done. by eexists.
    + intros n. rewrite Hch.
      destruct (decide (v = n)) as [->|Hne].
      * rewrite lookup_insert_eq, Ev. done.
      * by rewrite lookup_insert_ne.
    + intros n f f' Hf Hf' annotation' g.
      destruct (decide (v = n)) as [->|Hne].
      * rewrite (Hann n _ f' (lookup_insert_eq _ _ _) Hf').
        assert (fv = f) as -> by congruence.
        unfold annotationOf at 1, pflag.withAnnotation. cbn [Annotations].
        destruct (decide (annotation' = annotation)) as [->|Hna].
        -- rewrite lookup_insert_eq. cbn [default from_option id].
           rewrite elem_of_app, list_elem_of_singleton.
           unfold annotationOf. rewrite elem_of_cons. naive_solver.
        -- rewrite lookup_insert_ne by done.
           unfold annotationOf. rewrite elem_of_cons. naive_solver.
      * rewrite (Hann n f f'); [|by rewrite lookup_insert_ne|done].
        rewrite elem_of_cons. naive_solver.
Qed.

Lemma Split_app_space x s : Split (x ++ " " ++ s) = (Split x ++ Split s)%list.
Proof.
  induction x as [|a x IH]; [done|].
  change (String a x ++ " " ++ s)%string with (String a (x ++ " " ++ s)).
  cbn [Split]. rewrite IH.
  destruct (Ascii.eqb a " "); [done|].
  pose proof (Split_nonempty x). by destruct (Split x).
Qed.

Lemma Split_Join_elem_of ms n :
  ms <> [] -> n ∈ Split (Join ms) <-> exists m, m ∈ ms /\ n ∈ Split m.
Proof.
  induction ms as [|x ms IH]; [done|]. intros _.
  destruct ms as [|y ms].
  - cbn [Join]. split; [intros Hn; exists x; split; [apply list_elem_of_here|done]|].
    intros (m & ->%list_elem_of_singleton & Hn). done.
  - change (Join (x :: y :: ms)) with (x ++ " " ++ Join (y :: ms))%string.
    rewrite Split_app_space, elem_of_app, IH by done. split.
    + intros [Hn|(m & Hm & Hn)].
      * exists x. split; [apply list_elem_of_here|done].
      * exists m. split; [by apply list_elem_of_further|done].
    + intros (m & [->|Hm]%elem_of_cons & Hn); [by left|right; by exists m].
Qed.

Lemma Split_Join_Permutation ms1 ms2 n :
  ms1 ≡ₚ ms2 -> n ∈ Split (Join ms1) <-> n ∈ Split (Join ms2).
Proof.
  intros Hp. destruct ms1 as [|x ms1].
  - apply Permutation_nil_l in Hp. by subst.
  - destruct ms2 as [|y ms2]; [by apply Permutation_nil_r in Hp|].
    rewrite !Split_Join_elem_of by done. by setoid_rewrite Hp.
Qed.

(** The entry of a group just declared over [ms], when no flag carried the
    signature before. *)
Lemma marked_entry annotation ms fs fs' n :
  markLoop annotation ms ms fs = Some fs' ->
  carriers annotation fs (Join ms) = ∅ ->
  entryMap annotation fs' (Join ms) !! n =
    match fs !! n with
    | Some f =>
        if decide (n ∈ ms) then Some (Changed f)
        else if decide (n ∈ Split (Join ms)) then Some false else None
    | None => if decide (n ∈ Split (Join ms)) then Some false else None
    end.
Proof.
  intros (Hdom & Hch & Hann)%markLoop_spec Hfresh.
  rewrite entryMap_lookup. specialize (Hch n).
  destruct (fs !! n) as [f|] eqn:E; destruct (fs' !! n) as [f'|] eqn:E'; try done.
  simpl in Hch. injection Hch as Hch. rewrite Hch.
  assert (g_fresh : Join ms ∉ annotationOf annotation f).
  { intros Hin. assert (carriers annotation fs (Join ms) !! n = Some f) as Hc
      by (by apply map_lookup_filter_Some).
    by rewrite Hfresh in Hc. }
  pose proof (Hann n f f' E E' annotation (Join ms)) as Hiff.
  destruct (decide (n ∈ ms)) as [Hin|Hnin].
  - rewrite decide_True; [done|]. apply Hiff. by right.
  - rewrite decide_False; [done|]. rewrite Hiff. naive_solver.
Qed.

Lemma marked_hasAllFlags annotation flagNames vs fs fs' l :
  markLoop annotation flagNames vs fs = Some fs' ->
  hasAllFlags fs' l = hasAllFlags fs l.
Proof.
  intros (_ & Hch & _)%markLoop_spec.
  induction l as [|a l IH]; cbn [hasAllFlags]; [done|]. unfold pflag.Lookup.
  rewrite IH. specialize (Hch a).
  by destruct (fs !! a), (fs' !! a).
Qed.

Lemma marked_carriers annotation ms fs fs' :
  markLoop annotation ms ms fs = Some fs' ->
  carriers annotation fs (Join ms) = ∅ ->
  carriers annotation fs' (Join ms) <> ∅ <-> ms <> [].
Proof.
  intros Hmark Hfresh. pose proof Hmark as (Hdom & Hch & Hann)%markLoop_spec.
  split.
  - intros Hne ->. cbn [markLoop] in Hmark. injection Hmark as <-. done.
  - intros Hms He. destruct ms as [|n ms]; [done|].
    destruct (Hdom n (list_elem_of_here _ _)) as [f Hf].
    specialize (Hch n). rewrite Hf in Hch.
    destruct (fs' !! n) as [f'|] eqn:E'; [|done].
    assert (carriers annotation fs' (Join (n :: ms)) !! n = Some f') as Hc.
    { apply map_lookup_filter_Some. split; [done|]. simpl.
      apply (Hann n f f' Hf E'). right. repeat split. apply list_elem_of_here. }
    by rewrite He in Hc.
Qed.

(** Elsewhere the status tables are those of the flag set before. *)
Lemma marked_statusTable_other annotation ms fs fs' annotation' g :
  markLoop annotation ms ms fs = Some fs' ->
  annotation' <> annotation \/ g <> Join ms ->
  statusTable annotation' fs' !! g = statusTable annotation' fs !! g.
Proof.
  intros Hmark Hother. pose proof Hmark as (Hdom & Hch & Hann)%markLoop_spec.
  assert (forall n f f', fs !! n = Some f -> fs' !! n = Some f' ->
            g ∈ annotationOf annotation' f' <-> g ∈ annotationOf annotation' f) as Hsame.
  { intros n f f' Hf Hf'. rewrite (Hann n f f' Hf Hf'). naive_solver. }
  rewrite !statusTable_lookup, (marked_hasAllFlags _ _ _ _ _ _ Hmark).
  destruct (hasAllFlags fs (Split g)); [|done]. cbn [andb].
  assert (carriers annotation' fs' g <> ∅ <-> carriers annotation' fs g <> ∅) as Hc.
  { split; intros (n & f & [Hf Hg]%map_lookup_filter_Some)%map_choose He; simpl in Hg.
    - specialize (Hch n). rewrite Hf in Hch.
      destruct (fs !! n) as [f0|] eqn:E0; [|done].
      assert (carriers annotation' fs g !! n = Some f0) as Hc0.
      { apply map_lookup_filter_Some. split; [done|]. simpl. by apply (Hsame n f0 f). }
      by rewrite He in Hc0.
    - specialize (Hch n). rewrite Hf in Hch.
      destruct (fs' !! n) as [f0|] eqn:E0; [|done].
      assert (carriers annotation' fs' g !! n = Some f0) as Hc0.
      { apply map_lookup_filter_Some. split; [done|]. simpl. by apply (Hsame n f f0). }
      by rewrite He in Hc0. }
  rewrite (bool_decide_ext _ _ Hc).
  destruct (bool_decide _); [|done]. f_equal.
  apply map_eq. intros n. rewrite !entryMap_lookup.
  specialize (Hch n).
  destruct (fs !! n) as [f|] eqn:E; destruct (fs' !! n) as [f'|] eqn:E'; try done.
  simpl in Hch. injection Hch as ->.
  pose proof (Hsame n f f' E E') as Hiff.
  destruct (decide (g ∈ annotationOf annotation' f)).
  - rewrite decide_True; [done|]. by apply Hiff.
  - rewrite decide_False; [done|]. by rewrite Hiff.
Qed.

Lemma marked_statusTable_own annotation ms fs fs' :
  markLoop annotation ms ms fs = Some fs' ->
  carriers annotation fs (Join ms) = ∅ ->
  statusTable annotation fs' !! Join ms =
    if hasAllFlags fs (Split (Join ms)) && bool_decide (ms <> [])
    then Some (entryMap annotation fs' (Join ms)) else None.
Proof.
  intros Hmark Hfresh.
  rewrite statusTable_lookup, (marked_hasAllFlags _ _ _ _ _ _ Hmark).
  by rewrite (bool_decide_ext _ _ (marked_carriers _ _ _ _ Hmark Hfresh)).
Qed.

Lemma fresh_statusTable annotation fs g :
  carriers annotation fs g = ∅ -> statusTable annotation fs !! g = None.
Proof.
  intros Hfresh. rewrite statusTable_lookup, Hfresh.
  rewrite bool_decide_eq_false_2 by (intros H; by apply H).
  by rewrite andb_false_r.
Qed.

(** Every group entry of the second declaration is a group entry of the
    first, under some signature. *)
Lemma permuted_entries annotation ms1 ms2 fs fs1 fs2 :
  ms1 ≡ₚ ms2 ->
  markLoop annotation ms1 ms1 fs = Some fs1 ->
  markLoop annotation ms2 ms2 fs = Some fs2 ->
  carriers annotation fs (Join ms1) = ∅ ->
  carriers annotation fs (Join ms2) = ∅ ->
  forall annotation' g S,
    statusTable annotation' fs2 !! g = Some S ->
    exists g', statusTable annotation' fs1 !! g' = Some S.
Proof.
  intros Hp Hm1 Hm2 Hf1 Hf2 annotation' g S HS.
  destruct (decide (annotation' = annotation /\ g = Join ms2)) as [[-> ->]|Hne].
  - exists (Join ms1).
    rewrite (marked_statusTable_own _ _ _ _ Hm2 Hf2) in HS.
    rewrite (marked_statusTable_own _ _ _ _ Hm1 Hf1).
    assert (hasAllFlags fs (Split (Join ms1)) = hasAllFlags fs (Split (Join ms2))) as ->.
    { apply eq_true_iff_eq. rewrite !hasAllFlags_spec.
      by setoid_rewrite (fun n => Split_Join_Permutation ms1 ms2 n Hp). }
    assert (ms1 <> [] <-> ms2 <> []) as Hnil.
    { split; intros Hne ->;
        [apply Permutation_nil_r in Hp | apply Permutation_nil_l in Hp]; done. }
    rewrite (bool_decide_ext _ _ Hnil).
    destruct (_ && _); [|done]. injection HS as <-. f_equal.
    apply map_eq. intros n.
    rewrite (marked_entry _ _ _ _ n Hm1 Hf1), (marked_entry _ _ _ _ n Hm2 Hf2).
    pose proof (Split_Join_Permutation ms1 ms2 n Hp) as Hs.
    assert (n ∈ ms1 <-> n ∈ ms2) as Hn by (by rewrite Hp).
    destruct (fs !! n);
      repeat (match goal with |- context [decide ?P] => destruct (decide P) end);
      naive_solver.
  - exists g.
    assert (annotation' <> annotation \/ g <> Join ms2) as Ho2.
    { destruct (decide (annotation' = annotation)); [|by left].
      right. intros ->. by apply Hne. }
    rewrite (marked_statusTable_other _ _ _ _ _ _ Hm2 Ho2) in HS.
    destruct (decide (annotation' = annotation /\ g = Join ms1)) as [[-> ->]|Hne1].
    + rewrite fresh_statusTable in HS by done. done.
    + rewrite (marked_statusTable_other _ _ _ _ _ _ Hm1); [done|].
      destruct (decide (annotation' = annotation)); [|by left].
      right. intros ->. by apply Hne1.
Qed.

Lemma validateLoop_transfer check (data1 data2 : Status) :
  (forall g g' S, check g S = None -> check g' S = None) ->
  (forall g S, data2 !! g = Some S -> exists g', data1 !! g' = Some S) ->
  validateLoop check data1 (sortedKeys data1) = None ->
  validateLoop check data2 (sortedKeys data2) = None.
Proof.
  intros Hsig Hsub. rewrite !validateLoop_None.
  intros H1 k [S HS]%sortedKeys_elem_of. rewrite HS. simpl.
  destruct (Hsub k S HS) as [g' Hg'].
  apply (Hsig g'). specialize (H1 g'). rewrite Hg' in H1. apply H1.
  apply sortedKeys_elem_of. by eexists.
Qed.

Lemma ValidateFlagGroups_None flags :
  ValidateFlagGroups false flags = None <->
  validateRequireFlagGroups (statusTable requiredAsGroupAnnotation flags) = None
  /\ validateOneRequiredFlagGroups (statusTable oneRequiredAnnotation flags) = None
  /\ validateExclusiveFlagGroups (statusTable mutuallyExclusiveAnnotation flags) = None.
Proof.
  rewrite ValidateFlagGroups_unfold.
  destruct (validateRequireFlagGroups _); [naive_solver|].
  destruct (validateOneRequiredFlagGroups _); naive_solver.
Qed.

Lemma permuted_accept annotation ms1 ms2 fs fs1 fs2 :
  ms1 ≡ₚ ms2 ->
  markLoop annotation ms1 ms1 fs = Some fs1 ->
  markLoop annotation ms2 ms2 fs = Some fs2 ->
  carriers annotation fs (Join ms1) = ∅ ->
  carriers annotation fs (Join ms2) = ∅ ->
  ValidateFlagGroups false fs1 = None -> ValidateFlagGroups false fs2 = None.
Proof.
  intros Hp Hm1 Hm2 Hf1 Hf2.
  pose proof (permuted_entries _ _ _ _ _ _ Hp Hm1 Hm2 Hf1 Hf2) as Hsub.
  rewrite !ValidateFlagGroups_None. intros (H1 & H2 & H3).
  repeat split.
  - eapply validateLoop_transfer; [|apply Hsub|exact H1].
    intros g g' S. apply check_None_signature.
  - eapply validateLoop_transfer; [|apply Hsub|exact H2].
    intros g g' S. apply check_None_signature.
  - eapply validateLoop_transfer; [|apply Hsub|exact H3].
    intros g g' S. apply check_None_signature.
Qed.

(** C8.  Two declarations of a group of one kind over the same members in a
    different order, on the same flags with the same changed markers and
    with neither signature carried by a flag beforehand, are accepted or
    rejected together by [ValidateFlagGroups], whatever the kind, although
    their signatures differ.  [markLoop] at the three annotations is
    [MarkFlagsRequiredTogether], [MarkFlagsOneRequired] and
    [MarkFlagsMutuallyExclusive]. *)
Theorem declaration_order_irrelevant (ms1 ms2 : list string) (fs : FlagSet) :
  ms1 ≡ₚ ms2 ->
  forall annotation fs1 fs2,
    markLoop annotation ms1 ms1 fs = Some fs1 ->
    markLoop annotation ms2 ms2 fs = Some fs2 ->
    carriers annotation fs (Join ms1) = ∅ ->
    carriers annotation fs (Join ms2) = ∅ ->
    (ValidateFlagGroups false fs1 = None <-> ValidateFlagGroups false fs2 = None).
Proof.
  intros Hp annotation fs1 fs2 Hm1 Hm2 Hf1 Hf2. split.
  - by eapply permuted_accept.
  - eapply permuted_accept; [symmetry; exact Hp|done..].
Qed.

(** The flags [a] (changed) and [b] (not changed), without any group. *)
Definition abFlags : FlagSet :=
  <["a" := plainFlag 1 true]> (<["b" := plainFlag 2 false]> ∅).

Definition abDeclared (ms : list string) : FlagSet :=
  default ∅ (MarkFlagsRequiredTogether ms abFlags).

Lemma declaration_order_irrelevant_witness :
  abDeclared ["a"; "b"] <> abDeclared ["b"; "a"]
  /\ (ValidateFlagGroups false (abDeclared ["a"; "b"]) = None
      <-> ValidateFlagGroups false (abDeclared ["b"; "a"]) = None).
Proof.
  split.
  - intros Heq.
    assert (annotationOf requiredAsGroupAnnotation <$> (abDeclared ["a"; "b"] !! "a")
            = annotationOf requiredAsGroupAnnotation <$> (abDeclared ["b"; "a"] !! "a"))
      as H by (by rewrite Heq).
    vm_compute in H. discriminate H.
  - apply (declaration_order_irrelevant ["a"; "b"] ["b"; "a"] abFlags
             (perm_swap "b" "a" []) requiredAsGroupAnnotation).
    + vm_compute; reflexivity.
    + vm_compute; reflexivity.
    + vm_compute; reflexivity.
    + vm_compute; reflexivity.
Defined.

End FlagGroupsFacts.

(** ** Properties of the completion-time pass *)

Module FlagGroupsCompletionFacts.
Import FlagGroups FlagGroupsCompletion FlagGroupsFacts.

Section Evolution.

Variable BashCompOneRequiredFlag : string.

(** What justifies marking the flag [n] required, and hiding it. *)
Variables JR JH : string -> Prop.

Abbreviation isRequired := (FlagGroupsCompletion.isRequired BashCompOneRequiredFlag).

(** [fs'] comes from [fs] by marking flags required and hiding flags, each
    time with a justification. *)
Definition evolves (fs fs' : FlagSet) : Prop :=
  forall n,
    match fs !! n, fs' !! n with
    | Some f, Some f' =>
        (isRequired f -> isRequired f')
        /\ (Hidden f = true -> Hidden f' = true)
        /\ (isRequired f' -> isRequired f \/ JR n)
        /\ (Hidden f' = true -> Hidden f = true \/ JH n)
    | None, None => True
    | _, _ => False
    end.

Lemma evolves_refl fs : evolves fs fs.
Proof. intros n. destruct (fs !! n); [|done]. repeat split; auto. Qed.

Lemma evolves_trans fs1 fs2 fs3 :
  evolves fs1 fs2 -> evolves fs2 fs3 -> evolves fs1 fs3.
Proof.
  intros H12 H23 n. specialize (H12 n). specialize (H23 n).
  destruct (fs1 !! n), (fs2 !! n), (fs3 !! n); try done.
  destruct H12 as (A1 & A2 & A3 & A4), H23 as (B1 & B2 & B3 & B4).
  repeat split; [auto|auto|intros H|intros H].
  - destruct (B3 H) as [H'|]; [by apply A3|by right].
  - destruct (B4 H) as [H'|]; [by apply A4|by right].
Qed.

Lemma evolves_dom fs fs' n : evolves fs fs' -> is_Some (fs !! n) -> is_Some (fs' !! n).
Proof.
  intros H [f Hf]. specialize (H n). rewrite Hf in H.
  destruct (fs' !! n); [by eexists|done].
Qed.

(** The flag [n] is there and marked required, or hidden. *)
Definition requiredIn (fs : FlagSet) (n : string) : Prop :=
  exists f, fs !! n = Some f /\ isRequired f.
Definition hiddenIn (fs : FlagSet) (n : string) : Prop :=
  exists f, fs !! n = Some f /\ Hidden f = true.

Lemma requiredIn_evolves fs fs' n :
  requiredIn fs n -> evolves fs fs' -> requiredIn fs' n.
Proof.
  intros (f & Hf & Hr) H. specialize (H n). rewrite Hf in H.
  destruct (fs' !! n) as [f'|] eqn:E'; [|done]. exists f'.
  destruct H as (H1 & _). split; [done|auto].
Qed.

Lemma hiddenIn_evolves fs fs' n :
  hiddenIn fs n -> evolves fs fs' -> hiddenIn fs' n.
Proof.
  intros (f & Hf & Hr) H. specialize (H n). rewrite Hf in H.
  destruct (fs' !! n) as [f'|] eqn:E'; [|done]. exists f'.
  destruct H as (_ & H2 & _). split; [done|auto].
Qed.

Lemma requiredIn_justified fs fs' n :
  evolves fs fs' -> requiredIn fs' n -> requiredIn fs n \/ JR n.
Proof.
  intros H (f' & Hf' & Hr). specialize (H n). rewrite Hf' in H.
  destruct (fs !! n) as [f|] eqn:E; [|done].
  destruct H as (_ & _ & H3 & _).
  destruct (H3 Hr); [left; by exists f|by right].
Qed.

Lemma hiddenIn_justified fs fs' n :
  evolves fs fs' -> hiddenIn fs' n -> hiddenIn fs n \/ JH n.
Proof.
  intros H (f' & Hf' & Hr). specialize (H n). rewrite Hf' in H.
  destruct (fs !! n) as [f|] eqn:E; [|done].
  destruct H as (_ & _ & _ & H4).
  destruct (H4 Hr); [left; by exists f|by right].
Qed.

(** *** The two primitive steps *)

Lemma markRequired_evolves fs n :
  JR n -> evolves fs (markRequired BashCompOneRequiredFlag fs n).
Proof.
  intros Hj. unfold markRequired, MarkFlagRequired, pflag.SetAnnotation.
  destruct (fs !! n) as [f|] eqn:E; [|apply evolves_refl].
  intros n'. cbn [default from_option id].
  destruct (decide (n = n')) as [<-|Hne].
  - rewrite lookup_insert_eq, E.
    unfold FlagGroupsCompletion.isRequired, pflag.withAnnotation.
    cbn [Annotations Hidden]. rewrite lookup_insert_eq.
    repeat split; auto.
  - rewrite lookup_insert_ne by done. apply evolves_refl.
Qed.

Lemma markRequired_requiredIn fs n :
  is_Some (fs !! n) -> requiredIn (markRequired BashCompOneRequiredFlag fs n) n.
Proof.
  intros [f Hf]. unfold markRequired, MarkFlagRequired, pflag.SetAnnotation.
  rewrite Hf. cbn [default from_option id].
  eexists. split; [apply lookup_insert_eq|].
  unfold FlagGroupsCompletion.isRequired, pflag.withAnnotation.
  cbn [Annotations]. by rewrite lookup_insert_eq.
Qed.

Lemma hideFlag_evolves fs n :
  is_Some (fs !! n) -> JH n ->
  exists fs', hideFlag fs n = Some fs' /\ evolves fs fs' /\ hiddenIn fs' n.
Proof.
  intros [f Hf] Hj. unfold hideFlag, pflag.Lookup. rewrite Hf.
  eexists. split; [done|]. split.
  - intros n'. destruct (decide (n = n')) as [<-|Hne].
    + rewrite lookup_insert_eq, Hf.
      unfold FlagGroupsCompletion.isRequired, pflag.withHidden.
      cbn [Annotations Hidden]. repeat split; auto.
    + rewrite lookup_insert_ne by done. apply evolves_refl.
  - eexists. split; [apply lookup_insert_eq|done].
Qed.

(** *** Loops of such steps *)

Lemma foldlM_evolves {A} (step : FlagSet -> A -> option FlagSet) base l fs :
  (forall a fs0, a ∈ l -> evolves base fs0 ->
                 exists fs1, step fs0 a = Some fs1 /\ evolves fs0 fs1) ->
  evolves base fs ->
  exists fs', foldlM step fs l = Some fs' /\ evolves fs fs'.
Proof.
  revert fs. induction l as [|a l IH]; intros fs Hstep Hbase; cbn [foldlM].
  - exists fs. split; [done|apply evolves_refl].
  - destruct (Hstep a fs (list_elem_of_here _ _) Hbase) as (fs1 & -> & H1).
    destruct (IH fs1) as (fs' & Hf & H2).
    + intros a' fs0 Ha'. apply Hstep. by apply list_elem_of_further.
    + by eapply evolves_trans.
    + exists fs'. split; [done|]. by eapply evolves_trans.
Qed.

Lemma foldlM_establish {A} (step : FlagSet -> A -> option FlagSet)
    (Q : FlagSet -> Prop) base l a fs fs' :
  (forall fs0 fs1, Q fs0 -> evolves fs0 fs1 -> Q fs1) ->
  (forall a' fs0, a' ∈ l -> evolves base fs0 ->
                  exists fs1, step fs0 a' = Some fs1 /\ evolves fs0 fs1) ->
  (forall fs0 fs1, evolves base fs0 -> step fs0 a = Some fs1 -> Q fs1) ->
  a ∈ l -> evolves base fs ->
  foldlM step fs l = Some fs' -> Q fs'.
Proof.
  intros HQ. revert fs.
  induction l as [|a0 l IH]; intros fs Hstep Ha Hin Hbase; cbn [foldlM].
  - by apply elem_of_nil in Hin.
  - destruct (Hstep a0 fs (list_elem_of_here _ _) Hbase) as (fs1 & E1 & H1).
    rewrite E1. intros Hfold.
    assert (forall a' fs0, a' ∈ l -> evolves base fs0 ->
              exists fs2, step fs0 a' = Some fs2 /\ evolves fs0 fs2) as Hstep'
      by (intros a' fs0 Ha'; apply Hstep; by apply list_elem_of_further).
    assert (evolves base fs1) as Hbase1 by (by eapply evolves_trans).
    apply elem_of_cons in Hin as [->|Hin].
    + destruct (foldlM_evolves step base l fs1 Hstep' Hbase1) as (fs2 & E2 & H2).
      assert (fs2 = fs') as -> by congruence.
      eapply HQ; [|exact H2]. exact (Ha fs fs1 Hbase E1).
    + by eapply (IH fs1).
Qed.

Lemma foldlM_total {A} (step : FlagSet -> A -> FlagSet) l fs :
  foldlM (fun fs0 a => Some (step fs0 a)) fs l = Some (foldl step fs l).
Proof. revert fs. induction l as [|a l IH]; intros fs; cbn [foldlM foldl]; auto. Qed.

Lemma foldl_evolves {A} (step : FlagSet -> A -> FlagSet) base l fs :
  (forall a fs0, a ∈ l -> evolves base fs0 -> evolves fs0 (step fs0 a)) ->
  evolves base fs -> evolves fs (foldl step fs l).
Proof.
  intros Hstep Hbase.
  destruct (foldlM_evolves (fun fs0 a => Some (step fs0 a)) base l fs)
    as (fs' & Hf & He); [|done|].
  - intros a fs0 Ha H0. eexists. split; [done|]. by apply Hstep.
  - rewrite foldlM_total in Hf. by injection Hf as <-.
Qed.

Lemma foldl_establish {A} (step : FlagSet -> A -> FlagSet)
    (Q : FlagSet -> Prop) base l a fs :
  (forall fs0 fs1, Q fs0 -> evolves fs0 fs1 -> Q fs1) ->
  (forall a' fs0, a' ∈ l -> evolves base fs0 -> evolves fs0 (step fs0 a')) ->
  (forall fs0, evolves base fs0 -> Q (step fs0 a)) ->
  a ∈ l -> evolves base fs -> Q (foldl step fs l).
Proof.
  intros HQ Hstep Ha Hin Hbase.
  eapply (foldlM_establish (fun fs0 a => Some (step fs0 a)) Q base l a fs);
    [exact HQ| | |exact Hin|exact Hbase|apply foldlM_total].
  - intros a' fs0 Ha' H0. eexists. split; [done|]. by apply Hstep.
  - intros fs0 fs1 H0 [= <-]. by apply Ha.
Qed.

End Evolution.

Section Pass.

Variable BashCompOneRequiredFlag : string.
(** The flag set the pass starts from. *)
Variable flags : FlagSet.

(** A required-together group of [flags] with a member set, or a
    one-required group with no member set, names [n]. *)
Definition requiredBecause (n : string) : Prop :=
  (exists g S m, statusTable requiredAsGroupAnnotation flags !! g = Some S
                 /\ S !! m = Some true /\ n ∈ Split g)
  \/ (exists g S, statusTable oneRequiredAnnotation flags !! g = Some S
                  /\ (forall m, S !! m <> Some true) /\ n ∈ Split g).

(** A mutually exclusive group of [flags] names [n] and has another
    member set. *)
Definition hiddenBecause (n : string) : Prop :=
  exists g S m, statusTable mutuallyExclusiveAnnotation flags !! g = Some S
                /\ S !! m = Some true /\ n ∈ Split g /\ n <> m.

Abbreviation evolves' := (evolves BashCompOneRequiredFlag requiredBecause hiddenBecause).
Abbreviation requiredIn' := (requiredIn BashCompOneRequiredFlag).

Lemma materialised_dom annotation g S n :
  statusTable annotation flags !! g = Some S -> n ∈ Split g -> is_Some (flags !! n).
Proof.
  rewrite statusTable_lookup.
  destruct (hasAllFlags flags (Split g)) eqn:Hall; [|done].
  intros _. by apply hasAllFlags_spec.
Qed.

Lemma rangeUntilSet_spec (members : list (string * bool)) isSet :
  rangeUntilSet members isSet = true <->
  (exists member, member ∈ members /\ member.2 = true) \/ (members = [] /\ isSet = true).
Proof.
  revert isSet. induction members as [|[m b] l IH]; intros isSet; cbn [rangeUntilSet].
  - split; [by right|]. intros [(? & []%elem_of_nil & _)|[_ ?]]; done.
  - simpl. destruct b.
    + split; [|done]. intros _. left. exists (m, true). split; [apply list_elem_of_here|done].
    + rewrite IH. split.
      * intros [(p & Hp & Hb)|[_ ?]]; [|done]. left. exists p.
        split; [by apply list_elem_of_further|done].
      * intros [(p & [->|Hp]%elem_of_cons & Hb)|[? _]]; [done| |done].
        left. by exists p.
Qed.

Lemma markGroupRequired_evolves g fs0 :
  (forall n, n ∈ Split g -> requiredBecause n) ->
  evolves' fs0 (markGroupRequired BashCompOneRequiredFlag g fs0).
Proof.
  intros Hj. unfold markGroupRequired.
  apply (foldl_evolves _ _ _ _ fs0); [|apply evolves_refl].
  intros n fs1 Hn _. apply markRequired_evolves. by apply Hj.
Qed.

Lemma markGroupRequired_requiredIn g fs0 n :
  (forall n, n ∈ Split g -> requiredBecause n) ->
  n ∈ Split g -> is_Some (fs0 !! n) ->
  requiredIn' (markGroupRequired BashCompOneRequiredFlag g fs0) n.
Proof.
  intros Hj Hn Hdom. unfold markGroupRequired.
  apply (foldl_establish BashCompOneRequiredFlag requiredBecause hiddenBecause
           _ (fun fs => requiredIn' fs n) fs0 (Split g) n).
  - intros fs1 fs2 HQ He. by eapply requiredIn_evolves.
  - intros n' fs1 Hn' _. apply markRequired_evolves. by apply Hj.
  - intros fs1 He. apply markRequired_requiredIn. by eapply evolves_dom.
  - done.
  - apply evolves_refl.
Qed.

(** The step of the first loop for one group. *)
Definition stepTogether (fs : FlagSet) (entry : string * gmap string bool) : FlagSet :=
  foldl (fun fs' (member : string * bool) =>
           if member.2 then markGroupRequired BashCompOneRequiredFlag entry.1 fs' else fs')
        fs (map_to_list entry.2).

Lemma stepTogether_evolves fs0 g S :
  statusTable requiredAsGroupAnnotation flags !! g = Some S ->
  evolves' fs0 (stepTogether fs0 (g, S)).
Proof.
  intros HS. unfold stepTogether. cbn [fst snd].
  apply (foldl_evolves _ _ _ _ fs0); [|apply evolves_refl].
  intros [m b] fs1 Hm%elem_of_map_to_list _. cbn [snd].
  destruct b; [|apply evolves_refl].
  apply markGroupRequired_evolves. intros n Hn. left. by exists g, S, m.
Qed.

Lemma enforceRequiredTogether_evolves fs0 :
  evolves' fs0
    (enforceRequiredTogether BashCompOneRequiredFlag
       (statusTable requiredAsGroupAnnotation flags) fs0).
Proof.
  unfold enforceRequiredTogether.
  apply (foldl_evolves _ _ _ _ fs0); [|apply evolves_refl].
  intros [g S] fs1 HS%elem_of_map_to_list _.
  by apply (stepTogether_evolves fs1 g S).
Qed.

Lemma enforceRequiredTogether_marks g S m n :
  statusTable requiredAsGroupAnnotation flags !! g = Some S ->
  S !! m = Some true -> n ∈ Split g ->
  requiredIn'
    (enforceRequiredTogether BashCompOneRequiredFlag
       (statusTable requiredAsGroupAnnotation flags) flags) n.
Proof.
  intros HS Hm Hn. unfold enforceRequiredTogether.
  assert (forall n', n' ∈ Split g -> requiredBecause n') as Hj
    by (intros n' Hn'; left; by exists g, S, m).
  apply (foldl_establish BashCompOneRequiredFlag requiredBecause hiddenBecause
           _ (fun fs => requiredIn' fs n) flags _ (g, S)).
  - intros fs1 fs2 HQ He. by eapply requiredIn_evolves.
  - intros [g' S'] fs1 HS'%elem_of_map_to_list _.
    by apply (stepTogether_evolves fs1 g' S').
  - intros fs1 He1. cbn [fst snd].
    apply (foldl_establish BashCompOneRequiredFlag requiredBecause hiddenBecause
             _ (fun fs => requiredIn' fs n) fs1 _ (m, true)).
    + intros fs2 fs3 HQ He. by eapply requiredIn_evolves.
    + intros [m' b] fs2 _ _. cbn [snd]. destruct b; [|apply evolves_refl].
      by apply markGroupRequired_evolves.
    + intros fs2 He2. cbn [snd]. apply markGroupRequired_requiredIn; [done..|].
      eapply evolves_dom; [exact He2|]. eapply evolves_dom; [exact He1|].
      by eapply materialised_dom.
    + by apply elem_of_map_to_list.
    + apply evolves_refl.
  - by apply elem_of_map_to_list.
  - apply evolves_refl.
Qed.

Lemma no_member_set (S : gmap string bool) :
  rangeUntilSet (map_to_list S) false = false <-> (forall m, S !! m <> Some true).
Proof.
  rewrite <- not_true_iff_false, rangeUntilSet_spec. split.
  - intros Hno m Hm. apply Hno. left. exists (m, true).
    split; [by apply elem_of_map_to_list|done].
  - intros Hno [([m b] & Hin%elem_of_map_to_list & Hb)|[_ ?]]; [|done].
    simpl in Hb. subst b. by apply (Hno m).
Qed.

Lemma stepOneRequired_evolves fs0 g S :
  statusTable oneRequiredAnnotation flags !! g = Some S ->
  evolves' fs0
    (if negb (rangeUntilSet (map_to_list S) false)
     then markGroupRequired BashCompOneRequiredFlag g fs0 else fs0).
Proof.
  intros HS. destruct (rangeUntilSet (map_to_list S) false) eqn:E; cbn [negb].
  - apply evolves_refl.
  - apply markGroupRequired_evolves. intros n Hn. right.
    exists g, S. by rewrite <- no_member_set.
Qed.

Lemma enforceOneRequired_evolves fs0 :
  evolves' fs0
    (enforceOneRequired BashCompOneRequiredFlag
       (statusTable oneRequiredAnnotation flags) fs0).
Proof.
  unfold enforceOneRequired.
  apply (foldl_evolves _ _ _ _ fs0); [|apply evolves_refl].
  intros [g S] fs1 HS%elem_of_map_to_list _. cbn [fst snd].
  by apply stepOneRequired_evolves.
Qed.

Lemma enforceOneRequired_marks fs0 g S n :
  evolves' flags fs0 ->
  statusTable oneRequiredAnnotation flags !! g = Some S ->
  (forall m, S !! m <> Some true) -> n ∈ Split g ->
  requiredIn'
    (enforceOneRequired BashCompOneRequiredFlag
       (statusTable oneRequiredAnnotation flags) fs0) n.
Proof.
  intros He0 HS Hno Hn. unfold enforceOneRequired.
  apply (foldl_establish BashCompOneRequiredFlag requiredBecause hiddenBecause
           _ (fun fs => requiredIn' fs n) fs0 _ (g, S)).
  - intros fs1 fs2 HQ He. by eapply requiredIn_evolves.
  - intros [g' S'] fs1 HS'%elem_of_map_to_list _. cbn [fst snd].
    by apply stepOneRequired_evolves.
  - intros fs1 He1. cbn [fst snd].
    apply no_member_set in Hno as Hr. rewrite Hr. cbn [negb].
    apply markGroupRequired_requiredIn; [|done|].
    + intros n' Hn'. right. by exists g, S.
    + eapply evolves_dom; [exact He1|]. eapply evolves_dom; [exact He0|].
      by eapply materialised_dom.
  - by apply elem_of_map_to_list.
  - apply evolves_refl.
Qed.

(** The innermost loop of the third loop: hide every name of the group
    but [flagName]. *)
Definition hideOthers (flagList flagName : string) (fs : FlagSet) : option FlagSet :=
  foldlM (fun fs'' fName =>
            if negb (String.eqb fName flagName) then hideFlag fs'' fName else Some fs'')
         fs (Split flagList).

Lemma hideOthers_step fs0 fs1 g S m n :
  statusTable mutuallyExclusiveAnnotation flags !! g = Some S ->
  S !! m = Some true -> n ∈ Split g ->
  evolves' flags fs0 -> evolves' fs0 fs1 ->
  exists fs2,
    (if negb (String.eqb n m) then hideFlag fs1 n else Some fs1) = Some fs2
    /\ evolves' fs1 fs2
    /\ (n <> m -> hiddenIn fs2 n).
Proof.
  intros HS Hm Hn He0 He1.
  destruct (String.eqb n m) eqn:E; cbn [negb].
  - apply String.eqb_eq in E. exists fs1. split; [done|].
    split; [apply evolves_refl|done].
  - apply String.eqb_neq in E.
    destruct (hideFlag_evolves BashCompOneRequiredFlag requiredBecause hiddenBecause
                fs1 n) as (fs2 & Hh & He2 & Hhid).
    + eapply evolves_dom; [exact He1|]. eapply evolves_dom; [exact He0|].
      by eapply materialised_dom.
    + by exists g, S, m.
    + exists fs2. auto.
Qed.

Lemma hideOthers_evolves fs0 g S m :
  statusTable mutuallyExclusiveAnnotation flags !! g = Some S ->
  S !! m = Some true -> evolves' flags fs0 ->
  exists fs1, hideOthers g m fs0 = Some fs1 /\ evolves' fs0 fs1.
Proof.
  intros HS Hm He0. unfold hideOthers.
  apply (foldlM_evolves _ _ _ _ fs0); [|apply evolves_refl].
  intros n fs1 Hn He1.
  destruct (hideOthers_step fs0 fs1 g S m n HS Hm Hn He0 He1) as (fs2 & ? & ? & _).
  by exists fs2.
Qed.

Lemma hideOthers_hides fs0 fs1 g S m n :
  statusTable mutuallyExclusiveAnnotation flags !! g = Some S ->
  S !! m = Some true -> evolves' flags fs0 ->
  n ∈ Split g -> n <> m ->
  hideOthers g m fs0 = Some fs1 -> hiddenIn fs1 n.
Proof.
  intros HS Hm He0 Hn Hne. unfold hideOthers.
  apply (foldlM_establish BashCompOneRequiredFlag requiredBecause hiddenBecause
           _ (fun fs => hiddenIn fs n) fs0 _ n).
  - intros fs2 fs3 HQ He. by eapply hiddenIn_evolves.
  - intros n' fs2 Hn' He2.
    destruct (hideOthers_step fs0 fs2 g S m n' HS Hm Hn' He0 He2) as (fs3 & ? & ? & _).
    by exists fs3.
  - intros fs2 fs3 He2 Hstep.
    destruct (hideOthers_step fs0 fs2 g S m n HS Hm Hn He0 He2) as (fs4 & E4 & _ & Hh).
    rewrite Hstep in E4. injection E4 as <-. by apply Hh.
  - done.
  - apply evolves_refl.
Qed.

(** The step of the third loop for one group. *)
Definition stepExclusive (fs : FlagSet) (entry : string * gmap string bool)
    : option FlagSet :=
  foldlM (fun fs' (member : string * bool) =>
            if member.2 then hideOthers entry.1 member.1 fs' else Some fs')
         fs (map_to_list entry.2).

Lemma stepExclusive_member fs0 fs1 g S m (b : bool) :
  statusTable mutuallyExclusiveAnnotation flags !! g = Some S ->
  S !! m = Some b -> evolves' flags fs0 -> evolves' fs0 fs1 ->
  exists fs2, (if b then hideOthers g m fs1 else Some fs1) = Some fs2
              /\ evolves' fs1 fs2.
Proof.
  intros HS Hm He0 He1. destruct b.
  - apply (hideOthers_evolves fs1 g S m HS Hm). by eapply evolves_trans.
  - exists fs1. split; [done|apply evolves_refl].
Qed.

Lemma stepExclusive_evolves fs0 g S :
  statusTable mutuallyExclusiveAnnotation flags !! g = Some S ->
  evolves' flags fs0 ->
  exists fs1, stepExclusive fs0 (g, S) = Some fs1 /\ evolves' fs0 fs1.
Proof.
  intros HS He0. unfold stepExclusive. cbn [fst snd].
  apply (foldlM_evolves _ _ _ _ fs0); [|apply evolves_refl].
  intros [m b] fs1 Hm%elem_of_map_to_list He1. cbn [fst snd].
  by apply (stepExclusive_member fs0 fs1 g S m b).
Qed.

Lemma stepExclusive_hides fs0 fs1 g S m n :
  statusTable mutuallyExclusiveAnnotation flags !! g = Some S ->
  S !! m = Some true -> evolves' flags fs0 ->
  n ∈ Split g -> n <> m ->
  stepExclusive fs0 (g, S) = Some fs1 -> hiddenIn fs1 n.
Proof.
  intros HS Hm He0 Hn Hne. unfold stepExclusive. cbn [fst snd].
  apply (foldlM_establish BashCompOneRequiredFlag requiredBecause hiddenBecause
           _ (fun fs => hiddenIn fs n) fs0 _ (m, true)).
  - intros fs2 fs3 HQ He. by eapply hiddenIn_evolves.
  - intros [m' b] fs2 Hm'%elem_of_map_to_list He2. cbn [fst snd].
    by apply (stepExclusive_member fs0 fs2 g S m' b).
  - intros fs2 fs3 He2. cbn [fst snd].
    apply (hideOthers_hides fs2 fs3 g S m n HS Hm); [|done..].
    by eapply evolves_trans.
  - by apply elem_of_map_to_list.
  - apply evolves_refl.
Qed.

Lemma enforceExclusive_evolves fs0 :
  evolves' flags fs0 ->
  exists fs1,
    enforceExclusive (statusTable mutuallyExclusiveAnnotation flags) fs0 = Some fs1
    /\ evolves' fs0 fs1.
Proof.
  intros He0. unfold enforceExclusive.
  apply (foldlM_evolves _ _ _ _ fs0); [|apply evolves_refl].
  intros [g S] fs1 HS%elem_of_map_to_list He1.
  apply (stepExclusive_evolves fs1 g S HS). by eapply evolves_trans.
Qed.

Lemma enforceExclusive_hides fs0 fs1 g S m n :
  statusTable mutuallyExclusiveAnnotation flags !! g = Some S ->
  S !! m = Some true -> evolves' flags fs0 ->
  n ∈ Split g -> n <> m ->
  enforceExclusive (statusTable mutuallyExclusiveAnnotation flags) fs0 = Some fs1 ->
  hiddenIn fs1 n.
Proof.
  intros HS Hm He0 Hn Hne. unfold enforceExclusive.
  apply (foldlM_establish BashCompOneRequiredFlag requiredBecause hiddenBecause
           _ (fun fs => hiddenIn fs n) fs0 _ (g, S)).
  - intros fs2 fs3 HQ He. by eapply hiddenIn_evolves.
  - intros [g' S'] fs2 HS'%elem_of_map_to_list He2.
    apply (stepExclusive_evolves fs2 g' S' HS'). by eapply evolves_trans.
  - intros fs2 fs3 He2.
    apply (stepExclusive_hides fs2 fs3 g S m n HS Hm); [|done..].
    by eapply evolves_trans.
  - by apply elem_of_map_to_list.
  - apply evolves_refl.
Qed.

End Pass.

(** C3, as the code has it.  The completion-time pass never panics and
    returns no error.  It marks required every flag named by a
    required-together group with a member set and every flag named by a
    one-required group with no member set, and no other flag; it hides
    every flag named by a mutually exclusive group other than a member that
    is set, and a flag only on account of another member that is set. *)
Theorem completion_pass_marks (BashCompOneRequiredFlag : string) (flags : FlagSet) :
  exists flags',
    enforceFlagGroupsForCompletion BashCompOneRequiredFlag false flags = Some flags'
    /\ (forall g S m n,
          statusTable requiredAsGroupAnnotation flags !! g = Some S ->
          S !! m = Some true -> n ∈ Split g ->
          requiredIn BashCompOneRequiredFlag flags' n)
    /\ (forall g S n,
          statusTable oneRequiredAnnotation flags !! g = Some S ->
          (forall m, S !! m <> Some true) -> n ∈ Split g ->
          requiredIn BashCompOneRequiredFlag flags' n)
    /\ (forall n,
          requiredIn BashCompOneRequiredFlag flags' n ->
          requiredIn BashCompOneRequiredFlag flags n \/ requiredBecause flags n)
    /\ (forall g S m n,
          statusTable mutuallyExclusiveAnnotation flags !! g = Some S ->
          S !! m = Some true -> n ∈ Split g -> n <> m ->
          hiddenIn flags' n)
    /\ (forall n, hiddenIn flags' n -> hiddenIn flags n \/ hiddenBecause flags n).
Proof.
  unfold enforceFlagGroupsForCompletion. rewrite groupTables_spec.
  set (fs1 := enforceRequiredTogether _ _ flags).
  set (fs2 := enforceOneRequired _ _ fs1).
  pose proof (enforceRequiredTogether_evolves BashCompOneRequiredFlag flags flags) as He1.
  pose proof (enforceOneRequired_evolves BashCompOneRequiredFlag flags fs1) as He2.
  fold fs1 in He1. fold fs2 in He2.
  pose proof (evolves_trans _ _ _ _ _ _ He1 He2) as He12.
  destruct (enforceExclusive_evolves BashCompOneRequiredFlag flags fs2 He12)
    as (fs3 & Hfs3 & He3).
  pose proof (evolves_trans _ _ _ _ _ _ He12 He3) as He.
  exists fs3. split; [done|]. repeat split.
  - intros g S m n HS Hm Hn.
    eapply requiredIn_evolves; [|eapply evolves_trans; [exact He2|exact He3]].
    by eapply enforceRequiredTogether_marks.
  - intros g S n HS Hno Hn.
    eapply requiredIn_evolves; [|exact He3].
    by eapply enforceOneRequired_marks.
  - intros n. by eapply requiredIn_justified.
  - intros g S m n HS Hm Hn Hne.
    exact (enforceExclusive_hides BashCompOneRequiredFlag flags fs2 fs3 g S m n
             HS Hm He12 Hn Hne Hfs3).
  - intros n. by eapply hiddenIn_justified.
Qed.

(** The flags [a] (changed) and [b] of which one is required. *)
Definition abOneRequired : FlagSet :=
  default ∅ (MarkFlagsOneRequired ["a"; "b"] abFlags).

Definition bashCompOneRequiredFlag : string :=
  "cobra_annotation_bash_completion_one_required_flag".

(** The one-required group of [a] and [b] has its member [a] set, and the
    pass leaves [b] not marked required. *)
Lemma completion_pass_one_required_counterexample :
  statusTable oneRequiredAnnotation abOneRequired !! "a b"
    = Some (<["a" := true]> (<["b" := false]> ∅))
  /\ exists flags',
      enforceFlagGroupsForCompletion bashCompOneRequiredFlag false abOneRequired
        = Some flags'
      /\ ~ requiredIn bashCompOneRequiredFlag flags' "b".
Proof.
  split; [vm_compute; reflexivity|].
  exists (default ∅
            (enforceFlagGroupsForCompletion bashCompOneRequiredFlag false abOneRequired)).
  split; [vm_compute; reflexivity|].
  intros (f & Hf & Hr). vm_compute in Hf. injection Hf as <-.
  vm_compute in Hr. discriminate Hr.
Qed.

End FlagGroupsCompletionFacts.

(** ** Properties of the directives and of the hook registry *)

Module CompletionsFacts.
Import Completions.

(** C9, on the code.  The constant block declares five bit flags, the
    powers of two from 1 to 16, and the zero default; the names
    [ShellCompDirectiveFilterFileExt] and [ShellCompDirectiveFilterDirs]
    that [ShellCompDirective.string] tests are not declared. *)
Theorem directive_block_declares_five_flags :
  directiveFlags
    = [ ("ShellCompDirectiveError", 1); ("ShellCompDirectiveNoSpace", 2);
        ("ShellCompDirectiveNoFileComp", 4); ("ShellCompDirectiveFilterExt", 8);
        ("ShellCompDirectiveKeepOrder", 16) ]
  /\ directiveConstant "ShellCompDirectiveDefault" = Some 0
  /\ directiveConstant <$> directivesOfString
     = [Some 1; Some 2; Some 4; None; None; Some 16]
  /\ length directiveFlags = 5%nat.
Proof. repeat split; vm_compute; reflexivity. Qed.

Section Registry.

Context {CompletionFunc : Type}.
Implicit Types (st : State CompletionFunc) (f g : CompletionFunc).

Lemma state_eta st :
  mkState (flagCompletionFunctions st) (flagCompletionMutex st) = st.
Proof. by destruct st. Qed.

(** C7.  For an existing flag with a registered hook, a registration
    that gets the lock returns the error of a duplicate and leaves the
    registry as it was; while the mutex is held the call blocks, and does
    nothing to the registry; a first registration that succeeds makes the
    next one fail. *)
Theorem register_rejects_duplicate flags flagName flag f g st :
  Command_Flag flags flagName = Some flag ->
  flagCompletionFunctions st !! addr flag = Some g ->
  (flagCompletionMutex st = Unlocked ->
     RegisterFlagCompletionFunc flags flagName f st
     = Some (Some (ErrAlreadyRegistered flagName), st))
  /\ (flagCompletionMutex st <> Unlocked ->
       RegisterFlagCompletionFunc flags flagName f st = None)
  /\ (forall st' e,
        RegisterFlagCompletionFunc flags flagName f st = Some (e, st') ->
        e = Some (ErrAlreadyRegistered flagName)
        /\ flagCompletionFunctions st' = flagCompletionFunctions st
        /\ flagCompletionMutex st' = Unlocked).
Proof.
  intros Hflag Hreg. unfold RegisterFlagCompletionFunc. rewrite Hflag.
  destruct st as [funcs m]; cbn [flagCompletionFunctions flagCompletionMutex] in *.
  rewrite Hreg. split; [|split].
  - intros ->. reflexivity.
  - intros Hm. destruct m; [done|reflexivity|reflexivity].
  - intros st' e. destruct m; cbn [Lock]; [|done|done].
    intros [= <- <-]. done.
Qed.

(** A registration on a flag without hook stores the hook, and the next
    registration for the flag is rejected. *)
Lemma register_once flags flagName flag f g st :
  Command_Flag flags flagName = Some flag ->
  flagCompletionFunctions st !! addr flag = None ->
  flagCompletionMutex st = Unlocked ->
  exists st1,
    RegisterFlagCompletionFunc flags flagName f st = Some (None, st1)
    /\ flagCompletionFunctions st1 !! addr flag = Some f
    /\ RegisterFlagCompletionFunc flags flagName g st1
       = Some (Some (ErrAlreadyRegistered flagName), st1).
Proof.
  intros Hflag Hnone Hm.
  unfold RegisterFlagCompletionFunc at 1. rewrite Hflag, Hm, Hnone. cbn [Lock Unlock].
  eexists. split; [reflexivity|].
  cbn [flagCompletionFunctions]. split; [apply lookup_insert_eq|].
  unfold RegisterFlagCompletionFunc. rewrite Hflag.
  cbn [flagCompletionFunctions flagCompletionMutex Lock Unlock].
  by rewrite lookup_insert_eq.
Qed.

(** C10.  For a flag name that is not on the flag view of the command,
    [GetFlagCompletionFunc] returns nil and false, without touching the
    mutex; for a flag without registered hook it returns nil and false as
    well, once it gets the read lock. *)
Theorem get_without_hook flags flagName st :
  (Command_Flag flags flagName = None ->
     GetFlagCompletionFunc flags flagName st = Some ((None, false), st))
  /\ (forall flag,
        Command_Flag flags flagName = Some flag ->
        flagCompletionFunctions st !! addr flag = None ->
        flagCompletionMutex st <> WriteLocked ->
        GetFlagCompletionFunc flags flagName st = Some ((None, false), st)).
Proof.
  unfold GetFlagCompletionFunc. split.
  - by intros ->.
  - intros flag -> Hnone Hm. rewrite Hnone.
    destruct st as [funcs m]; cbn [flagCompletionFunctions flagCompletionMutex] in *.
    destruct m as [| |n]; cbn [RLock RUnlock]; [done|done|].
    rewrite (proj2 (Pos.eqb_neq _ _)) by lia.
    by rewrite Pos.pred_succ.
Qed.

End Registry.

(** A hook type for the examples: the choices and the directive for the
    arguments and the word to complete. *)
Definition exampleHook : Type := list string -> string -> list string * Z.

Definition fixedAB : exampleHook := fun _ _ => (["a"; "b"], 4).
Definition noFiles : exampleHook := fun _ _ => ([], 4).

Definition outputFlag : Flag := mkFlag 7 "o" false "" false ∅.
Definition exampleFlags : FlagSet := <["output" := outputFlag]> ∅.

Definition registered : State exampleHook := mkState (<[7%positive := fixedAB]> ∅) Unlocked.
Definition emptyRegistry : State exampleHook := mkState ∅ Unlocked.

Lemma register_rejects_duplicate_witness :
  RegisterFlagCompletionFunc exampleFlags "output" noFiles registered
  = Some (Some (ErrAlreadyRegistered "output"), registered).
Proof.
  refine (proj1 (register_rejects_duplicate exampleFlags "output" outputFlag
                   noFiles fixedAB registered _ _) _).
  - vm_compute; reflexivity.
  - vm_compute; reflexivity.
  - reflexivity.
Defined.

Lemma get_without_hook_witness :
  GetFlagCompletionFunc exampleFlags "verbose" registered = Some ((None, false), registered)
  /\ GetFlagCompletionFunc exampleFlags "output" emptyRegistry
     = Some ((None, false), emptyRegistry).
Proof.
  split.
  - refine (proj1 (get_without_hook exampleFlags "verbose" registered) _).
    vm_compute; reflexivity.
  - refine (proj2 (get_without_hook exampleFlags "output" emptyRegistry) outputFlag _ _ _).
    + vm_compute; reflexivity.
    + vm_compute; reflexivity.
    + discriminate.
Defined.

End CompletionsFacts.


(** ** Properties of the suggestions *)

Module SuggestionFacts.
Import Commands.







(** A runnable command without children, flags or aliases. *)
Definition leaf (a : positive) (use : string) : Command :=
  mkCommand a use [] [] "" false true None ∅ None [] false 0.



End SuggestionFacts.


(** ** Properties of the resolution of a child *)

Module ResolverFacts.
Import Commands.

(** The child matches the token exactly, by its name or an alias. *)
Definition exactMatch (cmd : Command) (next : string) : bool :=
  commandNameMatches (Name cmd) next || HasAlias cmd next.

(** The name or an alias of the child has the token as a prefix. *)
Definition prefixMatch (cmd : Command) (next : string) : bool :=
  HasPrefix (Name cmd) next || existsb (fun alias => HasPrefix alias next) (Aliases cmd).

Lemma aliasWithPrefix_None aliases prefix :
  aliasWithPrefix aliases prefix = None <->
  existsb (fun alias => HasPrefix alias prefix) aliases = false.
Proof.
  induction aliases as [|a l IH]; cbn [aliasWithPrefix existsb]; [done|].
  destruct (HasPrefix a prefix); [done|]. by rewrite IH.
Qed.

Lemma HasNameOrAliasPrefix_fst cmd next called :
  (HasNameOrAliasPrefix cmd next called).1 = prefixMatch cmd next.
Proof.
  unfold HasNameOrAliasPrefix, prefixMatch.
  destruct (HasPrefix (Name cmd) next); [done|]. cbn [orb].
  destruct (aliasWithPrefix (Aliases cmd) next) eqn:E; cbn [fst].
  - destruct (existsb _ _) eqn:E'; [done|].
    apply aliasWithPrefix_None in E'. congruence.
  - symmetry. by apply aliasWithPrefix_None.
Qed.

Lemma findNextLoop_exact_first E l1 cmd l2 next matches called :
  Forall (fun x => exactMatch x next = false) l1 ->
  exactMatch cmd next = true ->
  exists called',
    findNextLoop E (l1 ++ cmd :: l2) next matches called = (Some cmd, called')
    /\ called' !! ptr cmd = Some next.
Proof.
  intros Hl1 Hcmd. revert matches called.
  induction Hl1 as [|x l1 Hx Hl1 IH]; intros matches called; cbn [app findNextLoop].
  - fold (exactMatch cmd next). rewrite Hcmd.
    eexists. split; [done|]. apply lookup_insert_eq.
  - fold (exactMatch x next). rewrite Hx.
    destruct E; [|apply IH].
    destruct (HasNameOrAliasPrefix x next called) as [b called1]. apply IH.
Qed.

Lemma findNextLoop_prefix l next matches called :
  Forall (fun x => exactMatch x next = false) l ->
  (findNextLoop true l next matches called).1 =
    match (matches ++ filter (fun x => prefixMatch x next = true) l)%list with
    | [m] => Some m
    | _ => None
    end.
Proof.
  intros Hl. revert matches called.
  induction Hl as [|x l Hx Hl IH]; intros matches called; cbn [findNextLoop].
  - rewrite filter_nil, app_nil_r. by destruct matches as [|? [|? ?]].
  - fold (exactMatch x next). rewrite Hx.
    pose proof (HasNameOrAliasPrefix_fst x next called) as Hfst.
    destruct (HasNameOrAliasPrefix x next called) as [b called1]. cbn [fst] in Hfst.
    rewrite IH. subst b.
    destruct (prefixMatch x next) eqn:Ep.
    + rewrite filter_cons_True by done. by rewrite <- app_assoc.
    + rewrite filter_cons_False by (by rewrite Ep). done.
Qed.

(** C1.  With prefix matching enabled, [findNext] returns the first child
    that matches the token exactly by name or alias, whatever the prefixes;
    without such a child it returns the child whose name or alias has the
    token as a prefix when there is exactly one, and nil otherwise; and when
    two or more children have it as a prefix, [innerfind] of [Find] returns
    the node it is at with the arguments it was given. *)
Theorem child_resolution (c : Command) (next : string) (called : CalledAs) :
  (forall l1 cmd l2,
      commands c = (l1 ++ cmd :: l2)%list ->
      Forall (fun x => exactMatch x next = false) l1 ->
      exactMatch cmd next = true ->
      (findNext true c next called).1 = Some cmd)
  /\ (Forall (fun x => exactMatch x next = false) (commands c) ->
      (findNext true c next called).1 =
        match filter (fun x => prefixMatch x next = true) (commands c) with
        | [m] => Some m
        | _ => None
        end)
  /\ (forall fuel parent innerArgs rest,
        Forall (fun x => exactMatch x next = false) (commands c) ->
        (2 <= length (filter (fun x => prefixMatch x next = true) (commands c)))%nat ->
        stripFlag innerArgs c = next :: rest ->
        exists called',
          innerfind true (S fuel) parent c innerArgs called
          = Some (c, parent, innerArgs, called')).
Proof.
  split; [|split].
  - intros l1 cmd l2 Hc Hl1 Hcmd. unfold findNext. rewrite Hc.
    destruct (findNextLoop_exact_first true l1 cmd l2 next [] called Hl1 Hcmd)
      as (called' & -> & _). done.
  - intros Hno. unfold findNext. by rewrite findNextLoop_prefix.
  - intros fuel parent innerArgs rest Hno Hlen Hstrip.
    cbn [innerfind]. rewrite Hstrip.
    pose proof (findNextLoop_prefix (commands c) next [] called Hno) as Hfind.
    fold (findNext true c next called) in Hfind.
    destruct (findNext true c next called) as [found called'].
    cbn [fst app] in Hfind. subst found.
    destruct (filter _ (commands c)) as [|m1 [|m2 ms]]; cbn [length] in Hlen; try lia.
    by exists called'.
Qed.

(** The root with the children [status] and [start], and the one with the
    children [status] and [build]. *)
Definition staRoot : Command :=
  mkCommand 1 "app" [] [] "" false false None ∅ None
            [SuggestionFacts.leaf 2 "status"; SuggestionFacts.leaf 3 "start"] false 0.

Definition statRoot : Command :=
  mkCommand 1 "app" [] [] "" false false None ∅ None
            [SuggestionFacts.leaf 2 "status"; SuggestionFacts.leaf 3 "build"] false 0.

Lemma child_resolution_witness :
  (exists called',
      innerfind true 1 None staRoot ["sta"] ∅ = Some (staRoot, None, ["sta"], called'))
  /\ (findNext true statRoot "stat" ∅).1 = Some (SuggestionFacts.leaf 2 "status").
Proof.
  split.
  - refine (proj2 (proj2 (child_resolution staRoot "sta" ∅)) 0%nat None ["sta"] [] _ _ _).
    + repeat constructor.
    + vm_compute. repeat constructor.
    + vm_compute; reflexivity.
  - refine (eq_trans (proj1 (proj2 (child_resolution statRoot "stat" ∅)) _) _).
    + repeat constructor.
    + vm_compute; reflexivity.
Defined.

(** *** [Find] returns *)

Lemma findNextLoop_elem_of E cmds next matches called cmd called' :
  findNextLoop E cmds next matches called = (Some cmd, called') ->
  cmd ∈ cmds \/ cmd ∈ matches.
Proof.
  revert matches called. induction cmds as [|x l IH]; intros matches called;
    cbn [findNextLoop].
  - destruct matches as [|m [|? ?]]; intros [= <- _] || intros [=].
    right. apply list_elem_of_here.
  - destruct (_ || _).
    + intros [= <- _]. left. apply list_elem_of_here.
    + destruct E.
      * destruct (HasNameOrAliasPrefix x next called) as [b called1].
        intros [Hin|Hin]%IH; [left; by apply list_elem_of_further|].
        destruct b; [|by right].
        apply elem_of_app in Hin as [Hin|Hin%list_elem_of_singleton]; [by right|].
        subst. left. apply list_elem_of_here.
      * intros [Hin|Hin]%IH; [left; by apply list_elem_of_further|by right].
Qed.

Lemma height_child c cmd : cmd ∈ commands c -> (height cmd < height c)%nat.
Proof.
  intros Hin. destruct c. cbn [height commands] in *.
  assert (Forall (fun k => (k <= list_max (map height commands0))%nat)
            (map height commands0)) as Hall by (by apply list_max_le).
  rewrite Forall_forall in Hall.
  specialize (Hall (height cmd)).
  assert (height cmd ∈ map height commands0) as Hm
    by (apply list_elem_of_fmap; by exists cmd).
  specialize (Hall Hm). lia.
Qed.

(** With the height of the tree as fuel, [innerfind] returns. *)
Lemma innerfind_returns E fuel parent c innerArgs called :
  (height c <= fuel)%nat -> is_Some (innerfind E fuel parent c innerArgs called).
Proof.
  revert parent c innerArgs called.
  induction fuel as [|fuel IH]; intros parent c innerArgs called Hh.
  - destruct c; cbn [height] in Hh; lia.
  - cbn [innerfind]. destruct (stripFlag innerArgs c) as [|next rest]; [by eexists|].
    destruct (findNext E c next called) as [[cmd|] called'] eqn:Ef; [|by eexists].
    apply IH. apply findNextLoop_elem_of in Ef as [Hin|Hin].
    + apply height_child in Hin. lia.
    + by apply elem_of_nil in Hin.
Qed.

Lemma Find_returns E goSyntax parent c args called :
  is_Some (Find E goSyntax parent c args called).
Proof.
  unfold Find.
  destruct (innerfind_returns E (height c) parent c args called (le_n _))
    as [[[[found parentFound] a] called'] ->].
  destruct (Commands.args found); [by eexists|].
  destruct (legacyArgs _ _ _ _). by eexists.
Qed.

End ResolverFacts.


(** ** Properties of [Traverse] *)

Module TraverseFacts.
Import Commands.

Section Traverse.

Variable EnablePrefixMatching : bool.
Variable ParseError : Type.
Variable ParseFlags : Command -> list string -> option ParseError.

Abbreviation TraverseLoop' := (TraverseLoop EnablePrefixMatching ParseError ParseFlags).
Abbreviation Traverse' := (Traverse EnablePrefixMatching ParseError ParseFlags).



Lemma HasPrefix_dash_dash arg : HasPrefix arg "--" = true -> HasPrefix arg "-" = true.
Proof.
  destruct arg as [|a arg]; cbn [HasPrefix]; [done|].
  by destruct (Ascii.eqb a "-").
Qed.




End Traverse.

(** A root without flags and its child [sub]. *)
Definition subRoot : Command :=
  mkCommand 1 "app" [] [] "" false false None ∅ None
            [SuggestionFacts.leaf 2 "sub"] false 0.

(** A flag parser that accepts everything. *)
Definition parseOk (c : Command) (flagsSeen : list string) : option string := None.



End TraverseFacts.


(** ** The other two validation passes and the order of the errors *)

Module FlagGroupsOrder.
Import FlagGroups FlagGroupsFacts.

Lemma ascii_compare_lt_trans a b c :
  Ascii.compare a b = Lt -> Ascii.compare b c = Lt -> Ascii.compare a c = Lt.
Proof.
  unfold Ascii.compare. rewrite !N.compare_lt_iff. apply N.lt_trans.
Qed.

Lemma string_compare_lt_trans s1 s2 s3 :
  String.compare s1 s2 = Lt -> String.compare s2 s3 = Lt -> String.compare s1 s3 = Lt.
Proof.
  revert s2 s3. induction s1 as [|a s1 IH]; intros [|b s2] [|c s3]; cbn; try done.
  destruct (Ascii.compare a b) eqn:Eab; [|clear IH|done].
  - apply Ascii.compare_eq_iff in Eab as ->.
    destruct (Ascii.compare b c); [apply IH|done|done].
  - intros _. destruct (Ascii.compare b c) eqn:Ebc.
    + apply Ascii.compare_eq_iff in Ebc as <-. by rewrite Eab.
    + by rewrite (ascii_compare_lt_trans a b c).
    + done.
Qed.

#[global] Instance str_le_trans : Transitive str_le.
Proof.
  intros s1 s2 s3. unfold str_le, String.leb.
  destruct (String.compare s1 s2) eqn:E12; [| |done].
  - apply String.compare_eq_iff in E12 as ->. done.
  - intros _. destruct (String.compare s2 s3) eqn:E23; [| |done]; intros _.
    + apply String.compare_eq_iff in E23 as <-. by rewrite E12.
    + by rewrite (string_compare_lt_trans s1 s2 s3).
Qed.

Lemma sortedKeys_facts (data : Status) :
  StronglySorted str_le (sortedKeys data)
  /\ NoDup (sortedKeys data)
  /\ (forall k, k ∈ sortedKeys data <-> is_Some (data !! k)).
Proof.
  split; [|split].
  - unfold sortedKeys, sortStrings. apply StronglySorted_merge_sort; apply _.
  - unfold sortedKeys. apply sortStrings_NoDup, NoDup_fst_map_to_list.
  - apply sortedKeys_elem_of.
Qed.

Lemma validateLoop_Some_split check data keys e :
  validateLoop check data keys = Some e ->
  exists l1 k l2,
    keys = (l1 ++ k :: l2)%list
    /\ (forall k', k' ∈ l1 -> check k' (default ∅ (data !! k')) = None)
    /\ check k (default ∅ (data !! k)) = Some e.
Proof.
  induction keys as [|k keys IH]; cbn [validateLoop]; [done|].
  destruct (check k (default ∅ (data !! k))) eqn:E.
  - intros [= ->]. exists [], k, keys. split; [done|]. split; [|done].
    intros k' Hk'. by apply elem_of_nil in Hk'.
  - intros (l1 & k0 & l2 & -> & Hl1 & Hk0)%IH.
    exists (k :: l1), k0, l2. split; [done|]. split; [|done].
    intros k' [->|Hk']%elem_of_cons; auto.
Qed.

(** A group of the table that the check rejects. *)
Definition fails (check : string -> gmap string bool -> option error)
    (data : Status) (k : string) : Prop :=
  exists S, data !! k = Some S /\ check k S <> None.

(** The error of a pass is that of the first group, in the order of the
    signatures, that the check rejects. *)
Lemma validateLoop_least check data e :
  validateLoop check data (sortedKeys data) = Some e ->
  exists k, check k (default ∅ (data !! k)) = Some e
            /\ fails check data k
            /\ (forall k', fails check data k' -> str_le k k').
Proof.
  intros (l1 & k & l2 & Hkeys & Hl1 & Hk)%validateLoop_Some_split.
  destruct (sortedKeys_facts data) as (Hsorted & Hnd & Hin).
  exists k. split; [done|].
  assert (is_Some (data !! k)) as [S HS].
  { apply Hin. rewrite Hkeys. apply elem_of_app. right. apply list_elem_of_here. }
  split.
  - exists S. split; [done|]. rewrite HS in Hk. simpl in Hk. congruence.
  - intros k' (S' & HS' & Hfail).
    assert (k' ∈ sortedKeys data) as Hk' by (apply Hin; by eexists).
    rewrite Hkeys in Hk', Hsorted.
    apply elem_of_app in Hk' as [Hk'|Hk'].
    + exfalso. apply Hfail. specialize (Hl1 k' Hk'). by rewrite HS' in Hl1.
    + apply elem_of_cons in Hk' as [->|Hk'].
      * destruct (str_le_total k k); done.
      * apply StronglySorted_app in Hsorted as (_ & _ & Hsorted).
        apply StronglySorted_cons in Hsorted as [Hall _].
        rewrite Forall_forall in Hall. by apply Hall.
Qed.

Lemma validateLoop_no_failure check data :
  validateLoop check data (sortedKeys data) = None <->
  (forall k, ~ fails check data k).
Proof.
  rewrite validateLoop_None. split.
  - intros H k (S & HS & Hf). apply Hf.
    specialize (H k). rewrite HS in H. apply H.
    apply sortedKeys_elem_of. by eexists.
  - intros H k [S HS]%sortedKeys_elem_of. rewrite HS. simpl.
    destruct (check k S) eqn:E; [|done].
    exfalso. apply (H k). exists S. split; [done|congruence].
Qed.

Lemma ValidateFlagGroups_first (flags : FlagSet) (e : error) :
  ValidateFlagGroups false flags = Some e ->
  let req := statusTable requiredAsGroupAnnotation flags in
  let one := statusTable oneRequiredAnnotation flags in
  let ex := statusTable mutuallyExclusiveAnnotation flags in
  match e with
  | ErrRequiredTogether g _ =>
      fails checkRequire req g
      /\ (forall g', fails checkRequire req g' -> str_le g g')
  | ErrOneRequired g =>
      (forall g', ~ fails checkRequire req g')
      /\ fails checkOneRequired one g
      /\ (forall g', fails checkOneRequired one g' -> str_le g g')
  | ErrMutuallyExclusive g _ =>
      (forall g', ~ fails checkRequire req g')
      /\ (forall g', ~ fails checkOneRequired one g')
      /\ fails checkExclusive ex g
      /\ (forall g', fails checkExclusive ex g' -> str_le g g')
  end.
Proof.
  rewrite ValidateFlagGroups_unfold. intros He req one ex.
  unfold validateRequireFlagGroups, validateOneRequiredFlagGroups,
    validateExclusiveFlagGroups in He.
  destruct (validateLoop checkRequire _ _) as [e1|] eqn:E1.
  { injection He as ->.
    apply validateLoop_least in E1 as (k & Hc & Hf & Hleast).
    apply checkRequire_Some in Hc as [_ ->]. by split. }
  rewrite validateLoop_no_failure in E1.
  destruct (validateLoop checkOneRequired _ _) as [e2|] eqn:E2.
  { injection He as ->.
    apply validateLoop_least in E2 as (k & Hc & Hf & Hleast).
    apply checkOneRequired_Some in Hc as ->. by repeat split. }
  rewrite validateLoop_no_failure in E2.
  apply validateLoop_least in He as (k & Hc & Hf & Hleast).
  apply checkExclusive_Some in Hc as ->. by repeat split.
Qed.

(** X1.  [sortedKeys] returns every key of the table once, in ascending
    order. *)
Theorem sortedKeys_sorted (data : Status) :
  StronglySorted str_le (sortedKeys data)
  /\ NoDup (sortedKeys data)
  /\ (forall k, k ∈ sortedKeys data <-> is_Some (data !! k)).
Proof. exact (sortedKeys_facts data). Qed.

(** X2.  The error of [ValidateFlagGroups] is that of the first pass, in the
    order required-together, one-required, mutually exclusive, that has a
    group it rejects, and within that pass of the least such signature. *)
Theorem first_failure (flags : FlagSet) (e : error) :
  ValidateFlagGroups false flags = Some e ->
  let req := statusTable requiredAsGroupAnnotation flags in
  let one := statusTable oneRequiredAnnotation flags in
  let ex := statusTable mutuallyExclusiveAnnotation flags in
  match e with
  | ErrRequiredTogether g _ =>
      fails checkRequire req g
      /\ (forall g', fails checkRequire req g' -> str_le g g')
  | ErrOneRequired g =>
      (forall g', ~ fails checkRequire req g')
      /\ fails checkOneRequired one g
      /\ (forall g', fails checkOneRequired one g' -> str_le g g')
  | ErrMutuallyExclusive g _ =>
      (forall g', ~ fails checkRequire req g')
      /\ (forall g', ~ fails checkOneRequired one g')
      /\ fails checkExclusive ex g
      /\ (forall g', fails checkExclusive ex g' -> str_le g g')
  end.
Proof. exact (ValidateFlagGroups_first flags e). Qed.

(** The flags [a] and [c] changed, [b] and [d] not, with the groups of [c],
    [d] and of [a], [b] declared required together in this order. *)
Definition abcdFlags : FlagSet :=
  <["a" := plainFlag 1 true]> (<["b" := plainFlag 2 false]>
    (<["c" := plainFlag 3 true]> (<["d" := plainFlag 4 false]> ∅))).

Definition twoGroups : FlagSet :=
  default ∅ (MarkFlagsRequiredTogether ["c"; "d"] abcdFlags
               ≫= MarkFlagsRequiredTogether ["a"; "b"]).

Lemma first_failure_witness :
  ValidateFlagGroups false twoGroups = Some (ErrRequiredTogether "a b" ["b"])
  /\ fails checkRequire (statusTable requiredAsGroupAnnotation twoGroups) "a b"
  /\ (forall g', fails checkRequire (statusTable requiredAsGroupAnnotation twoGroups) g'
                 -> str_le "a b" g').
Proof.
  assert (ValidateFlagGroups false twoGroups = Some (ErrRequiredTogether "a b" ["b"]))
    as Hv by (vm_compute; reflexivity).
  exact (conj Hv (first_failure twoGroups _ Hv)).
Defined.

(** *** The one-required and the mutually exclusive pass, group by group *)








(** The flags [a] and [c] changed, [b] not, mutually exclusive. *)
Definition acExclusive : FlagSet :=
  default ∅ (MarkFlagsMutuallyExclusive ["a"; "b"; "c"] (abcFlags true false true)).


End FlagGroupsOrder.


(** ** Declaring a flag group ([MarkFlagsRequiredTogether] and its siblings) *)

Module FlagGroupsDeclare.
Import FlagGroups FlagGroupsFacts.

(** What one turn of the loop does to the flag it names: the signature is
    appended to the annotation of the kind. *)
Definition addSignature (annotation g : string) (f : Flag) : Flag :=
  pflag.withAnnotation annotation (annotationOf annotation f ++ [g]) f.

Lemma markLoop_lookup annotation flagNames vs fs fs' n :
  markLoop annotation flagNames vs fs = Some fs' ->
  fs' !! n
  = Nat.iter (count_occ String.string_dec vs n) (addSignature annotation (Join flagNames))
      <$> fs !! n.
Proof.
  revert fs. induction vs as [|v vs IH]; intros fs; cbn [markLoop].
  - intros [= <-]. cbn. by destruct (fs !! n).
  - unfold pflag.Lookup, pflag.SetAnnotation.
    destruct (fs !! v) as [fv|] eqn:Ev; [|done].
    intros ->%IH. cbn [count_occ].
    destruct (String.string_dec v n) as [->|Hne].
    + rewrite lookup_insert_eq, Ev. cbn [fmap option_fmap option_map].
      by rewrite Nat.iter_succ_r.
    + by rewrite lookup_insert_ne.
Qed.

Lemma markLoop_hasAllFlags annotation flagNames vs fs :
  markLoop annotation flagNames vs fs = None <-> hasAllFlags fs vs = false.
Proof.
  revert fs. induction vs as [|v vs IH]; intros fs; cbn [markLoop hasAllFlags]; [done|].
  unfold pflag.Lookup, pflag.SetAnnotation.
  destruct (fs !! v) as [fv|] eqn:Ev; [|done].
  rewrite IH.
  assert (forall l, hasAllFlags (<[v := addSignature annotation (Join flagNames) fv]> fs) l
                    = hasAllFlags fs l) as Hsame.
  { induction l as [|a l IHl]; cbn [hasAllFlags]; [done|]. unfold pflag.Lookup.
    rewrite IHl. destruct (decide (v = a)) as [->|Hne].
    - by rewrite lookup_insert_eq, Ev.
    - by rewrite lookup_insert_ne. }
  unfold addSignature in Hsame. by rewrite Hsame.
Qed.

Lemma iter_addSignature annotation g k f :
  let f' := Nat.iter k (addSignature annotation g) f in
  addr f' = addr f /\ Shorthand f' = Shorthand f /\ Changed f' = Changed f
  /\ NoOptDefVal f' = NoOptDefVal f /\ Hidden f' = Hidden f
  /\ annotationOf annotation f' = (annotationOf annotation f ++ replicate k g)%list
  /\ (forall key, key <> annotation -> Annotations f' !! key = Annotations f !! key).
Proof.
  induction k as [|k IH]; cbv zeta in *; cbn [replicate].
  - cbn [Nat.iter nat_rect]. rewrite app_nil_r. by repeat split.
  - rewrite Nat.iter_succ.
    set (f1 := Nat.iter k (addSignature annotation g) f) in *.
    destruct IH as (H1 & H2 & H3 & H4 & H5 & H6 & H7).
    assert (replicate k g ++ [g] = g :: replicate k g)%list as Hrep.
    { clear. induction k as [|k IH]; cbn; [done|]. by rewrite IH. }
    unfold addSignature, pflag.withAnnotation.
    cbn [addr Shorthand Changed NoOptDefVal Hidden].
    split; [done|]. split; [done|]. split; [done|]. split; [done|]. split; [done|].
    split.
    + unfold annotationOf in *. cbn [Annotations]. rewrite lookup_insert_eq.
      cbn [default from_option id]. by rewrite H6, <- app_assoc, Hrep.
    + intros key Hkey. cbn [Annotations]. rewrite lookup_insert_ne by done.
      by apply H7.
Qed.

(** X5.  Declaring a group panics exactly when one of the names is not a
    flag of the set.  When it returns, the flags it does not name are as
    before, and a flag it names has the signature appended to its annotation
    of the kind, once for each time it is named, and nothing else changed. *)
Theorem mark_group (annotation : string) (ms : list string) (fs : FlagSet) :
  (markLoop annotation ms ms fs = None <-> hasAllFlags fs ms = false)
  /\ (forall fs' n,
        markLoop annotation ms ms fs = Some fs' ->
        match fs !! n, fs' !! n with
        | Some f, Some f' =>
            addr f' = addr f /\ Shorthand f' = Shorthand f /\ Changed f' = Changed f
            /\ NoOptDefVal f' = NoOptDefVal f /\ Hidden f' = Hidden f
            /\ annotationOf annotation f'
               = (annotationOf annotation f
                    ++ replicate (count_occ String.string_dec ms n) (Join ms))%list
            /\ (forall key, key <> annotation ->
                            Annotations f' !! key = Annotations f !! key)
            /\ (n ∉ ms -> f' = f)
        | None, None => True
        | _, _ => False
        end).
Proof.
  split; [apply markLoop_hasAllFlags|].
  intros fs' n Hmark. rewrite (markLoop_lookup _ _ _ _ _ n Hmark).
  destruct (fs !! n) as [f|]; cbn [fmap option_fmap option_map]; [|done].
  destruct (iter_addSignature annotation (Join ms)
              (count_occ String.string_dec ms n) f) as (H1 & H2 & H3 & H4 & H5 & H6 & H7).
  repeat split; try done.
  intros Hn. rewrite (proj1 (count_occ_not_In String.string_dec ms n)); [done|].
  by rewrite <- list_elem_of_In.
Qed.

Lemma Split_no_space s : Contains s " " = false -> Split s = [s].
Proof.
  induction s as [|a s IH]; cbn [Contains HasPrefix Split]; [done|].
  destruct (Ascii.eqb a " "); [done|]. cbn [orb]. intros ->%IH. done.
Qed.

Lemma Split_Join_id ms :
  ms <> [] -> Forall (fun n => Contains n " " = false) ms -> Split (Join ms) = ms.
Proof.
  intros Hne Hall. induction Hall as [|x ms Hx Hall IH]; [done|].
  destruct ms as [|y ms].
  - cbn [Join]. by apply Split_no_space.
  - change (Join (x :: y :: ms)) with (x ++ " " ++ Join (y :: ms))%string.
    rewrite Split_app_space, (Split_no_space x Hx), IH by done. done.
Qed.

(** X6.  The signature of a non-empty list of names without spaces splits
    back into the names, and a group declared over such names, on flags none
    of which carried the signature, is carried by exactly the flags it names,
    all of them in the flag set. *)
Theorem mark_declares (annotation : string) (ms : list string) (fs fs' : FlagSet) :
  markLoop annotation ms ms fs = Some fs' ->
  ms <> [] ->
  Forall (fun n => Contains n " " = false) ms ->
  carriers annotation fs (Join ms) = ∅ ->
  Split (Join ms) = ms
  /\ hasAllFlags fs' (Split (Join ms)) = true
  /\ declared annotation fs' (Join ms).
Proof.
  intros Hmark Hne Hsp Hfresh.
  pose proof (Split_Join_id ms Hne Hsp) as Hsplit. rewrite Hsplit.
  split; [done|]. split.
  - rewrite (marked_hasAllFlags _ _ _ _ _ _ Hmark).
    destruct (hasAllFlags fs ms) eqn:E; [done|].
    apply markLoop_hasAllFlags with (annotation := annotation) (flagNames := ms) in E.
    congruence.
  - intros n f' Hf'. cbn. rewrite Hsplit.
    pose proof (markLoop_lookup _ _ _ _ _ n Hmark) as Hl. rewrite Hf' in Hl.
    destruct (fs !! n) as [f|] eqn:Ef; [|done].
    cbn [fmap option_fmap option_map] in Hl. injection Hl as ->.
    destruct (iter_addSignature annotation (Join ms)
                (count_occ String.string_dec ms n) f) as (_ & _ & _ & _ & _ & H6 & _).
    rewrite H6, elem_of_app.
    assert (Join ms ∉ annotationOf annotation f) as Hnot.
    { intros Hin. assert (carriers annotation fs (Join ms) !! n = Some f) as Hc
        by (by apply map_lookup_filter_Some).
      by rewrite Hfresh in Hc. }
    split.
    + intros [?|Hin]; [done|].
      apply elem_of_replicate in Hin as [_ Hk].
      apply list_elem_of_In. apply (count_occ_In String.string_dec). lia.
    + intros Hin. right. apply elem_of_replicate. split; [done|].
      apply list_elem_of_In, (count_occ_In String.string_dec) in Hin. lia.
Qed.

Lemma mark_group_witness :
  MarkFlagsRequiredTogether ["a"; "z"] abFlags = None
  /\ exists fs', MarkFlagsRequiredTogether ["a"; "b"] abFlags = Some fs'
                 /\ annotationOf requiredAsGroupAnnotation <$> fs' !! "a" = Some ["a b"].
Proof.
  split.
  - apply (proj1 (mark_group requiredAsGroupAnnotation ["a"; "z"] abFlags)).
    vm_compute; reflexivity.
  - exists (abDeclared ["a"; "b"]). split; vm_compute; reflexivity.
Defined.

Lemma mark_declares_witness :
  Split (Join ["a"; "b"]) = ["a"; "b"]
  /\ hasAllFlags (abDeclared ["a"; "b"]) (Split (Join ["a"; "b"])) = true
  /\ declared requiredAsGroupAnnotation (abDeclared ["a"; "b"]) (Join ["a"; "b"]).
Proof.
  apply (mark_declares requiredAsGroupAnnotation ["a"; "b"] abFlags).
  - vm_compute; reflexivity.
  - discriminate.
  - repeat constructor.
  - vm_compute; reflexivity.
Defined.

End FlagGroupsDeclare.


(** * Required flags: [ValidateRequiredFlags] after [MarkFlagRequired] *)

Module RequiredFlags.
Import FlagGroups FlagGroupsCompletion FlagGroupsFacts FlagGroupsOrder.

Section Validate.

Variable BashCompOneRequiredFlag : string.

(** The error of [ValidateRequiredFlags], with the names its message lists
    between quotes, separated by commas. *)
Inductive error := ErrRequiredFlags (missingFlagNames : list string).

(** The callback [ValidateRequiredFlags] gives to [flags.VisitAll], threading
    the slice of missing names; [None] is the panic of
    [requiredAnnotation[0]] on an annotation without values.  The source
    declares the slice as [missingFlagName] and appends to
    [missingFlagNames]: one slice is meant. *)
Definition visitRequired (name : string) (pflag : Flag)
    (missingFlagNames : option (list string)) : option (list string) :=
  match missingFlagNames with
  | None => None
  | Some missing =>
      match Annotations pflag !! BashCompOneRequiredFlag with
      | None => Some missing
      | Some [] => None
      | Some (first :: _) =>
          if String.eqb first "true" && negb (Changed pflag)
          then Some (missing ++ [name])%list
          else Some missing
      end
  end.

(** [c.ValidateRequiredFlags()] on the flag set of the command: [None] is a
    panic, [Some None] the nil error. *)
Definition ValidateRequiredFlags (DisableFlagParsing : bool) (flags : FlagSet)
    : option (option error) :=
  if DisableFlagParsing then Some None
  else
    match pflag.VisitAll flags visitRequired (Some []) with
    | None => None
    | Some missingFlagNames =>
        if (0 <? length missingFlagNames)%nat
        then Some (Some (ErrRequiredFlags missingFlagNames))
        else Some None
    end.

(** The flag has the annotation of required flags, without a value. *)
Definition unindexable (f : Flag) : Prop :=
  Annotations f !! BashCompOneRequiredFlag = Some [].

(** The flag is required, by the first value of its annotation, and not
    changed. *)
Definition missing (f : Flag) : Prop :=
  (exists rest, Annotations f !! BashCompOneRequiredFlag = Some ("true" :: rest))
  /\ Changed f = false.

Definition unindexableb (f : Flag) : bool :=
  match Annotations f !! BashCompOneRequiredFlag with
  | Some [] => true
  | _ => false
  end.

Definition missingb (f : Flag) : bool :=
  match Annotations f !! BashCompOneRequiredFlag with
  | Some (first :: _) => String.eqb first "true" && negb (Changed f)
  | _ => false
  end.

(** The names the validation reports, in the order of the visit. *)
Definition missingNames (flags : FlagSet) : list string :=
  (filter (fun p : string * Flag => missingb p.2 = true) (pflag.sortedFormal flags)).*1.

(** What a validation that returned reports about the flag [n]. *)
Definition reported (r : option error) (n : string) : Prop :=
  match r with
  | Some (ErrRequiredFlags names) => n ∈ names
  | None => False
  end.

End Validate.

End RequiredFlags.

Module RequiredFlagsFacts.
Import FlagGroups FlagGroupsCompletion FlagGroupsFacts FlagGroupsOrder RequiredFlags.

#[global] Instance name_le_trans : Transitive pflag.name_le.
Proof. intros x y z. unfold pflag.name_le. apply str_le_trans. Qed.

#[global] Instance name_le_total : Total pflag.name_le.
Proof. intros x y. unfold pflag.name_le. apply str_le_total. Qed.



Section Validate.

Variable BashCompOneRequiredFlag : string.

Abbreviation visitRequired := (RequiredFlags.visitRequired BashCompOneRequiredFlag).
Abbreviation ValidateRequiredFlags :=
  (RequiredFlags.ValidateRequiredFlags BashCompOneRequiredFlag).
Abbreviation unindexable := (RequiredFlags.unindexable BashCompOneRequiredFlag).
Abbreviation missing := (RequiredFlags.missing BashCompOneRequiredFlag).
Abbreviation unindexableb := (RequiredFlags.unindexableb BashCompOneRequiredFlag).
Abbreviation missingb := (RequiredFlags.missingb BashCompOneRequiredFlag).
Abbreviation missingNames := (RequiredFlags.missingNames BashCompOneRequiredFlag).

Lemma unindexableb_spec f : unindexableb f = true <-> unindexable f.
Proof.
  unfold RequiredFlags.unindexableb, RequiredFlags.unindexable.
  destruct (Annotations f !! BashCompOneRequiredFlag) as [[|a l]|]; split; congruence.
Qed.

Lemma missingb_spec f : missingb f = true <-> missing f.
Proof.
  unfold RequiredFlags.missingb, RequiredFlags.missing.
  destruct (Annotations f !! BashCompOneRequiredFlag) as [[|a l]|].
  - split; [done|]. by intros [[rest ?] _].
  - rewrite andb_true_iff, negb_true_iff, String.eqb_eq. split.
    + intros [-> ?]. split; [by exists l|done].
    + intros [[rest [= -> _]] ?]. done.
  - split; [done|]. by intros [[rest ?] _].
Qed.

Lemma visit_panicked (l : list (string * Flag)) :
  foldl (fun acc p => visitRequired p.1 p.2 acc) None l = None.
Proof. induction l as [|p l IH]; [done|]. cbn [foldl]. exact IH. Qed.

Lemma visit_step n f acc :
  visitRequired n f (Some acc) =
    if unindexableb f then None
    else if missingb f then Some (acc ++ [n])%list else Some acc.
Proof.
  unfold RequiredFlags.visitRequired, RequiredFlags.unindexableb,
    RequiredFlags.missingb.
  by destruct (Annotations f !! BashCompOneRequiredFlag) as [[|a vs]|].
Qed.

(** The visit, once and for all: it panics at the first annotation without
    value, and otherwise appends the names of the missing flags. *)
Lemma visit_fold (l : list (string * Flag)) (acc : list string) :
  foldl (fun acc p => visitRequired p.1 p.2 acc) (Some acc) l =
    if existsb (fun p => unindexableb p.2) l then None
    else Some (acc ++ (filter (fun p : string * Flag => missingb p.2 = true) l).*1)%list.
Proof.
  revert acc. induction l as [|[n f] l IH]; intros acc.
  - cbn. by rewrite app_nil_r.
  - cbn [foldl existsb fst snd]. rewrite filter_cons, visit_step. cbn [fst snd].
    destruct (unindexableb f); cbn [orb]; [apply visit_panicked|].
    destruct (missingb f) eqn:Em; rewrite IH.
    + rewrite decide_True by done.
      destruct (existsb _ l); [done|]. cbn [fmap list_fmap fst].
      by rewrite <- app_assoc.
    + rewrite decide_False by done. done.
Qed.

Lemma ValidateRequiredFlags_unfold flags :
  ValidateRequiredFlags false flags =
    if existsb (fun p => unindexableb p.2) (pflag.sortedFormal flags) then None
    else if (0 <? length (missingNames flags))%nat
         then Some (Some (ErrRequiredFlags (missingNames flags)))
         else Some None.
Proof.
  unfold RequiredFlags.ValidateRequiredFlags, pflag.VisitAll.
  rewrite visit_fold. by destruct (existsb _ _).
Qed.

Lemma panics_iff flags :
  existsb (fun p => unindexableb p.2) (pflag.sortedFormal flags) = true
  <-> exists n f, flags !! n = Some f /\ unindexable f.
Proof.
  rewrite existsb_exists. split.
  - intros ([n f] & Hin%list_elem_of_In%sortedFormal_elem_of & Hu%unindexableb_spec).
    by exists n, f.
  - intros (n & f & Hf & Hu). exists (n, f). split.
    + by apply list_elem_of_In, sortedFormal_elem_of.
    + by apply unindexableb_spec.
Qed.

Lemma missingNames_elem_of flags n :
  n ∈ missingNames flags <-> exists f, flags !! n = Some f /\ missing f.
Proof.
  unfold RequiredFlags.missingNames. rewrite list_elem_of_fmap. split.
  - intros ([n' f] & -> & [Hm Hin]%list_elem_of_filter). cbn [fst snd] in *.
    exists f. split; [by apply sortedFormal_elem_of|by apply missingb_spec].
  - intros (f & Hf & Hm). exists (n, f). split; [done|].
    apply list_elem_of_filter. split; [by apply missingb_spec|].
    by apply sortedFormal_elem_of.
Qed.




(** When no flag has the annotation without value, the validation returns,
    and reports exactly the missing flags. *)
Lemma ValidateRequiredFlags_reported (flags : FlagSet) :
  (forall n f, flags !! n = Some f -> ~ unindexable f) ->
  exists r,
    ValidateRequiredFlags false flags = Some r
    /\ (forall n, reported r n <-> exists f, flags !! n = Some f /\ missing f).
Proof.
  intros Hnu. rewrite ValidateRequiredFlags_unfold.
  destruct (existsb _ (pflag.sortedFormal flags)) eqn:Ex.
  - apply panics_iff in Ex as (n & f & Hf & Hu). by destruct (Hnu n f Hf).
  - destruct (missingNames flags) as [|a l] eqn:En; cbn [length Nat.ltb Nat.leb].
    + exists None. split; [done|]. intros n. cbn [reported].
      rewrite <- missingNames_elem_of, En. split; [done|]. by intros ?%elem_of_nil.
    + exists (Some (ErrRequiredFlags (a :: l))). split; [done|]. intros n.
      cbn [reported]. by rewrite <- missingNames_elem_of, En.
Qed.

Lemma mark_then_validate (flags : FlagSet) (name : string) (f : Flag) :
  flags !! name = Some f ->
  (forall n f', flags !! n = Some f' -> n <> name -> ~ unindexable f') ->
  exists flags' r,
    MarkFlagRequired BashCompOneRequiredFlag flags name = Some flags'
    /\ ValidateRequiredFlags false flags' = Some r
    /\ (reported r name <-> Changed f = false)
    /\ (forall n, n <> name ->
          reported r n <-> exists f', flags !! n = Some f' /\ missing f').
Proof.
  intros Hf Hnu. unfold MarkFlagRequired, pflag.SetAnnotation. rewrite Hf.
  set (f1 := pflag.withAnnotation BashCompOneRequiredFlag ["true"] f).
  assert (Annotations f1 !! BashCompOneRequiredFlag = Some ["true"]) as Hann
    by (unfold f1, pflag.withAnnotation; cbn [Annotations]; apply lookup_insert_eq).
  destruct (ValidateRequiredFlags_reported (<[name := f1]> flags)) as (r & Hr & Hrep).
  { intros n f' Hl. destruct (decide (n = name)) as [->|Hne].
    - rewrite lookup_insert_eq in Hl. injection Hl as <-.
      unfold RequiredFlags.unindexable. by rewrite Hann.
    - rewrite lookup_insert_ne in Hl by done. by apply (Hnu n). }
  exists (<[name := f1]> flags), r. split; [done|]. split; [done|]. split.
  - rewrite Hrep, lookup_insert_eq. split.
    + by intros (f' & [= <-] & _ & Hc).
    + intros Hc. exists f1. split; [done|]. split; [by exists []|done].
  - intros n Hne. rewrite Hrep, lookup_insert_ne by done. done.
Qed.


(** X8.  [MarkFlagRequired] on a flag of the set, followed by
    [ValidateRequiredFlags]: when no other flag has the annotation without a
    value, the validation returns; it reports the marked flag exactly when
    that flag is not changed, and any other flag exactly when it was missing
    before the marking. *)
Theorem mark_required_then_validate (flags : FlagSet) (name : string) (f : Flag) :
  flags !! name = Some f ->
  (forall n f', flags !! n = Some f' -> n <> name -> ~ unindexable f') ->
  exists flags' r,
    MarkFlagRequired BashCompOneRequiredFlag flags name = Some flags'
    /\ ValidateRequiredFlags false flags' = Some r
    /\ (reported r name <-> Changed f = false)
    /\ (forall n, n <> name ->
          reported r n <-> exists f', flags !! n = Some f' /\ missing f').
Proof. exact (mark_then_validate flags name f). Qed.

End Validate.

Lemma plainFlag_indexable (key : string) (a : positive) (changed : bool) :
  ~ RequiredFlags.unindexable key (plainFlag a changed).
Proof.
  unfold RequiredFlags.unindexable, plainFlag. cbn [Annotations].
  rewrite lookup_empty. discriminate.
Qed.

Lemma abFlags_indexable (key : string) (n : string) (f : Flag) :
  abFlags !! n = Some f -> ~ RequiredFlags.unindexable key f.
Proof.
  unfold abFlags. intros Hl.
  apply lookup_insert_Some in Hl as [[_ <-]|[_ Hl]]; [apply plainFlag_indexable|].
  apply lookup_insert_Some in Hl as [[_ <-]|[_ Hl]]; [apply plainFlag_indexable|].
  by rewrite lookup_empty in Hl.
Qed.


Lemma mark_required_then_validate_witness :
  exists flags' r,
    MarkFlagRequired FlagGroupsCompletionFacts.bashCompOneRequiredFlag abFlags "b" = Some flags'
    /\ ValidateRequiredFlags FlagGroupsCompletionFacts.bashCompOneRequiredFlag false flags' = Some r
    /\ (reported r "b" <-> false = false)
    /\ (forall n, n <> "b" ->
          reported r n <->
          exists f', abFlags !! n = Some f'
                     /\ RequiredFlags.missing FlagGroupsCompletionFacts.bashCompOneRequiredFlag f').
Proof.
  apply (mark_required_then_validate FlagGroupsCompletionFacts.bashCompOneRequiredFlag abFlags "b"
           (plainFlag 2 false)).
  - vm_compute; reflexivity.
  - intros n f' Hl _. by apply (abFlags_indexable _ n).
Defined.

End RequiredFlagsFacts.


(** * The completion-time pass: what it leaves alone, and running it twice *)

Module CompletionFrame.
Import FlagGroups FlagGroupsCompletion FlagGroupsFacts FlagGroupsCompletionFacts.

Section Frame.

Variable BashCompOneRequiredFlag : string.

(** [fs'] has the flags of [fs], each with the same address, shorthand,
    changed marker and default value, and the same annotations but for the
    one of required flags. *)
Definition framed (fs fs' : FlagSet) : Prop :=
  forall n,
    match fs !! n, fs' !! n with
    | Some f, Some f' =>
        addr f' = addr f /\ Shorthand f' = Shorthand f
        /\ Changed f' = Changed f /\ NoOptDefVal f' = NoOptDefVal f
        /\ (forall key, key <> BashCompOneRequiredFlag ->
                        Annotations f' !! key = Annotations f !! key)
    | None, None => True
    | _, _ => False
    end.

Lemma framed_refl fs : framed fs fs.
Proof. intros n. destruct (fs !! n); [|done]. repeat split; auto. Qed.

Lemma framed_trans fs1 fs2 fs3 : framed fs1 fs2 -> framed fs2 fs3 -> framed fs1 fs3.
Proof.
  intros H12 H23 n. specialize (H12 n). specialize (H23 n).
  destruct (fs1 !! n), (fs2 !! n), (fs3 !! n); try done.
  destruct H12 as (A1 & A2 & A3 & A4 & A5), H23 as (B1 & B2 & B3 & B4 & B5).
  repeat split; [congruence..|].
  intros key Hkey. rewrite B5, A5; done.
Qed.

Lemma markRequired_framed fs n : framed fs (markRequired BashCompOneRequiredFlag fs n).
Proof.
  unfold markRequired, MarkFlagRequired, pflag.SetAnnotation.
  destruct (fs !! n) as [f|] eqn:E; [|apply framed_refl].
  intros n'. cbn [default from_option id].
  destruct (decide (n = n')) as [<-|Hne].
  - rewrite lookup_insert_eq, E. unfold pflag.withAnnotation.
    cbn [addr Shorthand Changed NoOptDefVal Annotations].
    repeat split; auto. intros key Hkey. by rewrite lookup_insert_ne.
  - rewrite lookup_insert_ne by done. apply framed_refl.
Qed.

Lemma hideFlag_framed fs n fs' : hideFlag fs n = Some fs' -> framed fs fs'.
Proof.
  unfold hideFlag, pflag.Lookup.
  destruct (fs !! n) as [f|] eqn:E; [|done]. intros [= <-] n'.
  destruct (decide (n = n')) as [<-|Hne].
  - rewrite lookup_insert_eq, E. unfold pflag.withHidden.
    cbn [addr Shorthand Changed NoOptDefVal Annotations]. repeat split; auto.
  - rewrite lookup_insert_ne by done. apply framed_refl.
Qed.

Lemma foldl_framed {A} (step : FlagSet -> A -> FlagSet) l fs :
  (forall fs0 a, framed fs0 (step fs0 a)) -> framed fs (foldl step fs l).
Proof.
  intros Hstep. revert fs. induction l as [|a l IH]; intros fs; cbn [foldl].
  - apply framed_refl.
  - eapply framed_trans; [apply Hstep|apply IH].
Qed.

Lemma foldlM_framed {A} (step : FlagSet -> A -> option FlagSet) l fs fs' :
  (forall fs0 a fs1, step fs0 a = Some fs1 -> framed fs0 fs1) ->
  foldlM step fs l = Some fs' -> framed fs fs'.
Proof.
  intros Hstep. revert fs. induction l as [|a l IH]; intros fs; cbn [foldlM].
  - intros [= <-]. apply framed_refl.
  - destruct (step fs a) as [fs1|] eqn:E; [|done]. intros Hl.
    eapply framed_trans; [by eapply Hstep|by apply IH].
Qed.

Lemma markGroupRequired_framed g fs :
  framed fs (markGroupRequired BashCompOneRequiredFlag g fs).
Proof. apply foldl_framed. intros fs0 n. apply markRequired_framed. Qed.

Lemma enforce_framed d flags flags' :
  enforceFlagGroupsForCompletion BashCompOneRequiredFlag d flags = Some flags' ->
  framed flags flags'.
Proof.
  unfold enforceFlagGroupsForCompletion. destruct d.
  { intros [= <-]. apply framed_refl. }
  rewrite groupTables_spec.
  set (fs1 := enforceRequiredTogether _ _ flags).
  set (fs2 := enforceOneRequired _ _ fs1).
  intros He.
  assert (framed flags fs1) as F1.
  { apply foldl_framed. intros fs0 [g S]. apply foldl_framed.
    intros fs3 [m b]. cbn [fst snd].
    destruct b; [apply markGroupRequired_framed|apply framed_refl]. }
  assert (framed fs1 fs2) as F2.
  { apply foldl_framed. intros fs0 [g S]. cbn [fst snd].
    destruct (negb _); [apply markGroupRequired_framed|apply framed_refl]. }
  assert (framed fs2 flags') as F3.
  { revert He. apply foldlM_framed. intros fs0 [g S] fs3. apply foldlM_framed.
    intros fs4 [m b] fs5. cbn [fst snd]. destruct b.
    - apply foldlM_framed. intros fs6 fName fs7.
      destruct (negb (String.eqb fName m)); [apply hideFlag_framed|].
      intros [= <-]. apply framed_refl.
    - intros [= <-]. apply framed_refl. }
  exact (framed_trans _ _ _ (framed_trans _ _ _ F1 F2) F3).
Qed.

(** The status table of a kind of group reads the names of the flags, their
    changed markers and their annotation of that kind, and nothing else. *)
Definition agree (annotation : string) (fs fs' : FlagSet) : Prop :=
  forall n,
    match fs !! n, fs' !! n with
    | Some f, Some f' =>
        Changed f' = Changed f
        /\ annotationOf annotation f' = annotationOf annotation f
    | None, None => True
    | _, _ => False
    end.

Lemma statusTable_agree annotation fs fs' :
  agree annotation fs fs' -> statusTable annotation fs' = statusTable annotation fs.
Proof.
  intros Hag. apply map_eq. intros g. rewrite !statusTable_lookup.
  assert (hasAllFlags fs' (Split g) = hasAllFlags fs (Split g)) as ->.
  { apply Bool.eq_iff_eq_true. rewrite !hasAllFlags_spec.
    split; intros H n Hn; specialize (H n Hn); specialize (Hag n);
      destruct (fs !! n), (fs' !! n); try done; by destruct H. }
  assert (bool_decide (carriers annotation fs' g <> ∅)
          = bool_decide (carriers annotation fs g <> ∅)) as ->.
  { apply bool_decide_ext. unfold carriers.
    split; intros (n & f & [Hf Hg]%map_lookup_filter_Some)%map_choose;
      specialize (Hag n); rewrite Hf in Hag; cbn [snd] in Hg.
    - destruct (fs !! n) as [f0|] eqn:E0; [|done]. destruct Hag as [_ Ha].
      intros He. assert (filter (fun p => g ∈ annotationOf annotation p.2) fs !! n
                         = Some f0) as Hl
        by (apply map_lookup_filter_Some; split; [done|]; cbn [snd]; congruence).
      by rewrite He, lookup_empty in Hl.
    - destruct (fs' !! n) as [f0|] eqn:E0; [|done]. destruct Hag as [_ Ha].
      intros He. assert (filter (fun p => g ∈ annotationOf annotation p.2) fs' !! n
                         = Some f0) as Hl
        by (apply map_lookup_filter_Some; split; [done|]; cbn [snd]; congruence).
      by rewrite He, lookup_empty in Hl. }
  destruct (_ && _); [|done]. f_equal. apply map_eq. intros n.
  rewrite !entryMap_lookup. specialize (Hag n).
  destruct (fs !! n) as [f|], (fs' !! n) as [f'|]; try done.
  destruct Hag as [-> ->]. done.
Qed.

Lemma framed_agree annotation fs fs' :
  BashCompOneRequiredFlag <> annotation -> framed fs fs' -> agree annotation fs fs'.
Proof.
  intros Hne Hfr n. specialize (Hfr n).
  destruct (fs !! n), (fs' !! n); try done.
  destruct Hfr as (_ & _ & Hc & _ & Ha). split; [done|].
  unfold annotationOf. rewrite Ha; [done|]. congruence.
Qed.

Lemma framed_ValidateFlagGroups d fs fs' :
  BashCompOneRequiredFlag <> requiredAsGroupAnnotation ->
  BashCompOneRequiredFlag <> oneRequiredAnnotation ->
  BashCompOneRequiredFlag <> mutuallyExclusiveAnnotation ->
  framed fs fs' -> ValidateFlagGroups d fs' = ValidateFlagGroups d fs.
Proof.
  intros H1 H2 H3 Hfr. rewrite !ValidateFlagGroups_unfold.
  by rewrite !(statusTable_agree _ fs fs') by (by apply framed_agree).
Qed.

(** X9.  The completion-time pass keeps the flags of the set, and of each
    flag the address, the shorthand, the changed marker, the default value
    and every annotation but the one of required flags; so, that key being
    none of the three group annotations, [ValidateFlagGroups] answers after
    the pass as before it. *)
Theorem completion_pass_frame (d : bool) (flags flags' : FlagSet) :
  BashCompOneRequiredFlag <> requiredAsGroupAnnotation ->
  BashCompOneRequiredFlag <> oneRequiredAnnotation ->
  BashCompOneRequiredFlag <> mutuallyExclusiveAnnotation ->
  enforceFlagGroupsForCompletion BashCompOneRequiredFlag d flags = Some flags' ->
  framed flags flags'
  /\ (forall d', ValidateFlagGroups d' flags' = ValidateFlagGroups d' flags).
Proof.
  intros H1 H2 H3 He. pose proof (enforce_framed d flags flags' He) as Hfr.
  split; [done|]. intros d'. by apply framed_ValidateFlagGroups.
Qed.

(** *** Running the pass on its own result *)

Lemma markRequired_id fs n :
  requiredIn BashCompOneRequiredFlag fs n ->
  markRequired BashCompOneRequiredFlag fs n = fs.
Proof.
  intros (f & Hf & Hr).
  unfold markRequired, MarkFlagRequired, pflag.SetAnnotation. rewrite Hf.
  cbn [default from_option id]. apply insert_id. rewrite Hf. f_equal.
  unfold FlagGroupsCompletion.isRequired in Hr. destruct f as [a s c nd h ann].
  unfold pflag.withAnnotation. cbn [addr Shorthand Changed NoOptDefVal Hidden Annotations] in *.
  f_equal. symmetry. by apply insert_id.
Qed.

Lemma hideFlag_id fs n : hiddenIn fs n -> hideFlag fs n = Some fs.
Proof.
  intros (f & Hf & Hh). unfold hideFlag, pflag.Lookup. rewrite Hf. f_equal.
  apply insert_id. rewrite Hf. f_equal. destruct f as [a s c nd h ann].
  unfold pflag.withHidden. cbn [addr Shorthand Changed NoOptDefVal Hidden Annotations] in *.
  by subst h.
Qed.

Lemma foldl_fixed {A} (step : FlagSet -> A -> FlagSet) l fs :
  (forall a, a ∈ l -> step fs a = fs) -> foldl step fs l = fs.
Proof.
  induction l as [|a l IH]; intros Hstep; cbn [foldl]; [done|].
  rewrite (Hstep a) by apply list_elem_of_here.
  apply IH. intros a' Ha'. apply Hstep. by apply list_elem_of_further.
Qed.

Lemma foldlM_fixed {A} (step : FlagSet -> A -> option FlagSet) l fs :
  (forall a, a ∈ l -> step fs a = Some fs) -> foldlM step fs l = Some fs.
Proof.
  induction l as [|a l IH]; intros Hstep; cbn [foldlM]; [done|].
  rewrite (Hstep a) by apply list_elem_of_here.
  apply IH. intros a' Ha'. apply Hstep. by apply list_elem_of_further.
Qed.

(** What the pass has done to the flags a group names, when it returns. *)
Lemma pass_marks flags flags' :
  enforceFlagGroupsForCompletion BashCompOneRequiredFlag false flags = Some flags' ->
  (forall g S m n,
      statusTable requiredAsGroupAnnotation flags !! g = Some S ->
      S !! m = Some true -> n ∈ Split g ->
      requiredIn BashCompOneRequiredFlag flags' n)
  /\ (forall g S n,
        statusTable oneRequiredAnnotation flags !! g = Some S ->
        (forall m, S !! m <> Some true) -> n ∈ Split g ->
        requiredIn BashCompOneRequiredFlag flags' n)
  /\ (forall g S m n,
        statusTable mutuallyExclusiveAnnotation flags !! g = Some S ->
        S !! m = Some true -> n ∈ Split g -> n <> m ->
        hiddenIn flags' n).
Proof.
  unfold enforceFlagGroupsForCompletion. rewrite groupTables_spec.
  set (fs1 := enforceRequiredTogether _ _ flags).
  set (fs2 := enforceOneRequired _ _ fs1).
  pose proof (enforceRequiredTogether_evolves BashCompOneRequiredFlag flags flags) as He1.
  pose proof (enforceOneRequired_evolves BashCompOneRequiredFlag flags fs1) as He2.
  fold fs1 in He1. fold fs2 in He2.
  pose proof (evolves_trans _ _ _ _ _ _ He1 He2) as He12.
  destruct (enforceExclusive_evolves BashCompOneRequiredFlag flags fs2 He12)
    as (fs3 & Hfs3 & He3).
  rewrite Hfs3. intros [= <-]. repeat split.
  - intros g S m n HS Hm Hn.
    eapply requiredIn_evolves; [|eapply evolves_trans; [exact He2|exact He3]].
    by eapply enforceRequiredTogether_marks.
  - intros g S n HS Hno Hn.
    eapply requiredIn_evolves; [|exact He3].
    by eapply enforceOneRequired_marks.
  - intros g S m n HS Hm Hn Hne.
    exact (enforceExclusive_hides BashCompOneRequiredFlag flags fs2 fs3 g S m n
             HS Hm He12 Hn Hne Hfs3).
Qed.

Lemma pass_twice d flags flags' :
  BashCompOneRequiredFlag <> requiredAsGroupAnnotation ->
  BashCompOneRequiredFlag <> oneRequiredAnnotation ->
  BashCompOneRequiredFlag <> mutuallyExclusiveAnnotation ->
  enforceFlagGroupsForCompletion BashCompOneRequiredFlag d flags = Some flags' ->
  enforceFlagGroupsForCompletion BashCompOneRequiredFlag d flags' = Some flags'.
Proof.
  intros H1 H2 H3 He. destruct d; [done|].
  pose proof (enforce_framed false flags flags' He) as Hfr.
  destruct (pass_marks flags flags' He) as (M1 & M2 & M3).
  unfold enforceFlagGroupsForCompletion. rewrite groupTables_spec.
  rewrite !(statusTable_agree _ flags flags') by (by apply framed_agree).
  assert (enforceRequiredTogether BashCompOneRequiredFlag
            (statusTable requiredAsGroupAnnotation flags) flags' = flags') as ->.
  { unfold enforceRequiredTogether. apply foldl_fixed.
    intros [g S] HS%elem_of_map_to_list. apply foldl_fixed.
    intros [m b] Hm%elem_of_map_to_list. cbn [fst snd]. destruct b; [|done].
    unfold markGroupRequired. apply foldl_fixed. intros n Hn.
    apply markRequired_id. by apply (M1 g S m n). }
  assert (enforceOneRequired BashCompOneRequiredFlag
            (statusTable oneRequiredAnnotation flags) flags' = flags') as ->.
  { unfold enforceOneRequired. apply foldl_fixed.
    intros [g S] HS%elem_of_map_to_list. cbn [fst snd].
    destruct (rangeUntilSet (map_to_list S) false) eqn:Er; [done|]. cbn [negb].
    rewrite no_member_set in Er.
    unfold markGroupRequired. apply foldl_fixed. intros n Hn.
    apply markRequired_id. by apply (M2 g S n). }
  unfold enforceExclusive. apply foldlM_fixed.
  intros [g S] HS%elem_of_map_to_list. apply foldlM_fixed.
  intros [m b] Hm%elem_of_map_to_list. cbn [fst snd]. destruct b; [|done].
  apply foldlM_fixed. intros n Hn.
  destruct (String.eqb n m) eqn:En; [done|]. cbn [negb].
  apply String.eqb_neq in En. apply hideFlag_id. by apply (M3 g S m n).
Qed.

(** X10.  The completion-time pass is idempotent: run on the flag set it
    left, it returns that same flag set. *)
Theorem completion_pass_idempotent (d : bool) (flags flags' : FlagSet) :
  BashCompOneRequiredFlag <> requiredAsGroupAnnotation ->
  BashCompOneRequiredFlag <> oneRequiredAnnotation ->
  BashCompOneRequiredFlag <> mutuallyExclusiveAnnotation ->
  enforceFlagGroupsForCompletion BashCompOneRequiredFlag d flags = Some flags' ->
  enforceFlagGroupsForCompletion BashCompOneRequiredFlag d flags' = Some flags'.
Proof. exact (pass_twice d flags flags'). Qed.

End Frame.

(** The flags [a] and [c] (changed) and [b], mutually exclusive, after the
    pass. *)
Definition acExclusiveEnforced : FlagSet :=
  default ∅ (enforceFlagGroupsForCompletion bashCompOneRequiredFlag false
               FlagGroupsOrder.acExclusive).

Lemma key_apart :
  bashCompOneRequiredFlag <> requiredAsGroupAnnotation
  /\ bashCompOneRequiredFlag <> oneRequiredAnnotation
  /\ bashCompOneRequiredFlag <> mutuallyExclusiveAnnotation.
Proof. repeat split; discriminate. Qed.

Lemma completion_pass_frame_witness :
  framed bashCompOneRequiredFlag FlagGroupsOrder.acExclusive acExclusiveEnforced
  /\ (forall d', ValidateFlagGroups d' acExclusiveEnforced
                 = ValidateFlagGroups d' FlagGroupsOrder.acExclusive).
Proof.
  apply (completion_pass_frame bashCompOneRequiredFlag false).
  - exact (proj1 key_apart).
  - exact (proj1 (proj2 key_apart)).
  - exact (proj2 (proj2 key_apart)).
  - vm_compute; reflexivity.
Defined.

Lemma completion_pass_idempotent_witness :
  enforceFlagGroupsForCompletion bashCompOneRequiredFlag false acExclusiveEnforced
  = Some acExclusiveEnforced.
Proof.
  apply (completion_pass_idempotent bashCompOneRequiredFlag false
           FlagGroupsOrder.acExclusive).
  - exact (proj1 key_apart).
  - exact (proj1 (proj2 key_apart)).
  - exact (proj2 (proj2 key_apart)).
  - vm_compute; reflexivity.
Defined.

End CompletionFrame.


(** * The registry of completion hooks, call after call *)

Module RegistryFacts.
Import Completions.

Section Registry.

Context {CompletionFunc : Type}.
Implicit Types (st : State CompletionFunc) (f g : CompletionFunc).

Lemma RUnlock_RLock (m locked : RWMutex) : RLock m = Some locked -> RUnlock locked = m.
Proof.
  destruct m as [| |n]; cbn [RLock]; intros [= <-]; cbn [RUnlock]; [done|].
  rewrite (proj2 (Pos.eqb_neq _ _)) by lia. by rewrite Pos.pred_succ.
Qed.

Lemma Get_outcome flags flagName st :
  (GetFlagCompletionFunc flags flagName st = None
   <-> is_Some (Command_Flag flags flagName) /\ flagCompletionMutex st = WriteLocked)
  /\ (forall completionFunc exists_ st',
        GetFlagCompletionFunc flags flagName st
        = Some ((completionFunc, exists_), st') ->
        st' = st
        /\ (exists_ = true <-> is_Some completionFunc)
        /\ (forall f, completionFunc = Some f <->
                      exists flag, Command_Flag flags flagName = Some flag
                                   /\ flagCompletionFunctions st !! addr flag = Some f)).
Proof.
  unfold GetFlagCompletionFunc.
  destruct (Command_Flag flags flagName) as [flag|] eqn:Hflag.
  - destruct st as [funcs m]; cbn [flagCompletionFunctions flagCompletionMutex].
    destruct (RLock m) as [locked|] eqn:Hl.
    + split.
      * split; [done|]. intros [_ ->]. done.
      * intros completionFunc exists_ st' [= <- <- <-].
        rewrite (RUnlock_RLock m locked Hl). split; [done|]. split.
        -- apply bool_decide_eq_true.
        -- intros f. split; [intros Hf; by exists flag|].
           by intros (flag' & [= <-] & Hf).
    + split; [|done]. split; [|done]. intros _. split; [by eexists|].
      by destruct m.
  - split.
    + split; [done|]. by intros [[? ?] _].
    + intros completionFunc exists_ st' [= <- <- <-]. split; [done|]. split.
      * split; [done|]. by intros [? ?].
      * intros f. split; [done|]. by intros (flag' & ? & _).
Qed.

Lemma Register_outcome flags flagName f st :
  (RegisterFlagCompletionFunc flags flagName f st = None
   <-> is_Some (Command_Flag flags flagName) /\ flagCompletionMutex st <> Unlocked)
  /\ (forall e st',
        RegisterFlagCompletionFunc flags flagName f st = Some (e, st') ->
        flagCompletionMutex st' = flagCompletionMutex st
        /\ (forall a g, flagCompletionFunctions st !! a = Some g ->
                        flagCompletionFunctions st' !! a = Some g)
        /\ (forall a g, flagCompletionFunctions st' !! a = Some g ->
                        flagCompletionFunctions st !! a = Some g
                        \/ (e = None /\ g = f
                            /\ exists flag, Command_Flag flags flagName = Some flag
                                            /\ a = addr flag))
        /\ (e <> None -> st' = st)).
Proof.
  unfold RegisterFlagCompletionFunc.
  destruct (Command_Flag flags flagName) as [flag|] eqn:Hflag.
  - destruct st as [funcs m]; cbn [flagCompletionFunctions flagCompletionMutex].
    destruct m as [| |n]; cbn [Lock Unlock].
    + split; [split; [by destruct (funcs !! addr flag)|by intros [_ ?]]|].
      intros e st'. destruct (funcs !! addr flag) as [g0|] eqn:Hreg.
      * intros [= <- <-]. cbn [flagCompletionFunctions flagCompletionMutex].
        repeat split; auto.
      * intros [= <- <-]. cbn [flagCompletionFunctions flagCompletionMutex].
        split; [done|]. split; [|split; [|done]].
        -- intros a g Ha. rewrite lookup_insert_ne; [done|]. congruence.
        -- intros a g. destruct (decide (addr flag = a)) as [<-|Hne].
           ++ rewrite lookup_insert_eq. intros [= <-]. right.
              split; [done|]. split; [done|]. by exists flag.
           ++ rewrite lookup_insert_ne by done. by left.
    + split; [|done]. split; [|done]. intros _. split; [by eexists|done].
    + split; [|done]. split; [|done]. intros _. split; [by eexists|done].
  - split.
    + split; [done|]. by intros [[? ?] _].
    + intros e st' [= <- <-]. repeat split; auto.
Qed.

Lemma Register_Get flags flagName flag f st flags2 flagName2 flag2 :
  Command_Flag flags flagName = Some flag ->
  flagCompletionFunctions st !! addr flag = None ->
  flagCompletionMutex st = Unlocked ->
  Command_Flag flags2 flagName2 = Some flag2 ->
  exists st1,
    RegisterFlagCompletionFunc flags flagName f st = Some (None, st1)
    /\ GetFlagCompletionFunc flags2 flagName2 st1
       = Some ((if decide (addr flag2 = addr flag) then (Some f, true)
                else (flagCompletionFunctions st !! addr flag2,
                      bool_decide (is_Some (flagCompletionFunctions st !! addr flag2))),
                st1)).
Proof.
  intros Hflag Hnone Hm Hflag2.
  unfold RegisterFlagCompletionFunc. rewrite Hflag, Hm, Hnone. cbn [Lock Unlock].
  eexists. split; [reflexivity|].
  unfold GetFlagCompletionFunc. rewrite Hflag2.
  cbn [flagCompletionFunctions flagCompletionMutex RLock RUnlock Pos.eqb].
  destruct (decide (addr flag2 = addr flag)) as [->|Hne].
  - rewrite lookup_insert_eq. rewrite bool_decide_eq_true_2 by (by eexists). done.
  - rewrite lookup_insert_ne by done. done.
Qed.

(** X11.  [GetFlagCompletionFunc] blocks exactly when the flag exists and
    the mutex is held for writing.  When it returns, the state of the
    package, mutex included, is as before the call; the boolean says whether
    a hook is returned; and the hook returned is the one stored under the
    address of the flag the name denotes. *)
Theorem get_reads_only flags flagName st :
  (GetFlagCompletionFunc flags flagName st = None
   <-> is_Some (Command_Flag flags flagName) /\ flagCompletionMutex st = WriteLocked)
  /\ (forall completionFunc exists_ st',
        GetFlagCompletionFunc flags flagName st
        = Some ((completionFunc, exists_), st') ->
        st' = st
        /\ (exists_ = true <-> is_Some completionFunc)
        /\ (forall f, completionFunc = Some f <->
                      exists flag, Command_Flag flags flagName = Some flag
                                   /\ flagCompletionFunctions st !! addr flag = Some f)).
Proof. exact (Get_outcome flags flagName st). Qed.

(** X12.  [RegisterFlagCompletionFunc] blocks exactly when the flag exists
    and the mutex is held.  When it returns, the mutex is as it was found,
    every hook of the registry is still there, unchanged, the only hook that
    can be new is the given one, under the address of the named flag and
    with a nil error, and a call that returns an error leaves the state as
    it was. *)
Theorem register_preserves_hooks flags flagName f st :
  (RegisterFlagCompletionFunc flags flagName f st = None
   <-> is_Some (Command_Flag flags flagName) /\ flagCompletionMutex st <> Unlocked)
  /\ (forall e st',
        RegisterFlagCompletionFunc flags flagName f st = Some (e, st') ->
        flagCompletionMutex st' = flagCompletionMutex st
        /\ (forall a g, flagCompletionFunctions st !! a = Some g ->
                        flagCompletionFunctions st' !! a = Some g)
        /\ (forall a g, flagCompletionFunctions st' !! a = Some g ->
                        flagCompletionFunctions st !! a = Some g
                        \/ (e = None /\ g = f
                            /\ exists flag, Command_Flag flags flagName = Some flag
                                            /\ a = addr flag))
        /\ (e <> None -> st' = st)).
Proof. exact (Register_outcome flags flagName f st). Qed.

(** X13.  A registration for a flag without hook, with the mutex free,
    succeeds, and a lookup that follows, through any flag view and name,
    returns the registered hook and true when the name denotes a flag at the
    same address, and otherwise what the registry held for that flag
    before. *)
Theorem register_then_get flags flagName flag f st flags2 flagName2 flag2 :
  Command_Flag flags flagName = Some flag ->
  flagCompletionFunctions st !! addr flag = None ->
  flagCompletionMutex st = Unlocked ->
  Command_Flag flags2 flagName2 = Some flag2 ->
  exists st1,
    RegisterFlagCompletionFunc flags flagName f st = Some (None, st1)
    /\ GetFlagCompletionFunc flags2 flagName2 st1
       = Some ((if decide (addr flag2 = addr flag) then (Some f, true)
                else (flagCompletionFunctions st !! addr flag2,
                      bool_decide (is_Some (flagCompletionFunctions st !! addr flag2))),
                st1)).
Proof. exact (Register_Get flags flagName flag f st flags2 flagName2 flag2). Qed.

End Registry.

(** The flag [output] seen from a subcommand under the name [out]: the same
    flag, at the same address. *)
Definition inheritedFlags : FlagSet := <["out" := CompletionsFacts.outputFlag]> ∅.

Lemma register_then_get_witness :
  exists st1,
    RegisterFlagCompletionFunc CompletionsFacts.exampleFlags "output"
      CompletionsFacts.fixedAB CompletionsFacts.emptyRegistry = Some (None, st1)
    /\ GetFlagCompletionFunc inheritedFlags "out" st1
       = Some ((Some CompletionsFacts.fixedAB, true), st1).
Proof.
  destruct (register_then_get CompletionsFacts.exampleFlags "output"
              CompletionsFacts.outputFlag CompletionsFacts.fixedAB
              CompletionsFacts.emptyRegistry inheritedFlags "out"
              CompletionsFacts.outputFlag)
    as (st1 & Hr & Hg).
  - vm_compute; reflexivity.
  - vm_compute; reflexivity.
  - reflexivity.
  - vm_compute; reflexivity.
  - exists st1. split; [exact Hr|]. rewrite Hg.
    by rewrite decide_True by reflexivity.
Defined.

End RegistryFacts.


(** * Arguments and names: [isFlagArg], [Name], [argsMinusFirstX] *)

Module ArgumentFacts.
Import Commands.

Lemma isFlagArg_iff (arg : string) :
  isFlagArg arg = true <->
  HasPrefix arg "-" = true /\ arg <> "-" /\ arg <> "--".
Proof.
  unfold isFlagArg. destruct arg as [|a [|b [|c rest]]];
    cbn [String.length Nat.leb sliceTo sliceFrom String.eqb HasPrefix andb orb].
  - split; [done|]. by intros [? _].
  - destruct (Ascii.eqb_spec a "-"%char) as [Ha|Ha].
    + subst a. split; [done|]. by intros (_ & ? & _).
    + split; [done|]. by intros [? _].
  - destruct (Ascii.eqb_spec a "-"%char) as [Ha|Ha];
      [subst a|split; [done|by intros [? _]]].
    destruct (Ascii.eqb_spec b "-"%char) as [Hb|Hb]; cbn [negb andb orb].
    + subst b. split; [done|]. by intros (_ & _ & ?).
    + split; [|done]. intros _. repeat split; congruence.
  - destruct (Ascii.eqb_spec a "-"%char) as [Ha|Ha];
      [subst a|split; [by destruct (Ascii.eqb b "-")|by intros [? _]]].
    destruct (Ascii.eqb_spec b "-"%char) as [Hb|Hb]; cbn [negb andb orb];
      (split; [|done]); intros _; repeat split; congruence.
Qed.

Lemma untilSpace_spec (name : string) :
  Contains (untilSpace name) " " = false
  /\ (name = untilSpace name
      \/ exists rest, name = (untilSpace name ++ String " " rest)%string).
Proof.
  induction name as [|a s [IH1 IH2]]; cbn [untilSpace].
  - split; [done|by left].
  - destruct (Ascii.eqb_spec a " ") as [->|Ha].
    + split; [done|]. right. by exists s.
    + split.
      * cbn [Contains HasPrefix]. rewrite IH1.
        rewrite (proj2 (Ascii.eqb_neq _ _)) by done. done.
      * destruct IH2 as [<-|[rest Hr]]; [by left|]. right. exists rest.
        change (String a s = String a (untilSpace s ++ String " " rest)%string).
        f_equal. exact Hr.
Qed.

Lemma HasPrefix_app (s t : string) : HasPrefix (s ++ t)%string s = true.
Proof.
  induction s as [|a s IH]; [by destruct t|].
  change (HasPrefix (String a (s ++ t)%string) (String a s) = true).
  cbn [HasPrefix]. by rewrite Ascii.eqb_refl.
Qed.

Lemma HasPrefix_refl (s : string) : HasPrefix s s = true.
Proof. induction s as [|a s IH]; cbn [HasPrefix]; [done|]. by rewrite Ascii.eqb_refl. Qed.

Lemma Name_facts (c : Command) :
  Contains (Name c) " " = false
  /\ HasPrefix (Use c) (Name c) = true
  /\ (Use c = Name c \/ exists rest, Use c = (Name c ++ String " " rest)%string).
Proof.
  unfold Name. destruct (untilSpace_spec (Use c)) as [H1 H2].
  split; [done|]. split; [|done].
  destruct H2 as [<-|[rest Hr]].
  - apply HasPrefix_refl.
  - rewrite Hr at 1. apply HasPrefix_app.
Qed.

(** *** [argsMinusFirstX] *)

Lemma argsMinusFirstXLoop_removes fs all x n :
  forall before rest,
    (length rest <= n)%nat ->
    argsMinusFirstXLoop fs all before rest x = all
    \/ exists l1 l2,
        rest = (l1 ++ x :: l2)%list
        /\ argsMinusFirstXLoop fs all before rest x = (rev before ++ l1 ++ l2)%list
        /\ HasPrefix x "-" = false.
Proof.
  induction n as [|n IH]; intros before rest Hlen.
  - destruct rest; [|cbn in Hlen; lia]. by left.
  - destruct rest as [|s rest']; [by left|]. cbn [length] in Hlen.
    cbn [argsMinusFirstXLoop].
    destruct (String.eqb s "--"); [by left|].
    destruct (takesNextArg s fs).
    + destruct rest' as [|v rest'']; [by left|]. cbn [length] in Hlen.
      destruct (IH (v :: s :: before) rest'') as [->|(l1 & l2 & -> & -> & Hx)];
        [lia|by left|].
      right. exists (s :: v :: l1), l2. split; [done|]. split; [|done].
      cbn [rev]. by rewrite <- !app_assoc.
    + destruct (negb (HasPrefix s "-") && String.eqb s x) eqn:E.
      * apply andb_true_iff in E as [Hd ->%String.eqb_eq].
        apply negb_true_iff in Hd.
        right. exists [], rest'. done.
      * destruct (IH (s :: before) rest') as [->|(l1 & l2 & -> & -> & Hx)];
          [lia|by left|].
        right. exists (s :: l1), l2. split; [done|]. split; [|done].
        cbn [rev]. by rewrite <- !app_assoc.
Qed.

Lemma takesNextArg_plain s fs : HasPrefix s "-" = false -> takesNextArg s fs = false.
Proof.
  intros Hd. unfold takesNextArg. rewrite Hd.
  destruct (HasPrefix s "--") eqn:E;
    [by apply TraverseFacts.HasPrefix_dash_dash in E; congruence|done].
Qed.

Lemma argsMinusFirstXLoop_plain fs all x before l1 l2 :
  Forall (fun s => HasPrefix s "-" = false) (l1 ++ x :: l2) ->
  x ∉ l1 ->
  argsMinusFirstXLoop fs all before (l1 ++ x :: l2)%list x
  = (rev before ++ l1 ++ l2)%list.
Proof.
  revert before. induction l1 as [|s l1 IH]; intros before Hplain Hx;
    cbn [app argsMinusFirstXLoop] in *.
  - apply Forall_cons in Hplain as [Hd _].
    assert (String.eqb x "--" = false) as ->.
    { apply String.eqb_neq. intros ->. done. }
    rewrite takesNextArg_plain by done. rewrite Hd, String.eqb_refl. done.
  - apply Forall_cons in Hplain as [Hd Hplain].
    apply not_elem_of_cons in Hx as [Hne Hx].
    assert (String.eqb s "--" = false) as ->.
    { apply String.eqb_neq. intros ->. done. }
    rewrite takesNextArg_plain by done. rewrite Hd.
    rewrite (proj2 (String.eqb_neq s x)) by congruence. cbn [negb andb].
    rewrite IH by done. cbn [rev]. by rewrite <- !app_assoc.
Qed.

Lemma argsMinusFirstX_facts (c : Command) (args : list string) (x : string) :
  (argsMinusFirstX c args x = args
   \/ exists l1 l2,
       args = (l1 ++ x :: l2)%list
       /\ argsMinusFirstX c args x = (l1 ++ l2)%list
       /\ HasPrefix x "-" = false)
  /\ (Forall (fun s => HasPrefix s "-" = false) args ->
      forall l1 l2,
        args = (l1 ++ x :: l2)%list -> x ∉ l1 ->
        argsMinusFirstX c args x = (l1 ++ l2)%list).
Proof.
  unfold argsMinusFirstX. split.
  - destruct (argsMinusFirstXLoop_removes (flags c) args x (length args) [] args)
      as [?|(l1 & l2 & ? & ? & ?)]; [done|by left|].
    right. by exists l1, l2.
  - intros Hplain l1 l2 Hargs Hx. rewrite Hargs at 2.
    rewrite Hargs in Hplain. by rewrite argsMinusFirstXLoop_plain.
Qed.

(** X14.  [isFlagArg] holds exactly of the arguments that start with a
    dash, the lone dash and the double dash apart. *)
Theorem flag_argument (arg : string) :
  isFlagArg arg = true <->
  HasPrefix arg "-" = true /\ arg <> "-" /\ arg <> "--".
Proof. exact (isFlagArg_iff arg). Qed.

(** X15.  The name of a command holds no space, and [Use] is the name, or
    the name followed by a space and more: the name is what [Use] has before
    its first space. *)
Theorem name_before_space (c : Command) :
  Contains (Name c) " " = false
  /\ HasPrefix (Use c) (Name c) = true
  /\ (Use c = Name c \/ exists rest, Use c = (Name c ++ String " " rest)%string).
Proof. exact (Name_facts c). Qed.

(** X16.  [argsMinusFirstX] returns the arguments as they are, or without
    one occurrence of [x], the others in their order, and then [x] does not
    start with a dash; when no argument starts with a dash and [x] is among
    them, it is the first occurrence of [x] that is left out. *)
Theorem args_minus_first (c : Command) (args : list string) (x : string) :
  (argsMinusFirstX c args x = args
   \/ exists l1 l2,
       args = (l1 ++ x :: l2)%list
       /\ argsMinusFirstX c args x = (l1 ++ l2)%list
       /\ HasPrefix x "-" = false)
  /\ (Forall (fun s => HasPrefix s "-" = false) args ->
      forall l1 l2,
        args = (l1 ++ x :: l2)%list -> x ∉ l1 ->
        argsMinusFirstX c args x = (l1 ++ l2)%list).
Proof. exact (argsMinusFirstX_facts c args x). Qed.

End ArgumentFacts.


(** * The resolvers on the whole tree: [findNext], [Find], [Traverse] *)

Module ResolverMore.
Import Commands ResolverFacts ArgumentFacts.

(** [d] is [c] or a command of its subtree. *)
Inductive reaches : Command -> Command -> Prop :=
| reaches_here c : reaches c c
| reaches_child c cmd d : cmd ∈ commands c -> reaches cmd d -> reaches c d.

Lemma reaches_snoc c p d : reaches c p -> d ∈ commands p -> reaches c d.
Proof.
  induction 1 as [c|c cmd p Hin Hr IH]; intros Hd.
  - eapply reaches_child; [exact Hd|apply reaches_here].
  - eapply reaches_child; [exact Hin|by apply IH].
Qed.

Lemma reaches_trans c p d : reaches c p -> reaches p d -> reaches c d.
Proof.
  induction 1 as [c|c cmd p Hin Hr IH]; intros Hd; [done|].
  eapply reaches_child; [exact Hin|by apply IH].
Qed.

Lemma exactMatch_prefixMatch cmd next :
  exactMatch cmd next = true -> prefixMatch cmd next = true.
Proof.
  unfold exactMatch, prefixMatch, commandNameMatches, HasAlias.
  intros [Hn|Ha]%orb_true_iff; apply orb_true_iff.
  - left. apply String.eqb_eq in Hn as <-. apply HasPrefix_refl.
  - right. apply existsb_exists in Ha as (a & Hin & Heq).
    apply existsb_exists. exists a. split; [done|].
    unfold commandNameMatches in Heq. apply String.eqb_eq in Heq as <-.
    apply HasPrefix_refl.
Qed.

(** What [HasNameOrAliasPrefix] does to the names by address. *)
Lemma HasNameOrAliasPrefix_store cmd next called a :
  (HasNameOrAliasPrefix cmd next called).2 !! a <> called !! a ->
  ptr cmd = a /\ prefixMatch cmd next = true.
Proof.
  rewrite <- (HasNameOrAliasPrefix_fst cmd next called). unfold HasNameOrAliasPrefix.
  destruct (HasPrefix (Name cmd) next).
  - cbn [fst snd]. destruct (decide (ptr cmd = a)) as [<-|Hne]; [done|].
    by rewrite lookup_insert_ne.
  - destruct (aliasWithPrefix (Aliases cmd) next); cbn [fst snd]; [|done].
    destruct (decide (ptr cmd = a)) as [<-|Hne]; [done|].
    by rewrite lookup_insert_ne.
Qed.

Lemma findNextLoop_sound E cmds next matches called r called' :
  findNextLoop E cmds next matches called = (r, called') ->
  (forall cmd, r = Some cmd ->
     cmd ∈ matches
     \/ (cmd ∈ cmds /\ prefixMatch cmd next = true
         /\ (E = false -> exactMatch cmd next = true)))
  /\ (r = None -> Forall (fun x => exactMatch x next = false) cmds)
  /\ (forall a, called' !! a <> called !! a ->
        exists cmd, cmd ∈ cmds /\ ptr cmd = a /\ prefixMatch cmd next = true
                    /\ (E = false -> r = Some cmd)).
Proof.
  revert matches called. induction cmds as [|x l IH]; intros matches called;
    cbn [findNextLoop].
  - intros Hr. assert (called' = called) as -> by (by destruct matches as [|? [|? ?]];
      injection Hr).
    split; [|split; [done|done]].
    intros cmd ->. left. destruct matches as [|m [|? ?]]; try done.
    injection Hr as ->. apply list_elem_of_here.
  - fold (exactMatch x next). destruct (exactMatch x next) eqn:Ex.
    + intros [= <- <-]. split; [|split; [done|]].
      * intros cmd [= <-]. right. split; [apply list_elem_of_here|].
        split; [by apply exactMatch_prefixMatch|done].
      * intros a Ha. exists x. split; [apply list_elem_of_here|].
        destruct (decide (ptr x = a)) as [<-|Hne];
          [|by rewrite lookup_insert_ne in Ha].
        split; [done|]. split; [by apply exactMatch_prefixMatch|done].
    + destruct E.
      * pose proof (HasNameOrAliasPrefix_fst x next called) as Hfst.
        pose proof (HasNameOrAliasPrefix_store x next called) as Hst.
        destruct (HasNameOrAliasPrefix x next called) as [b called1].
        cbn [fst snd] in Hfst, Hst. subst b.
        intros (H1 & H2 & H3)%IH. split; [|split].
        -- intros cmd Hcmd. destruct (H1 cmd Hcmd) as [Hin|(Hin & Hp & _)].
           ++ destruct (prefixMatch x next) eqn:Ep; [|by left].
              apply elem_of_app in Hin as [Hin|Hin%list_elem_of_singleton]; [by left|].
              subst cmd. right. split; [apply list_elem_of_here|done].
           ++ right. split; [by apply list_elem_of_further|done].
        -- intros Hr. constructor; [done|by apply H2].
        -- intros a Ha. destruct (decide (called' !! a = called1 !! a)) as [Heq|Hne].
           ++ rewrite Heq in Ha. destruct (Hst a Ha) as [Hp Hm].
              exists x. split; [apply list_elem_of_here|done].
           ++ destruct (H3 a Hne) as (cmd & Hin & Hp & Hm & _).
              exists cmd. split; [by apply list_elem_of_further|done].
      * intros (H1 & H2 & H3)%IH. split; [|split].
        -- intros cmd Hcmd. destruct (H1 cmd Hcmd) as [Hin|(Hin & Hp & He)]; [by left|].
           right. split; [by apply list_elem_of_further|done].
        -- intros Hr. constructor; [done|by apply H2].
        -- intros a Ha. destruct (H3 a Ha) as (cmd & Hin & Hp & Hm & Hr).
           exists cmd. split; [by apply list_elem_of_further|done].
Qed.

Lemma findNext_facts E c next called r called' :
  findNext E c next called = (r, called') ->
  (forall cmd, r = Some cmd ->
     cmd ∈ commands c /\ prefixMatch cmd next = true
     /\ (E = false -> exactMatch cmd next = true))
  /\ (r = None -> Forall (fun x => exactMatch x next = false) (commands c))
  /\ (forall a, called' !! a <> called !! a ->
        exists cmd, cmd ∈ commands c /\ ptr cmd = a /\ prefixMatch cmd next = true
                    /\ (E = false -> r = Some cmd)).
Proof.
  unfold findNext. intros (H1 & H2 & H3)%findNextLoop_sound.
  split; [|done]. intros cmd Hcmd.
  destruct (H1 cmd Hcmd) as [Hin|?]; [by apply elem_of_nil in Hin|done].
Qed.

Lemma findNextLoop_exact E cmds next matches called cmd :
  List.find (fun x => exactMatch x next) cmds = Some cmd ->
  exists called',
    findNextLoop E cmds next matches called = (Some cmd, called')
    /\ called' !! ptr cmd = Some next.
Proof.
  revert matches called. induction cmds as [|x l IH]; intros matches called;
    cbn [List.find findNextLoop]; [done|].
  fold (exactMatch x next). destruct (exactMatch x next).
  - intros [= <-]. eexists. split; [done|apply lookup_insert_eq].
  - intros Hf. destruct E; [|by apply IH].
    destruct (HasNameOrAliasPrefix x next called) as [b called1]. by apply IH.
Qed.

Lemma findNextLoop_off cmds next matches called :
  findNextLoop false cmds next matches called =
    match List.find (fun x => exactMatch x next) cmds with
    | Some cmd => (Some cmd, <[ptr cmd := next]> called)
    | None => (match matches with [m] => Some m | _ => None end, called)
    end.
Proof.
  induction cmds as [|x l IH]; cbn [List.find findNextLoop].
  - by destruct matches as [|? [|? ?]].
  - fold (exactMatch x next). by destruct (exactMatch x next).
Qed.

Lemma findNext_conservative E c next called :
  findNext false c next called =
    match List.find (fun x => exactMatch x next) (commands c) with
    | Some cmd => (Some cmd, <[ptr cmd := next]> called)
    | None => (None, called)
    end
  /\ (forall cmd,
        (findNext false c next called).1 = Some cmd ->
        (findNext E c next called).1 = Some cmd
        /\ (findNext E c next called).2 !! ptr cmd = Some next).
Proof.
  unfold findNext. rewrite findNextLoop_off. split; [done|].
  intros cmd. destruct (List.find _ (commands c)) as [x|] eqn:Ef; [|done].
  cbn [fst]. intros [= ->].
  destruct (findNextLoop_exact E (commands c) next [] called cmd Ef)
    as (called' & -> & Hc). done.
Qed.

(** X17.  The command [findNext] returns is a child of the receiver whose
    name or an alias starts with the token, and matches it exactly when
    prefix matching is off; when it returns nil no child matches the token
    exactly; and the only names by address it writes are those of children
    whose name or alias starts with the token, without prefix matching that
    of the child it returns only. *)
Theorem find_next_child E c next called r called' :
  findNext E c next called = (r, called') ->
  (forall cmd, r = Some cmd ->
     cmd ∈ commands c /\ prefixMatch cmd next = true
     /\ (E = false -> exactMatch cmd next = true))
  /\ (r = None -> Forall (fun x => exactMatch x next = false) (commands c))
  /\ (forall a, called' !! a <> called !! a ->
        exists cmd, cmd ∈ commands c /\ ptr cmd = a /\ prefixMatch cmd next = true
                    /\ (E = false -> r = Some cmd)).
Proof. exact (findNext_facts E c next called r called'). Qed.

(** X18.  Without prefix matching [findNext] is the search of the first
    child that matches the token exactly, whose name by address it sets to
    the token; and what it finds so is found whether prefix matching is on or
    off, with that name set. *)
Theorem prefix_matching_conservative E c next called :
  findNext false c next called =
    match List.find (fun x => exactMatch x next) (commands c) with
    | Some cmd => (Some cmd, <[ptr cmd := next]> called)
    | None => (None, called)
    end
  /\ (forall cmd,
        (findNext false c next called).1 = Some cmd ->
        (findNext E c next called).1 = Some cmd
        /\ (findNext E c next called).2 !! ptr cmd = Some next).
Proof. exact (findNext_conservative E c next called). Qed.

Lemma find_next_child_witness :
  SuggestionFacts.leaf 2 "status" ∈ commands statRoot
  /\ prefixMatch (SuggestionFacts.leaf 2 "status") "stat" = true.
Proof.
  destruct (find_next_child true statRoot "stat" ∅
              (Some (SuggestionFacts.leaf 2 "status")) (<[2%positive := "status"]> ∅))
    as (H1 & _).
  - vm_compute; reflexivity.
  - destruct (H1 _ eq_refl) as (Ha & Hb & _). exact (conj Ha Hb).
Defined.

(** *** [Find] *)





(** *** [Traverse] *)

Section Traverse.

Variable EnablePrefixMatching : bool.
Variable ParseError : Type.
Variable ParseFlags : Command -> list string -> option ParseError.

Lemma TraverseLoop_facts rest :
  forall c args flagsSeen inFlag called r a err called',
    TraverseLoop EnablePrefixMatching ParseError ParseFlags c args flagsSeen inFlag
      rest called = (r, a, err, called') ->
    (a = args \/ a `suffix_of` rest)
    /\ match r, err with
       | Some d, None => reaches c d
       | None, Some e => exists d flagsSeen', reaches c d /\ ParseFlags d flagsSeen' = Some e
       | _, _ => False
       end.
Proof.
  induction rest as [|arg rest' IH]; intros c args flagsSeen inFlag called r a err called';
    cbn [TraverseLoop].
  - intros [= <- <- <- <-]. split; [by left|constructor].
  - destruct (buffered c inFlag arg) as [b|].
    + intros (Ha & Hr)%IH. split; [|done].
      destruct Ha as [->|Hsuf]; [by left|right]. by apply suffix_cons_r.
    + destruct (findNext EnablePrefixMatching c arg called) as [[cmd|] called1] eqn:Ef.
      * destruct (ParseFlags c flagsSeen) as [e|] eqn:Ep.
        -- intros [= <- <- <- <-]. split; [by left|].
           exists c, flagsSeen. split; [constructor|done].
        -- intros (Ha & Hr)%IH.
           apply findNext_facts in Ef as (H1 & _). destruct (H1 cmd eq_refl) as (Hin & _).
           split.
           ++ right. destruct Ha as [->|Hsuf]; by apply suffix_cons_r.
           ++ destruct r as [d|], err as [e|]; try done.
              ** by eapply reaches_child.
              ** destruct Hr as (d & fl & Hd & He). exists d, fl.
                 split; [by eapply reaches_child|done].
      * intros [= <- <- <- <-]. split; [by left|constructor].
Qed.

Lemma Traverse_facts c args called r a err called' :
  Traverse EnablePrefixMatching ParseError ParseFlags c args called = (r, a, err, called') ->
  a `suffix_of` args
  /\ match r, err with
     | Some d, None => reaches c d
     | None, Some e => exists d flagsSeen, reaches c d /\ ParseFlags d flagsSeen = Some e
     | _, _ => False
     end.
Proof.
  unfold Traverse. intros (Ha & Hr)%TraverseLoop_facts. split; [|done].
  by destruct Ha as [->|Hsuf].
Qed.

(** X20.  The arguments [Traverse] returns are a suffix of those of the
    call.  It returns either a command, the receiver or one of its subtree,
    and no error, or no command and an error, and then the error is one
    [ParseFlags] returned for a command on the way. *)
Theorem traverse_result c args called r a err called' :
  Traverse EnablePrefixMatching ParseError ParseFlags c args called = (r, a, err, called') ->
  a `suffix_of` args
  /\ match r, err with
     | Some d, None => reaches c d
     | None, Some e => exists d flagsSeen, reaches c d /\ ParseFlags d flagsSeen = Some e
     | _, _ => False
     end.
Proof. exact (Traverse_facts c args called r a err called'). Qed.

End Traverse.

Lemma traverse_result_witness :
  [] `suffix_of` ["-ab"; "sub"]
  /\ reaches TraverseFacts.subRoot (SuggestionFacts.leaf 2 "sub").
Proof.
  apply (traverse_result false string TraverseFacts.parseOk TraverseFacts.subRoot
           ["-ab"; "sub"] ∅ (Some (SuggestionFacts.leaf 2 "sub")) [] None
           (<[2%positive := "sub"]> ∅)).
  vm_compute; reflexivity.
Defined.

End ResolverMore.


(** * Available commands and help topics *)

Module HelpTopics.
Import Commands.

(** [c.IsAdditionalHelpTopicCommand()]. *)
Fixpoint IsAdditionalHelpTopicCommand (c : Command) : bool :=
  if runnable c || negb (String.eqb (Deprecated c) "") || Hidden c then false
  else forallb IsAdditionalHelpTopicCommand (commands c).

(** [c.HasHelpSubCommands()]. *)
Definition HasHelpSubCommands (c : Command) : bool :=
  existsb IsAdditionalHelpTopicCommand (commands c).

Lemma if_id (b : bool) : (if b then true else false) = b.
Proof. by destruct b. Qed.

Lemma IsAvailableCommand_eq parent c :
  IsAvailableCommand parent c =
    if negb (String.eqb (Deprecated c) "") || Hidden c then false
    else if match parent with
            | Some p => bool_decide (helpCommand p = Some (ptr c))
            | None => false
            end then false
    else runnable c || HasAvailableSubCommands c.
Proof.
  destruct c as [p u al sf dep hid run ar fl hc cs ds md].
  cbn [IsAvailableCommand HasAvailableSubCommands Deprecated Hidden
       runnable commands ptr].
  destruct (negb (String.eqb dep "") || hid); [done|].
  destruct (match parent with Some _ => _ | None => _ end); [done|].
  exact (if_id _).
Qed.

Lemma IsAdditionalHelpTopicCommand_eq c :
  IsAdditionalHelpTopicCommand c =
    if runnable c || negb (String.eqb (Deprecated c) "") || Hidden c then false
    else forallb IsAdditionalHelpTopicCommand (commands c).
Proof. by destruct c. Qed.

Lemma available_not_topic n :
  forall parent c,
    (height c <= n)%nat ->
    IsAvailableCommand parent c = true -> IsAdditionalHelpTopicCommand c = false.
Proof.
  induction n as [|n IH]; intros parent c Hh.
  - destruct c; cbn [height] in Hh; lia.
  - rewrite IsAvailableCommand_eq, IsAdditionalHelpTopicCommand_eq.
    destruct (negb (String.eqb (Deprecated c) "")); [done|].
    destruct (Hidden c); [done|]. cbn [orb].
    destruct (match parent with Some _ => _ | None => _ end); [done|].
    destruct (runnable c); [done|]. cbn [orb].
    unfold HasAvailableSubCommands.
    intros (s & Hin%list_elem_of_In & Hs)%existsb_exists.
    pose proof (ResolverFacts.height_child c s Hin) as Hlt.
    assert (IsAdditionalHelpTopicCommand s = false) as Hns
      by (apply (IH (Some c)); [lia|done]).
    destruct (forallb IsAdditionalHelpTopicCommand (commands c)) eqn:Ef; [|done].
    rewrite forallb_forall in Ef. rewrite Ef in Hns; [done|].
    by apply list_elem_of_In.
Qed.

Lemma available_or_topic parent c :
  IsAvailableCommand parent c && IsAdditionalHelpTopicCommand c = false
  /\ HasAvailableSubCommands c && IsAdditionalHelpTopicCommand c = false
  /\ HasAvailableSubCommands c && HasHelpSubCommands c
     = existsb (fun s => IsAvailableCommand (Some c) s) (commands c)
       && existsb (fun s => negb (IsAvailableCommand (Some c) s)
                            && IsAdditionalHelpTopicCommand s) (commands c).
Proof.
  split; [|split].
  - destruct (IsAvailableCommand parent c) eqn:Ea; [|done].
    by rewrite (available_not_topic (height c) parent c).
  - destruct (HasAvailableSubCommands c) eqn:Ea; [|done]. cbn [andb].
    unfold HasAvailableSubCommands in Ea.
    apply existsb_exists in Ea as (s & Hin & Hs).
    rewrite IsAdditionalHelpTopicCommand_eq.
    destruct (_ || _); [done|].
    destruct (forallb IsAdditionalHelpTopicCommand (commands c)) eqn:Ef; [|done].
    rewrite forallb_forall in Ef.
    specialize (Ef s Hin).
    by rewrite (available_not_topic (height s) (Some c) s) in Ef.
  - unfold HasAvailableSubCommands, HasHelpSubCommands. f_equal.
    induction (commands c) as [|s l IHl]; cbn [existsb]; [done|].
    rewrite IHl. f_equal.
    destruct (IsAvailableCommand (Some c) s) eqn:Ea; [|done].
    by rewrite (available_not_topic (height s) (Some c) s).
Qed.

(** X21.  No command is both an available command and an additional help
    topic; a command with an available subcommand is no help topic; and a
    subcommand that counts for [HasHelpSubCommands] is never one that counts
    for [HasAvailableSubCommands]. *)
Theorem available_excludes_help_topic parent c :
  IsAvailableCommand parent c && IsAdditionalHelpTopicCommand c = false
  /\ HasAvailableSubCommands c && IsAdditionalHelpTopicCommand c = false
  /\ HasAvailableSubCommands c && HasHelpSubCommands c
     = existsb (fun s => IsAvailableCommand (Some c) s) (commands c)
       && existsb (fun s => negb (IsAvailableCommand (Some c) s)
                            && IsAdditionalHelpTopicCommand s) (commands c).
Proof. exact (available_or_topic parent c). Qed.

End HelpTopics.


(** * The validators of positional arguments ([args.go]) *)

Module PositionalArguments.
Import Commands.

(** The errors of the validators, with the values their messages print. *)
Inductive error : Type :=
| ErrUnknownCommandFor (arg : string) (cmd : Command)
| ErrMinimumN (n received : Z)
| ErrMaximumN (n received : Z)
| ErrExact (n received : Z)
| ErrRange (min max received : Z).

(** [type PositionalArgs func(cmd *Command, args []string) error]. *)
Definition PositionalArgs : Type := Command -> list string -> option error.

(** [len(args)]. *)
Definition len (args : list string) : Z := Z.of_nat (length args).

(** [NoArgs]. *)
Definition NoArgs : PositionalArgs := fun cmd args =>
  match args with
  | arg0 :: _ => Some (ErrUnknownCommandFor arg0 cmd)
  | [] => None
  end.

(** [MinimumNArgs(n)]: the test of the source is [len(args) > n]. *)
Definition MinimumNArgs (n : Z) : PositionalArgs := fun cmd args =>
  if len args >? n then Some (ErrMinimumN n (len args)) else None.

(** [MaximumNArgs(n)]: the test of the source is [len(args) > 0]. *)
Definition MaximumNArgs (n : Z) : PositionalArgs := fun cmd args =>
  if len args >? 0 then Some (ErrMaximumN n (len args)) else None.

(** [ExactArgs(n)]. *)
Definition ExactArgs (n : Z) : PositionalArgs := fun cmd args =>
  if negb (len args =? n) then Some (ErrExact n (len args)) else None.

(** [RangeArgs(min, max)]. *)
Definition RangeArgs (min max : Z) : PositionalArgs := fun cmd args =>
  if (len args <? min) || (len args >? max)
  then Some (ErrRange min max (len args)) else None.

(** [MatchAll(pargs...)]. *)
Fixpoint MatchAll (pargs : list PositionalArgs) : PositionalArgs := fun cmd args =>
  match pargs with
  | [] => None
  | parg :: rest =>
      match parg cmd args with
      | Some err => Some err
      | None => MatchAll rest cmd args
      end
  end.

(** The validator returns nil. *)
Definition accepts (parg : PositionalArgs) (cmd : Command) (args : list string) : Prop :=
  parg cmd args = None.

Lemma MatchAll_first (pargs : list PositionalArgs) cmd args :
  (accepts (MatchAll pargs) cmd args <-> Forall (fun parg => accepts parg cmd args) pargs)
  /\ (forall err,
        MatchAll pargs cmd args = Some err ->
        exists l1 parg l2,
          pargs = (l1 ++ parg :: l2)%list
          /\ Forall (fun q => accepts q cmd args) l1
          /\ parg cmd args = Some err).
Proof.
  unfold accepts. induction pargs as [|parg rest [IH1 IH2]]; cbn [MatchAll].
  - split; [done|done].
  - destruct (parg cmd args) as [e|] eqn:Ep.
    + split.
      * split; [done|]. intros [Hp _]%Forall_cons. congruence.
      * intros err [= <-]. exists [], parg, rest. done.
    + split.
      * rewrite IH1, Forall_cons. split; [done|by intros [_ ?]].
      * intros err (l1 & q & l2 & -> & Hl1 & Hq)%IH2.
        exists (parg :: l1), q, l2. split; [done|]. split; [|done].
        by constructor.
Qed.

Lemma counters_related cmd args :
  (forall n, accepts (RangeArgs n n) cmd args <-> accepts (ExactArgs n) cmd args)
  /\ (forall n, accepts (MaximumNArgs n) cmd args <-> accepts NoArgs cmd args)
  /\ (forall n, accepts (MinimumNArgs n) cmd args <-> accepts (RangeArgs 0 n) cmd args)
  /\ (forall lo hi, 0 <= lo ->
        accepts (MatchAll [MinimumNArgs lo; MaximumNArgs hi]) cmd args <-> args = []).
Proof.
  unfold accepts, RangeArgs, ExactArgs, MaximumNArgs, MinimumNArgs, NoArgs, len.
  split; [|split; [|split]].
  - intros n. destruct (Z.ltb_spec (Z.of_nat (length args)) n),
      (Z.gtb_spec (Z.of_nat (length args)) n),
      (Z.eqb_spec (Z.of_nat (length args)) n); cbn [orb negb]; split; (done || lia).
  - intros n. destruct args as [|a l]; [done|]. cbn [length].
    destruct (Z.gtb_spec (Z.of_nat (S (length l))) 0); [done|lia].
  - intros n. destruct (Z.ltb_spec (Z.of_nat (length args)) 0); [lia|].
    cbn [orb]. by destruct (Z.of_nat (length args) >? n).
  - intros lo hi Hlo. cbn [MatchAll]. destruct args as [|a l]; cbn [length].
    + destruct (Z.gtb_spec (Z.of_nat 0) lo); [lia|done].
    + destruct (Z.of_nat (S (length l)) >? lo); [done|].
      destruct (Z.gtb_spec (Z.of_nat (S (length l))) 0); [done|lia].
Qed.

(** X22.  [MatchAll] returns nil exactly when every validator does, and
    otherwise the error of the first validator, in the order given, that
    returns one. *)
Theorem match_all_first_error (pargs : list PositionalArgs) cmd args :
  (accepts (MatchAll pargs) cmd args <-> Forall (fun parg => accepts parg cmd args) pargs)
  /\ (forall err,
        MatchAll pargs cmd args = Some err ->
        exists l1 parg l2,
          pargs = (l1 ++ parg :: l2)%list
          /\ Forall (fun q => accepts q cmd args) l1
          /\ parg cmd args = Some err).
Proof. exact (MatchAll_first pargs cmd args). Qed.

(** X23.  The counting validators as the code has them: [RangeArgs(n, n)]
    accepts what [ExactArgs(n)] accepts; [MaximumNArgs(n)] accepts what
    [NoArgs] accepts, the empty list, whatever [n]; [MinimumNArgs(n)]
    accepts the lists of at most [n] arguments; so [MinimumNArgs] and
    [MaximumNArgs] together accept the empty list only. *)
Theorem counting_validators cmd args :
  (forall n, accepts (RangeArgs n n) cmd args <-> accepts (ExactArgs n) cmd args)
  /\ (forall n, accepts (MaximumNArgs n) cmd args <-> accepts NoArgs cmd args)
  /\ (forall n, accepts (MinimumNArgs n) cmd args <-> accepts (RangeArgs 0 n) cmd args)
  /\ (forall lo hi, 0 <= lo ->
        accepts (MatchAll [MinimumNArgs lo; MaximumNArgs hi]) cmd args <-> args = []).
Proof. exact (counters_related cmd args). Qed.

End PositionalArguments.
